(** * pg-mcp: catalog introspection queries and the database document

    A shallow embedding of [server/resources/schema.py] and
    [app/resources/data.py].

    - The catalog relations the SQL text reads are lists of records, and
      the engine functions it calls ([obj_description], the cast to
      [regclass], ...) are functions of the database state.
    - A statement is evaluated clause by clause, FROM / JOIN, WHERE,
      GROUP BY, ORDER BY, SELECT, each clause a list combinator: a join is
      a nested loop, LEFT JOIN keeps an unmatched row with NULLs, unnest
      WITH ORDINALITY numbers the array elements from 1, ARRAY_AGG keeps
      NULL inputs.  Where SQL leaves an order open (ties of an ORDER BY)
      the model takes the order of a stable sort; names compare byte by
      byte.
    - A statement fails as a whole where a cast rejects the text it gets
      on one of the rows, and before it reads any row where a call fits
      no signature of its function: the engine settles the function of a
      call from the declared types of the arguments.
    - A statement returns its rows or fails; the Python code that
      assembles the document runs in the same error monad, over
      dynamically typed values, with its [for] loops and [append]s as
      state passing.
    - [get_sample_data] is a program over the two calls it makes on its
      connection, and running it records the statements it sends. *)

From Stdlib Require Import ZArith List String Ascii Bool Lia Permutation Sorted.
From Stdlib Require Import DecimalString.
Import ListNotations.
Local Open Scope string_scope.
Local Open Scope list_scope.
Local Open Scope Z_scope.

Set Implicit Arguments.
Set Warnings "-register-all".

(** ** Python values and exceptions *)

(** The values handed to the resource framework: [None], booleans,
    integers, strings, lists and dicts.  A dict keeps insertion order, so
    it is an association list. *)
Inductive value : Type :=
| VNone
| VBool (b : bool)
| VInt (z : Z)
| VStr (s : string)
| VList (l : list value)
| VDict (d : list (string * value)).

Inductive exn : Type :=
| QueryExecutionError
| KeyError (k : string)
| TypeError.

Inductive result (A : Type) : Type :=
| Ok (a : A)
| Raise (e : exn).
Arguments Ok {A} a.
Arguments Raise {A} e.

Definition bind {A B} (m : result A) (f : A -> result B) : result B :=
  match m with
  | Ok a => f a
  | Raise e => Raise e
  end.

Notation "x <- m ;; k" := (bind m (fun x => k))
  (at level 61, m at next level, right associativity).

Fixpoint mapM {A B} (f : A -> result B) (l : list A) : result (list B) :=
  match l with
  | [] => Ok []
  | x :: l' => y <- f x ;; ys <- mapM f l' ;; Ok (y :: ys)
  end.

(** [for x in xs: body] over a state that the body updates. *)
Fixpoint for_loop {A S} (xs : list A) (body : S -> A -> result S) (s : S)
  : result S :=
  match xs with
  | [] => Ok s
  | x :: xs' => s' <- body s x ;; for_loop xs' body s'
  end.

Fixpoint value_eqb (a b : value) {struct a} : bool :=
  match a, b with
  | VNone, VNone => true
  | VBool x, VBool y => Bool.eqb x y
  | VInt x, VInt y => Z.eqb x y
  | VStr x, VStr y => String.eqb x y
  | VList x, VList y =>
      (fix go (x y : list value) {struct x} : bool :=
         match x, y with
         | [], [] => true
         | u :: x', v :: y' => value_eqb u v && go x' y'
         | _, _ => false
         end) x y
  | VDict x, VDict y =>
      (fix go (x y : list (string * value)) {struct x} : bool :=
         match x, y with
         | [], [] => true
         | (k, u) :: x', (k', v) :: y' =>
             String.eqb k k' && value_eqb u v && go x' y'
         | _, _ => false
         end) x y
  | _, _ => false
  end.

Fixpoint dict_get (d : list (string * value)) (k : string) : option value :=
  match d with
  | [] => None
  | (k', v) :: d' => if String.eqb k' k then Some v else dict_get d' k
  end.

(** [row[k]] *)
Definition getitem (row : value) (k : string) : result value :=
  match row with
  | VDict d =>
      match dict_get d k with
      | Some v => Ok v
      | None => Raise (KeyError k)
      end
  | _ => Raise TypeError
  end.

(** [row.get(k)] and [row.get(k, default)] *)
Definition get_default (row : value) (k : string) (default : value)
  : result value :=
  match row with
  | VDict d =>
      match dict_get d k with
      | Some v => Ok v
      | None => Ok default
      end
  | _ => Raise TypeError
  end.

Definition get (row : value) (k : string) : result value :=
  get_default row k VNone.

(** [x in xs] on a list *)
Definition py_in (x : value) (xs : value) : result bool :=
  match xs with
  | VList l => Ok (existsb (value_eqb x) l)
  | _ => Raise TypeError
  end.

Fixpoint dict_set (d : list (string * value)) (k : string) (v : value)
  : list (string * value) :=
  match d with
  | [] => [(k, v)]
  | (k', v') :: d' =>
      if String.eqb k' k then (k', v) :: d' else (k', v') :: dict_set d' k v
  end.

(** [d[k].append(x)]: the list stored under [k] is extended in place. *)
Definition append_item (d : value) (k : string) (x : value) : result value :=
  l <- getitem d k ;;
  match d, l with
  | VDict kvs, VList xs => Ok (VDict (dict_set kvs k (VList (xs ++ [x]))))
  | _, _ => Raise TypeError
  end.

Definition keys (v : value) : list string :=
  match v with
  | VDict d => map fst d
  | _ => []
  end.

(** A bound text parameter must be a string. *)
Definition as_str (v : value) : result string :=
  match v with
  | VStr s => Ok s
  | _ => Raise TypeError
  end.

Definition opt_str (o : option string) : value :=
  match o with
  | Some s => VStr s
  | None => VNone
  end.

Definition opt_int (o : option Z) : value :=
  match o with
  | Some z => VInt z
  | None => VNone
  end.

Definition char_str (c : ascii) : string := String c EmptyString.

(** ** SQL building blocks *)

Section Sorting.
Variable A : Type.
Variable leb : A -> A -> bool.

(** Insertion keeps an element in front of the later ones it ties with,
    so [order_by] is a stable sort.  SQL leaves the order of ties open;
    the model picks the one a stable sort of the join output gives. *)
Fixpoint insert_sorted (x : A) (l : list A) : list A :=
  match l with
  | [] => [x]
  | y :: l' => if leb x y then x :: y :: l' else y :: insert_sorted x l'
  end.

Fixpoint order_by (l : list A) : list A :=
  match l with
  | [] => []
  | x :: l' => insert_sorted x (order_by l')
  end.
End Sorting.

(** Ascending order with NULLs last, the default of [ORDER BY]. *)
Definition nulls_last_leb (a b : option Z) : bool :=
  match a, b with
  | Some x, Some y => Z.leb x y
  | Some _, None => true
  | None, Some _ => false
  | None, None => true
  end.

(** [LEFT JOIN]: a left row without a partner is kept once, with the right
    side NULL. *)
Definition left_join {A} (matches : list A) : list (option A) :=
  match matches with
  | [] => [None]
  | _ => map Some matches
  end.

Fixpoint with_ordinality (i : Z) (l : list Z) : list (Z * Z) :=
  match l with
  | [] => []
  | x :: l' => (x, i) :: with_ordinality (i + 1) l'
  end.

(** [unnest(arr) WITH ORDINALITY]: one row (element, position) per array
    element, positions from 1; a NULL or empty array gives no row. *)
Definition unnest_with_ordinality (arr : option (list Z)) : list (Z * Z) :=
  match arr with
  | None => []
  | Some l => with_ordinality 1 l
  end.

Section Grouping.
Variables K R : Type.
Variable key_eqb : K -> K -> bool.
Variable key : R -> K.

Fixpoint add_to_group (k : K) (r : R) (gs : list (K * list R))
  : list (K * list R) :=
  match gs with
  | [] => [(k, [r])]
  | (k', rs) :: gs' =>
      if key_eqb k' k then (k', rs ++ [r]) :: gs'
      else (k', rs) :: add_to_group k r gs'
  end.

(** [GROUP BY]: rows with equal keys are collected, the groups in the
    order of their first row and the rows of a group in input order. *)
Definition group_by (rows : list R) : list (K * list R) :=
  fold_left (fun gs r => add_to_group (key r) r gs) rows [].
End Grouping.

(** [ARRAY_AGG(e ORDER BY pos)] over the rows of one group.  NULL inputs
    are aggregated like any other value. *)
Definition array_agg {R} (pos : R -> option Z) (e : R -> value)
  (rows : list R) : value :=
  VList (map e (order_by (fun a b => nulls_last_leb (pos a) (pos b)) rows)).

(** A scalar subquery: no row is NULL, one row is its value, more rows are
    an error of the statement. *)
Definition scalar_subquery {A} (rows : list A) : result (option A) :=
  match rows with
  | [] => Ok None
  | [x] => Ok (Some x)
  | _ => Raise QueryExecutionError
  end.

(** [s LIKE pattern] without an ESCAPE clause, on the characters of the
    two strings: [%] matches any run of characters, [_] any single
    character, and a backslash makes the next pattern character literal (a
    pattern that ends in a lone backslash, which the engine rejects,
    matches nothing here). *)
Fixpoint like_chars (p : list ascii) : list ascii -> bool :=
  match p with
  | [] => fun s => match s with [] => true | _ => false end
  | c :: p' =>
      if Ascii.eqb c "%" then
        fix any (s : list ascii) : bool :=
          like_chars p' s || match s with [] => false | _ :: s' => any s' end
      else if Ascii.eqb c "_" then
        fun s => match s with [] => false | _ :: s' => like_chars p' s' end
      else if Ascii.eqb c "\" then
        match p' with
        | [] => fun _ => false
        | q :: p'' =>
            fun s =>
              match s with
              | [] => false
              | d :: s' => Ascii.eqb q d && like_chars p'' s'
              end
        end
      else
        fun s =>
          match s with
          | [] => false
          | d :: s' => Ascii.eqb c d && like_chars p' s'
          end
  end.

Definition like (s pattern : string) : bool :=
  like_chars (list_ascii_of_string pattern) (list_ascii_of_string s).

(** [format('"%s"."%s"', a, b)]: the two names are spliced in as they are,
    between double quotes. *)
Definition dquote : string := String (ascii_of_nat 34) EmptyString.

Definition format_qualified (a b : string) : string :=
  (dquote ++ a ++ dquote ++ "." ++ dquote ++ b ++ dquote)%string.

(** ** The catalog *)

(** The rows of the relations the queries read, with the columns they
    use.  An [oid] is an integer; a nullable column is an [option]. *)

Record schemata_row := { schema_name : string }.

Record tables_row := {
  t_table_schema : string;
  t_table_name : string;
  t_table_type : string
}.

Record columns_row := {
  c_table_schema : string;
  c_table_name : string;
  column_name : string;
  ordinal_position : Z;
  data_type : string;
  is_nullable : string;
  column_default : option string
}.

Record pg_namespace_row := { nsp_oid : Z; nspname : string }.

Record pg_class_row := {
  rel_oid : Z;
  relname : string;
  relnamespace : Z;
  relam : Z;
  relpages : Z;
  reltuples : Z   (* a planner estimate; only passed through *)
}.

Record pg_attribute_row := { attrelid : Z; attnum : Z; attname : string }.

Record pg_constraint_row := {
  con_oid : Z;
  conname : string;
  connamespace : Z;
  contype : ascii;
  conrelid : Z;
  confrelid : Z;
  conkey : option (list Z);
  confkey : option (list Z)
}.

Record pg_index_row := {
  indexrelid : Z;
  indrelid : Z;
  indkey : option (list Z);
  indisunique : bool;
  indisprimary : bool;
  indisexclusion : bool;
  indimmediate : bool;
  indisclustered : bool;
  indisvalid : bool
}.

Record pg_am_row := { am_oid : Z; amname : string }.

(** The state of one database as a connection sees it: the relations, and
    the engine's functions the queries call.  [regclass] is the cast
    [text::regclass]; it gives no oid where the engine rejects the text
    (no such relation, or text that is no qualified name), and the
    statement then fails. *)
Record database := {
  schemata : list schemata_row;
  tables : list tables_row;
  columns : list columns_row;
  pg_namespace : list pg_namespace_row;
  pg_class : list pg_class_row;
  pg_attribute : list pg_attribute_row;
  pg_constraint : list pg_constraint_row;
  pg_index : list pg_index_row;
  pg_am : list pg_am_row;
  obj_description : Z -> option string;
  col_description : Z -> Z -> option string;
  pg_stat_get_tuples_inserted : Z -> Z;
  pg_get_indexdef : Z -> option string;
  pg_get_indexdef_column : Z -> Z -> option string;
  pg_get_constraintdef : Z -> option string;
  regclass : string -> option Z
}.

Definition regclass_oid (db : database) (text : string) : result Z :=
  match regclass db text with
  | Some oid => Ok oid
  | None => Raise QueryExecutionError
  end.

(** ** The text of a cast to [regclass]

    How the engine reads the text: it splits it at dots into names.  A
    name that starts with a double quote runs to the next double quote
    that is not doubled, two double quotes in a row standing for one in
    the name, and what follows the closing quote must be a dot or the end
    of the text.  Any other name runs to the next dot or blank and is
    folded to lower case.  Blanks around a name are skipped and a name is
    cut to 63 bytes.  A character is one byte and the locale is C, as for
    the order of names. *)
Definition is_dquote (c : ascii) : bool := Ascii.eqb c (ascii_of_nat 34).

Definition is_space (c : ascii) : bool :=
  existsb (Ascii.eqb c) (map ascii_of_nat [32; 9; 10; 13; 12]%nat).

Fixpoint skip_spaces (s : list ascii) : list ascii :=
  match s with
  | [] => []
  | c :: s' => if is_space c then skip_spaces s' else s
  end.

Definition downcase (c : ascii) : ascii :=
  let n := nat_of_ascii c in
  if ((65 <=? n) && (n <=? 90))%nat then ascii_of_nat (n + 32) else c.

(** The name after an opening double quote and the text after the closing
    one; nothing where no quote closes the name. *)
Fixpoint quoted_name (s : list ascii) : option (list ascii * list ascii) :=
  match s with
  | [] => None
  | c :: s' =>
      if is_dquote c
      then
        match s' with
        | [] => Some ([], [])
        | d :: s'' =>
            if is_dquote d
            then option_map (fun p => (d :: fst p, snd p)) (quoted_name s'')
            else Some ([], s')
        end
      else option_map (fun p => (c :: fst p, snd p)) (quoted_name s')
  end.

Fixpoint unquoted_name (s : list ascii) : list ascii * list ascii :=
  match s with
  | [] => ([], [])
  | c :: s' =>
      if Ascii.eqb c "."%char || is_space c then ([], s)
      else (downcase c :: fst (unquoted_name s'), snd (unquoted_name s'))
  end.

(** The names of a text that starts at a name.  Every name takes at least
    one character, so a [fuel] above the length of the text is never used
    up. *)
Fixpoint split_names (fuel : nat) (s : list ascii) : option (list string) :=
  match fuel with
  | O => None
  | S fuel' =>
      let name :=
        match s with
        | [] => None
        | c :: s' =>
            if is_dquote c then quoted_name s'
            else
              match unquoted_name s with
              | ([], _) => None
              | (n, rest) => Some (n, rest)
              end
        end in
      match name with
      | None => None
      | Some (n, rest) =>
          match skip_spaces rest with
          | [] => Some [string_of_list_ascii (firstn 63 n)]
          | c :: rest' =>
              if Ascii.eqb c "."%char
              then option_map (cons (string_of_list_ascii (firstn 63 n)))
                     (split_names fuel' (skip_spaces rest'))
              else None
          end
      end
  end.

Definition qualified_names (text : string) : option (list string) :=
  split_names (S (String.length text))
    (skip_spaces (list_ascii_of_string text)).

Definition relation_in (namespaces : list pg_namespace_row)
  (classes : list pg_class_row) (schema name : string) : option Z :=
  match find (fun n => String.eqb (nspname n) schema) namespaces with
  | Some n =>
      option_map rel_oid
        (find (fun r => String.eqb (relname r) name
                        && Z.eqb (relnamespace r) (nsp_oid n))
           classes)
  | None => None
  end.

Fixpoint relation_on_path (namespaces : list pg_namespace_row)
  (classes : list pg_class_row) (search_path : list string) (name : string)
  : option Z :=
  match search_path with
  | [] => None
  | schema :: search_path' =>
      match relation_in namespaces classes schema name with
      | Some oid => Some oid
      | None => relation_on_path namespaces classes search_path' name
      end
  end.

(** The cast on a server whose database is [current_database] and whose
    search path is [search_path]: one name is looked up along the search
    path, two name the schema and the relation, three have to start with
    the name of the database; the cast fails on any other text and where
    no such relation exists. *)
Definition text_regclass (current_database : string)
  (search_path : list string) (namespaces : list pg_namespace_row)
  (classes : list pg_class_row) (text : string) : option Z :=
  match qualified_names text with
  | Some [name] => relation_on_path namespaces classes search_path name
  | Some [schema; name] => relation_in namespaces classes schema name
  | Some [catalog; schema; name] =>
      if String.eqb catalog current_database
      then relation_in namespaces classes schema name
      else None
  | _ => None
  end.

(** ** Schemas, tables, columns *)

(** The WHERE clause shared by [schemas_query] of [db_info] and by
    [list_schemas]. *)
Definition non_system_schema (name : string) : bool :=
  negb (existsb (String.eqb name)
          ["pg_catalog"; "information_schema"; "pg_toast"])
  && negb (like name "pg_%").

Definition schemas_from (db : database)
  : list (schemata_row * pg_namespace_row) :=
  flat_map (fun s =>
    map (fun n => (s, n))
      (filter (fun n => String.eqb (nspname n) (schema_name s))
         (pg_namespace db)))
    (schemata db).

Definition schemas_select (db : database)
  (r : schemata_row * pg_namespace_row) : value :=
  VDict [("schema_name", VStr (schema_name (fst r)));
         ("description", opt_str (obj_description db (nsp_oid (snd r))))].

(** Names are ordered byte by byte. *)
Definition schemas_rows (db : database)
  : list (schemata_row * pg_namespace_row) :=
  order_by (fun a b => String.leb (schema_name (fst a)) (schema_name (fst b)))
    (filter (fun r => non_system_schema (schema_name (fst r)))
       (schemas_from db)).

Definition schemas_query (db : database) : result (list value) :=
  Ok (map (schemas_select db) (schemas_rows db)).

Definition list_schemas (db : database) : result (list value) :=
  Ok (map (schemas_select db) (schemas_rows db)).

Definition tables_rows (db : database) (schema : string) : list tables_row :=
  order_by (fun a b => String.leb (t_table_name a) (t_table_name b))
    (filter (fun t => String.eqb (t_table_schema t) schema
                      && String.eqb (t_table_type t) "BASE TABLE")
       (tables db)).

Definition tables_select (db : database) (count_key : string)
  (t : tables_row) : result value :=
  oid <- regclass_oid db
           (format_qualified (t_table_schema t) (t_table_name t)) ;;
  oid' <- regclass_oid db
            (format_qualified (t_table_schema t) (t_table_name t)) ;;
  Ok (VDict [("table_name", VStr (t_table_name t));
             ("description", opt_str (obj_description db oid));
             (count_key, VInt (pg_stat_get_tuples_inserted db oid'))]).

Definition tables_query (db : database) (schema : string)
  : result (list value) :=
  mapM (tables_select db "row_count") (tables_rows db schema).

Definition list_schema_tables (db : database) (schema : string)
  : result (list value) :=
  mapM (tables_select db "total_rows") (tables_rows db schema).

Definition columns_rows (db : database) (schema table : string)
  : list columns_row :=
  order_by (fun a b => Z.leb (ordinal_position a) (ordinal_position b))
    (filter (fun c => String.eqb (c_table_schema c) schema
                      && String.eqb (c_table_name c) table)
       (columns db)).

Definition columns_select (db : database) (c : columns_row) : result value :=
  oid <- regclass_oid db
           (format_qualified (c_table_schema c) (c_table_name c)) ;;
  Ok (VDict [("column_name", VStr (column_name c));
             ("data_type", VStr (data_type c));
             ("is_nullable", VStr (is_nullable c));
             ("column_default", opt_str (column_default c));
             ("description",
              opt_str (col_description db oid (ordinal_position c)))]).

Definition columns_query (db : database) (schema table : string)
  : result (list value) :=
  mapM (columns_select db) (columns_rows db schema table).

Definition get_table_columns (db : database) (schema table : string)
  : result (list value) :=
  mapM (columns_select db) (columns_rows db schema table).

(** ** Constraints *)

(** One row of the joins over [pg_constraint]: the aliases of the SQL
    text.  A side that a query does not join, or that a LEFT JOIN found
    no partner for, is [None]. *)
Record con_row := {
  j_c : pg_constraint_row;
  j_n : pg_namespace_row;
  j_t : pg_class_row;
  j_ref_table : option pg_class_row;
  j_nr : option pg_namespace_row;
  j_u : option (Z * Z);
  j_col : option pg_attribute_row;
  j_u2 : option (Z * Z);
  j_ref_col : option pg_attribute_row
}.

(** [a.attrelid = relid AND a.attnum = u.attnum]; a comparison with the
    NULL of an unmatched [u] is not true. *)
Definition attribute_matches (relid : Z) (u : option (Z * Z))
  (a : pg_attribute_row) : bool :=
  match u with
  | Some (num, _) => Z.eqb (attrelid a) relid && Z.eqb (attnum a) num
  | None => false
  end.

Definition attposition (u : option (Z * Z)) : option Z := option_map snd u.

Definition attname_value (a : option pg_attribute_row) : value :=
  opt_str (option_map attname a).

Definition opt_eqb {A} (eqb : A -> A -> bool) (a b : option A) : bool :=
  match a, b with
  | Some x, Some y => eqb x y
  | None, None => true
  | _, _ => false
  end.

(** The CASE over [contype] as [constraints_query] of [db_info] has it. *)
Definition constraint_type_desc_db_info (contype : ascii) : string :=
  if Ascii.eqb contype "p" then "PRIMARY KEY"
  else if Ascii.eqb contype "u" then "UNIQUE"
  else if Ascii.eqb contype "f" then "FOREIGN KEY"
  else if Ascii.eqb contype "c" then "CHECK"
  else "OTHER".

(** The CASE over [contype] as [get_table_constraints] and
    [get_constraint_details] have it. *)
Definition constraint_type_desc (contype : ascii) : string :=
  if Ascii.eqb contype "p" then "PRIMARY KEY"
  else if Ascii.eqb contype "u" then "UNIQUE"
  else if Ascii.eqb contype "f" then "FOREIGN KEY"
  else if Ascii.eqb contype "c" then "CHECK"
  else if Ascii.eqb contype "t" then "TRIGGER"
  else if Ascii.eqb contype "x" then "EXCLUSION"
  else "OTHER".

(** [ORDER BY c.contype, c.conname] *)
Definition contype_conname_leb (a b : ascii * string) : bool :=
  Ascii.ltb (fst a) (fst b)
  || (Ascii.eqb (fst a) (fst b) && String.leb (snd a) (snd b)).

(** *** [constraints_query] of [db_info] *)

Definition constraints_from (db : database) : list con_row :=
  flat_map (fun c =>
  flat_map (fun n =>
  flat_map (fun t =>
  flat_map (fun u =>
  map (fun col =>
    {| j_c := c; j_n := n; j_t := t; j_ref_table := None; j_nr := None;
       j_u := u; j_col := col; j_u2 := None; j_ref_col := None |})
    (left_join (filter (attribute_matches (rel_oid t) u) (pg_attribute db))))
    (left_join (unnest_with_ordinality (conkey c))))
    (filter (fun t => Z.eqb (rel_oid t) (conrelid c)) (pg_class db)))
    (filter (fun n => Z.eqb (nsp_oid n) (connamespace c)) (pg_namespace db)))
    (pg_constraint db).

Definition on_table (schema table : string) (r : con_row) : bool :=
  String.eqb (nspname (j_n r)) schema && String.eqb (relname (j_t r)) table.

Definition constraints_key (r : con_row) : string * ascii :=
  (conname (j_c r), contype (j_c r)).

Definition constraints_key_eqb (a b : string * ascii) : bool :=
  String.eqb (fst a) (fst b) && Ascii.eqb (snd a) (snd b).

Definition column_names_agg (rows : list con_row) : value :=
  array_agg (fun r => attposition (j_u r)) (fun r => attname_value (j_col r))
    rows.

Definition constraints_select (g : (string * ascii) * list con_row) : value :=
  let '((name, type), rows) := g in
  VDict [("constraint_name", VStr name);
         ("constraint_type", VStr (char_str type));
         ("constraint_type_desc", VStr (constraint_type_desc_db_info type));
         ("column_names", column_names_agg rows)].

Definition constraints_groups (db : database) (schema table : string)
  : list ((string * ascii) * list con_row) :=
  order_by
    (fun a b => contype_conname_leb (snd (fst a), fst (fst a))
                  (snd (fst b), fst (fst b)))
    (group_by constraints_key_eqb constraints_key
       (filter (on_table schema table) (constraints_from db))).

Definition constraints_query (db : database) (schema table : string)
  : result (list value) :=
  Ok (map constraints_select (constraints_groups db schema table)).

(** *** [foreign_keys_query] of [db_info] *)

Definition foreign_keys_from (db : database) : list con_row :=
  flat_map (fun c =>
  flat_map (fun n =>
  flat_map (fun t =>
  flat_map (fun ref_table =>
  flat_map (fun nr =>
  flat_map (fun u =>
  flat_map (fun col =>
  flat_map (fun u2 =>
  map (fun ref_col =>
    {| j_c := c; j_n := n; j_t := t; j_ref_table := Some ref_table;
       j_nr := Some nr; j_u := u; j_col := col; j_u2 := u2;
       j_ref_col := ref_col |})
    (left_join (filter (attribute_matches (confrelid c) u2)
                  (pg_attribute db))))
    (left_join (unnest_with_ordinality (confkey c))))
    (left_join (filter (attribute_matches (rel_oid t) u) (pg_attribute db))))
    (left_join (unnest_with_ordinality (conkey c))))
    (filter (fun nr => Z.eqb (nsp_oid nr) (relnamespace ref_table))
       (pg_namespace db)))
    (filter (fun r => Z.eqb (rel_oid r) (confrelid c)) (pg_class db)))
    (filter (fun t => Z.eqb (rel_oid t) (conrelid c)) (pg_class db)))
    (filter (fun n => Z.eqb (nsp_oid n) (connamespace c)) (pg_namespace db)))
    (pg_constraint db).

Definition foreign_keys_key (r : con_row)
  : string * option string * option string :=
  (conname (j_c r), option_map nspname (j_nr r),
   option_map relname (j_ref_table r)).

Definition foreign_keys_key_eqb (a b : string * option string * option string)
  : bool :=
  let '(n1, s1, t1) := a in
  let '(n2, s2, t2) := b in
  String.eqb n1 n2 && opt_eqb String.eqb s1 s2 && opt_eqb String.eqb t1 t2.

Definition referenced_columns_agg (rows : list con_row) : value :=
  array_agg (fun r => attposition (j_u2 r))
    (fun r => attname_value (j_ref_col r)) rows.

Definition foreign_keys_select
  (g : (string * option string * option string) * list con_row) : value :=
  let '((name, ref_schema, ref_table), rows) := g in
  VDict [("constraint_name", VStr name);
         ("column_names", column_names_agg rows);
         ("referenced_schema", opt_str ref_schema);
         ("referenced_table", opt_str ref_table);
         ("referenced_columns", referenced_columns_agg rows)].

Definition foreign_keys_groups (db : database) (schema table : string)
  : list ((string * option string * option string) * list con_row) :=
  order_by (fun a b => String.leb (fst (fst (fst a))) (fst (fst (fst b))))
    (group_by foreign_keys_key_eqb foreign_keys_key
       (filter (fun r => on_table schema table r
                         && Ascii.eqb (contype (j_c r)) "f")
          (foreign_keys_from db))).

Definition foreign_keys_query (db : database) (schema table : string)
  : result (list value) :=
  Ok (map foreign_keys_select (foreign_keys_groups db schema table)).

(** *** [get_table_constraints] *)

Definition table_constraints_from (db : database) : list con_row :=
  flat_map (fun c =>
  flat_map (fun n =>
  flat_map (fun t =>
  flat_map (fun ref_table =>
  flat_map (fun u =>
  map (fun col =>
    {| j_c := c; j_n := n; j_t := t; j_ref_table := ref_table; j_nr := None;
       j_u := u; j_col := col; j_u2 := None; j_ref_col := None |})
    (left_join (filter (attribute_matches (rel_oid t) u) (pg_attribute db))))
    (left_join (unnest_with_ordinality (conkey c))))
    (left_join (filter (fun r => Z.eqb (rel_oid r) (confrelid c))
                  (pg_class db))))
    (filter (fun t => Z.eqb (rel_oid t) (conrelid c)) (pg_class db)))
    (filter (fun n => Z.eqb (nsp_oid n) (connamespace c)) (pg_namespace db)))
    (pg_constraint db).

(** [GROUP BY c.conname, c.contype, c.oid, ref_table.relname,
    ref_table.relnamespace] *)
Record con_key := {
  k_conname : string;
  k_contype : ascii;
  k_oid : Z;
  k_ref_relname : option string;
  k_ref_relnamespace : option Z
}.

Definition table_constraints_key (r : con_row) : con_key :=
  {| k_conname := conname (j_c r);
     k_contype := contype (j_c r);
     k_oid := con_oid (j_c r);
     k_ref_relname := option_map relname (j_ref_table r);
     k_ref_relnamespace := option_map relnamespace (j_ref_table r) |}.

Definition con_key_eqb (a b : con_key) : bool :=
  String.eqb (k_conname a) (k_conname b)
  && Ascii.eqb (k_contype a) (k_contype b)
  && Z.eqb (k_oid a) (k_oid b)
  && opt_eqb String.eqb (k_ref_relname a) (k_ref_relname b)
  && opt_eqb Z.eqb (k_ref_relnamespace a) (k_ref_relnamespace b).

(** [CASE WHEN c.contype = 'f' THEN (SELECT nspname FROM pg_namespace
    WHERE oid = ref_table.relnamespace) || '.' || ref_table.relname
    ELSE NULL END]; a concatenation with NULL is NULL. *)
Definition referenced_table_expr (db : database) (k : con_key)
  : result value :=
  if Ascii.eqb (k_contype k) "f" then
    ns <- scalar_subquery
            (map nspname
               (filter (fun n => opt_eqb Z.eqb (Some (nsp_oid n))
                                   (k_ref_relnamespace k))
                  (pg_namespace db))) ;;
    match ns, k_ref_relname k with
    | Some s, Some r => Ok (VStr (s ++ "." ++ r)%string)
    | _, _ => Ok VNone
    end
  else Ok VNone.

Definition table_constraints_select (db : database)
  (g : con_key * list con_row) : result value :=
  let '(k, rows) := g in
  referenced_table <- referenced_table_expr db k ;;
  Ok (VDict [("constraint_name", VStr (k_conname k));
             ("constraint_type", VStr (char_str (k_contype k)));
             ("constraint_type_desc",
              VStr (constraint_type_desc (k_contype k)));
             ("description", opt_str (obj_description db (k_oid k)));
             ("definition", opt_str (pg_get_constraintdef db (k_oid k)));
             ("referenced_table", referenced_table);
             ("column_names", column_names_agg rows)]).

Definition con_key_leb (a b : con_key * list con_row) : bool :=
  contype_conname_leb (k_contype (fst a), k_conname (fst a))
    (k_contype (fst b), k_conname (fst b)).

Definition table_constraints_groups (db : database) (schema table : string)
  : list (con_key * list con_row) :=
  order_by con_key_leb
    (group_by con_key_eqb table_constraints_key
       (filter (on_table schema table) (table_constraints_from db))).

Definition get_table_constraints (db : database) (schema table : string)
  : result (list value) :=
  mapM (table_constraints_select db)
    (table_constraints_groups db schema table).

(** *** [get_constraint_details] *)

Definition is_foreign_key (c : pg_constraint_row) : bool :=
  Ascii.eqb (contype c) "f".

Definition constraint_details_from (db : database) : list con_row :=
  flat_map (fun c =>
  flat_map (fun n =>
  flat_map (fun t =>
  flat_map (fun ref_table =>
  flat_map (fun u =>
  flat_map (fun col =>
  flat_map (fun u2 =>
  map (fun ref_col =>
    {| j_c := c; j_n := n; j_t := t; j_ref_table := ref_table; j_nr := None;
       j_u := u; j_col := col; j_u2 := u2; j_ref_col := ref_col |})
    (left_join (filter (fun a => is_foreign_key c
                                 && attribute_matches (confrelid c) u2 a)
                  (pg_attribute db))))
    (left_join (filter (fun _ => is_foreign_key c)
                  (unnest_with_ordinality (confkey c)))))
    (left_join (filter (attribute_matches (rel_oid t) u) (pg_attribute db))))
    (left_join (unnest_with_ordinality (conkey c))))
    (left_join (filter (fun r => Z.eqb (rel_oid r) (confrelid c))
                  (pg_class db))))
    (filter (fun t => Z.eqb (rel_oid t) (conrelid c)) (pg_class db)))
    (filter (fun n => Z.eqb (nsp_oid n) (connamespace c)) (pg_namespace db)))
    (pg_constraint db).

Definition constraint_details_select (db : database)
  (g : con_key * list con_row) : result value :=
  let '(k, rows) := g in
  referenced_table <- referenced_table_expr db k ;;
  Ok (VDict [("constraint_name", VStr (k_conname k));
             ("constraint_type", VStr (char_str (k_contype k)));
             ("constraint_type_desc",
              VStr (constraint_type_desc (k_contype k)));
             ("description", opt_str (obj_description db (k_oid k)));
             ("definition", opt_str (pg_get_constraintdef db (k_oid k)));
             ("referenced_table", referenced_table);
             ("column_names", column_names_agg rows);
             ("referenced_columns",
              if Ascii.eqb (k_contype k) "f"
              then referenced_columns_agg rows
              else VNone)]).

Definition get_constraint_details (db : database)
  (schema table constraint : string) : result (list value) :=
  mapM (constraint_details_select db)
    (group_by con_key_eqb table_constraints_key
       (filter (fun r => on_table schema table r
                         && String.eqb (conname (j_c r)) constraint)
          (constraint_details_from db))).

(** ** Indexes *)

Record idx_row := {
  j_ix : pg_index_row;
  j_i : pg_class_row;
  j_it : pg_class_row;
  j_in : pg_namespace_row;
  j_am : pg_am_row;
  j_k : option (Z * Z);
  j_a : option pg_attribute_row
}.

(** The FROM clause of [get_table_indexes] and [get_index_details]. *)
Definition indexes_from (db : database) : list idx_row :=
  flat_map (fun ix =>
  flat_map (fun i =>
  flat_map (fun t =>
  flat_map (fun n =>
  flat_map (fun am =>
  flat_map (fun k =>
  map (fun a =>
    {| j_ix := ix; j_i := i; j_it := t; j_in := n; j_am := am;
       j_k := k; j_a := a |})
    (left_join (filter (attribute_matches (rel_oid t) k) (pg_attribute db))))
    (left_join (unnest_with_ordinality (indkey ix))))
    (filter (fun am => Z.eqb (relam i) (am_oid am)) (pg_am db)))
    (filter (fun n => Z.eqb (nsp_oid n) (relnamespace t)) (pg_namespace db)))
    (filter (fun t => Z.eqb (rel_oid t) (indrelid ix)) (pg_class db)))
    (filter (fun i => Z.eqb (rel_oid i) (indexrelid ix)) (pg_class db)))
    (pg_index db).

Definition index_on_table (schema table : string) (r : idx_row) : bool :=
  String.eqb (nspname (j_in r)) schema && String.eqb (relname (j_it r)) table.

Definition index_column_names_agg (rows : list idx_row) : value :=
  array_agg (fun r => attposition (j_k r)) (fun r => attname_value (j_a r))
    rows.

(** [GROUP BY i.relname, i.oid, am.amname, ix.indisunique,
    ix.indisprimary, ix.indisexclusion] *)
Definition indexes_key (r : idx_row)
  : string * Z * string * bool * bool * bool :=
  (relname (j_i r), rel_oid (j_i r), amname (j_am r),
   indisunique (j_ix r), indisprimary (j_ix r), indisexclusion (j_ix r)).

Definition indexes_key_eqb (a b : string * Z * string * bool * bool * bool)
  : bool :=
  let '(n1, o1, m1, u1, p1, x1) := a in
  let '(n2, o2, m2, u2, p2, x2) := b in
  String.eqb n1 n2 && Z.eqb o1 o2 && String.eqb m1 m2
  && Bool.eqb u1 u2 && Bool.eqb p1 p2 && Bool.eqb x1 x2.

Definition indexes_select (db : database)
  (g : (string * Z * string * bool * bool * bool) * list idx_row) : value :=
  let '((name, oid, am, uniq, prim, excl), rows) := g in
  VDict [("index_name", VStr name);
         ("index_definition", opt_str (pg_get_indexdef db oid));
         ("description", opt_str (obj_description db oid));
         ("index_type", VStr am);
         ("column_names", index_column_names_agg rows);
         ("is_unique", VBool uniq);
         ("is_primary", VBool prim);
         ("is_exclusion", VBool excl)].

Definition indexes_groups (db : database) (schema table : string)
  : list ((string * Z * string * bool * bool * bool) * list idx_row) :=
  order_by
    (fun a b => String.leb (fst (fst (fst (fst (fst (fst a))))))
                  (fst (fst (fst (fst (fst (fst b)))))))
    (group_by indexes_key_eqb indexes_key
       (filter (index_on_table schema table) (indexes_from db))).

Definition get_table_indexes (db : database) (schema table : string)
  : result (list value) :=
  Ok (map (indexes_select db) (indexes_groups db schema table)).

(** [GROUP BY i.relname, i.oid, am.amname, ix.indisunique,
    ix.indisprimary, ix.indisexclusion, ix.indimmediate,
    ix.indisclustered, ix.indisvalid, i.relpages, i.reltuples] *)
Record idx_key := {
  k_relname : string;
  k_rel_oid : Z;
  k_amname : string;
  k_indisunique : bool;
  k_indisprimary : bool;
  k_indisexclusion : bool;
  k_indimmediate : bool;
  k_indisclustered : bool;
  k_indisvalid : bool;
  k_relpages : Z;
  k_reltuples : Z
}.

Definition index_details_key (r : idx_row) : idx_key :=
  {| k_relname := relname (j_i r);
     k_rel_oid := rel_oid (j_i r);
     k_amname := amname (j_am r);
     k_indisunique := indisunique (j_ix r);
     k_indisprimary := indisprimary (j_ix r);
     k_indisexclusion := indisexclusion (j_ix r);
     k_indimmediate := indimmediate (j_ix r);
     k_indisclustered := indisclustered (j_ix r);
     k_indisvalid := indisvalid (j_ix r);
     k_relpages := relpages (j_i r);
     k_reltuples := reltuples (j_i r) |}.

Definition idx_key_eqb (a b : idx_key) : bool :=
  String.eqb (k_relname a) (k_relname b)
  && Z.eqb (k_rel_oid a) (k_rel_oid b)
  && String.eqb (k_amname a) (k_amname b)
  && Bool.eqb (k_indisunique a) (k_indisunique b)
  && Bool.eqb (k_indisprimary a) (k_indisprimary b)
  && Bool.eqb (k_indisexclusion a) (k_indisexclusion b)
  && Bool.eqb (k_indimmediate a) (k_indimmediate b)
  && Bool.eqb (k_indisclustered a) (k_indisclustered b)
  && Bool.eqb (k_indisvalid a) (k_indisvalid b)
  && Z.eqb (k_relpages a) (k_relpages b)
  && Z.eqb (k_reltuples a) (k_reltuples b).

(** The engine settles which function a call names from the declared
    types of its arguments, before the statement runs; a call that fits
    no signature of the function makes the statement fail whatever the
    tables hold.  An argument fits a parameter of its own type, or of a
    type it is cast to without the cast being written. *)
Inductive sql_type : Type := oid_type | integer_type | bigint_type
                           | boolean_type.

Definition sql_type_eqb (a b : sql_type) : bool :=
  match a, b with
  | oid_type, oid_type | integer_type, integer_type
  | bigint_type, bigint_type | boolean_type, boolean_type => true
  | _, _ => false
  end.

(** The implicit casts of [pg_cast] among these types.  [integer] widens
    to [bigint]; [bigint] narrows to [integer] in an assignment only,
    never in a call. *)
Definition implicit_cast (from to : sql_type) : bool :=
  match from, to with
  | integer_type, bigint_type
  | integer_type, oid_type
  | bigint_type, oid_type => true
  | _, _ => false
  end.

Definition argument_fits (actual declared : sql_type) : bool :=
  sql_type_eqb actual declared || implicit_cast actual declared.

Fixpoint arguments_fit (actual declared : list sql_type) : bool :=
  match actual, declared with
  | [], [] => true
  | a :: actual', d :: declared' =>
      argument_fits a d && arguments_fit actual' declared'
  | _, _ => false
  end.

Definition call_resolves (signatures : list (list sql_type))
  (actual : list sql_type) : bool :=
  existsb (arguments_fit actual) signatures.

(** [pg_get_indexdef(oid)] and [pg_get_indexdef(oid, integer, boolean)] *)
Definition pg_get_indexdef_signatures : list (list sql_type) :=
  [[oid_type]; [oid_type; integer_type; boolean_type]].

(** The ordinality column that [WITH ORDINALITY] appends is a [bigint]. *)
Definition ordinality_type : sql_type := bigint_type.

(** [pg_get_indexdef(i.oid, k.i, false)]: the arguments are [i.oid], the
    ordinality column [k.i] and a boolean literal. *)
Definition column_expression_call : list sql_type :=
  [oid_type; ordinality_type; boolean_type].

(** The function the call [pg_get_indexdef(i.oid, k.i, false)] names: the
    engine's [pg_get_indexdef(oid, integer, boolean)] with its last
    argument false, if the arguments of the call fit a signature. *)
Definition column_expression_function (db : database)
  : option (Z -> Z -> option string) :=
  if call_resolves pg_get_indexdef_signatures column_expression_call
  then Some (pg_get_indexdef_column db)
  else None.

(** The value of the call on a row, given the function it names; the
    function is strict, so the NULL position of an unmatched [k] gives
    NULL. *)
Definition column_expression (indexdef : Z -> Z -> option string)
  (r : idx_row) : value :=
  match j_k r with
  | Some (_, i) => opt_str (indexdef (rel_oid (j_i r)) i)
  | None => VNone
  end.

Definition index_details_select (db : database)
  (indexdef : Z -> Z -> option string) (g : idx_key * list idx_row) : value :=
  let '(k, rows) := g in
  VDict [("index_name", VStr (k_relname k));
         ("index_definition", opt_str (pg_get_indexdef db (k_rel_oid k)));
         ("description", opt_str (obj_description db (k_rel_oid k)));
         ("index_type", VStr (k_amname k));
         ("is_unique", VBool (k_indisunique k));
         ("is_primary", VBool (k_indisprimary k));
         ("is_exclusion", VBool (k_indisexclusion k));
         ("is_immediate", VBool (k_indimmediate k));
         ("is_clustered", VBool (k_indisclustered k));
         ("is_valid", VBool (k_indisvalid k));
         ("pages", VInt (k_relpages k));
         ("rows", VInt (k_reltuples k));
         ("column_names", index_column_names_agg rows);
         ("column_expressions",
          array_agg (fun r => attposition (j_k r))
            (column_expression indexdef) rows)].

(** The statement runs only if its call of [pg_get_indexdef] with three
    arguments names a function; the engine rejects it otherwise, before
    it reads a table.  The other calls of the statement,
    [pg_get_indexdef] and [obj_description] on [i.oid], have the declared
    argument type. *)
Definition get_index_details (db : database) (schema table index : string)
  : result (list value) :=
  match column_expression_function db with
  | Some indexdef =>
      Ok (map (index_details_select db indexdef)
            (group_by idx_key_eqb index_details_key
               (filter (fun r => index_on_table schema table r
                                 && String.eqb (relname (j_i r)) index)
                  (indexes_from db))))
  | None => Raise QueryExecutionError
  end.

(** ** The database document *)

(** The loop over [constraints] inside the loop over [columns]:
    [column_constraints] collects the label of every constraint whose
    [column_names] holds the column's name. *)
Definition column_constraints_of (column_name : value)
  (constraints : list value) : result (list value) :=
  for_loop constraints
    (fun column_constraints constraint =>
       names <- get_default constraint "column_names" (VList []) ;;
       found <- py_in column_name names ;;
       if found : bool then
         desc <- getitem constraint "constraint_type_desc" ;;
         Ok (column_constraints ++ [desc])
       else Ok column_constraints)
    [].

Definition add_column (constraints : list value) (table_info column : value)
  : result value :=
  column_name <- getitem column "column_name" ;;
  column_constraints <- column_constraints_of column_name constraints ;;
  type <- getitem column "data_type" ;;
  nullable <- getitem column "is_nullable" ;;
  default <- getitem column "column_default" ;;
  description <- getitem column "description" ;;
  let column_info :=
    VDict [("name", column_name);
           ("type", type);
           ("nullable", VBool (value_eqb nullable (VStr "YES")));
           ("default", default);
           ("description", description);
           ("constraints", VList column_constraints)] in
  append_item table_info "columns" column_info.

Definition add_foreign_key (table_info fk : value) : result value :=
  name <- getitem fk "constraint_name" ;;
  fk_columns <- getitem fk "column_names" ;;
  referenced_schema <- getitem fk "referenced_schema" ;;
  referenced_table <- getitem fk "referenced_table" ;;
  referenced_columns <- getitem fk "referenced_columns" ;;
  let fk_info :=
    VDict [("name", name);
           ("columns", fk_columns);
           ("referenced_schema", referenced_schema);
           ("referenced_table", referenced_table);
           ("referenced_columns", referenced_columns)] in
  append_item table_info "foreign_keys" fk_info.

Definition add_table (db : database) (schema_name : value)
  (schema_info table : value) : result value :=
  table_name <- getitem table "table_name" ;;
  table_description <- get table "description" ;;
  row_count <- get table "row_count" ;;
  let table_info :=
    VDict [("name", table_name);
           ("description", table_description);
           ("row_count", row_count);
           ("columns", VList []);
           ("foreign_keys", VList [])] in
  schema_param <- as_str schema_name ;;
  table_param <- as_str table_name ;;
  table_columns <- columns_query db schema_param table_param ;;
  constraints <- constraints_query db schema_param table_param ;;
  table_info <- for_loop table_columns (add_column constraints) table_info ;;
  foreign_keys <- foreign_keys_query db schema_param table_param ;;
  table_info <- for_loop foreign_keys add_foreign_key table_info ;;
  append_item schema_info "tables" table_info.

Definition add_schema (db : database) (doc schema : value) : result value :=
  schema_name <- getitem schema "schema_name" ;;
  schema_description <- get schema "description" ;;
  let schema_info :=
    VDict [("name", schema_name);
           ("description", schema_description);
           ("tables", VList [])] in
  schema_param <- as_str schema_name ;;
  schema_tables <- tables_query db schema_param ;;
  schema_info <- for_loop schema_tables (add_table db schema_name)
                   schema_info ;;
  append_item doc "schemas" schema_info.

Definition db_info (db : database) : result value :=
  schemas <- schemas_query db ;;
  for_loop schemas (add_schema db) (VDict [("schemas", VList [])]).

(** ** Sample rows *)

(** What [get_sample_data] asks of its connection: [conn.fetchval] and
    [conn.fetch], each with a statement text and the bound arguments; the
    continuation receives the answer. *)
Inductive conn_io (A : Type) : Type :=
| Return (a : A)
| Fetchval (query : string) (args : list value) (k : value -> conn_io A)
| Fetch (query : string) (args : list value) (k : list value -> conn_io A).
Arguments Return {A} a.
Arguments Fetchval {A} query args k.
Arguments Fetch {A} query args k.

(** [repr] of a string.  The quote is the single quote, or the double
    quote for a string that holds a single quote and no double quote; the
    quote and the backslash get a backslash, tab, newline and carriage
    return their letter, and a character that is not printable its two
    hexadecimal digits.  A character is a code point below 256: the
    controls, the no-break space and the soft hyphen are not printable. *)
Definition hex_digit (n : nat) : ascii :=
  nth n (list_ascii_of_string "0123456789abcdef") "0"%char.

Definition printable (c : ascii) : bool :=
  let n := nat_of_ascii c in
  ((32 <=? n) && (n <? 127) || (161 <=? n) && negb (n =? 173))%nat.

Definition contains (c : ascii) (s : string) : bool :=
  existsb (Ascii.eqb c) (list_ascii_of_string s).

Definition repr_quote (s : string) : ascii :=
  if contains "'"%char s && negb (contains (ascii_of_nat 34) s)
  then ascii_of_nat 34
  else "'"%char.

Definition repr_char (quote c : ascii) : string :=
  if Ascii.eqb c quote || Ascii.eqb c "\"%char
  then String "\"%char (String c EmptyString)
  else if Ascii.eqb c (ascii_of_nat 9) then "\t"
  else if Ascii.eqb c (ascii_of_nat 10) then "\n"
  else if Ascii.eqb c (ascii_of_nat 13) then "\r"
  else if printable c then String c EmptyString
  else String "\"%char
         (String "x"%char
            (String (hex_digit (nat_of_ascii c / 16))
               (String (hex_digit (nat_of_ascii c mod 16)) EmptyString))).

Definition repr_str (s : string) : string :=
  let quote := repr_quote s in
  String quote
    (concat EmptyString (map (repr_char quote) (list_ascii_of_string s))
     ++ String quote EmptyString)%string.

(** [repr(v)]: [None], [True] and [False], an integer in decimal, a
    string between quotes, a list between brackets and a dict between
    braces with [, ] between the items. *)
Fixpoint py_repr (v : value) : string :=
  match v with
  | VNone => "None"
  | VBool true => "True"
  | VBool false => "False"
  | VInt z => NilZero.string_of_int (Z.to_int z)
  | VStr s => repr_str s
  | VList l =>
      ("["
       ++ (fix items (l : list value) : string :=
             match l with
             | [] => EmptyString
             | x :: l' =>
                 match l' with
                 | [] => py_repr x
                 | _ :: _ => py_repr x ++ ", " ++ items l'
                 end
             end) l
       ++ "]")%string
  | VDict d =>
      ("{"
       ++ (fix items (d : list (string * value)) : string :=
             match d with
             | [] => EmptyString
             | (k, x) :: d' =>
                 match d' with
                 | [] => repr_str k ++ ": " ++ py_repr x
                 | _ :: _ => repr_str k ++ ": " ++ py_repr x ++ ", " ++ items d'
                 end
             end) d
       ++ "}")%string
  end.

(** [str(v)], as an f-string splices [v]: a string as it is, any other
    value as its [repr]. *)
Definition py_str (v : value) : string :=
  match v with
  | VStr s => s
  | _ => py_repr v
  end.

Definition get_sample_data (schema table : string) (limit : value)
  : conn_io (list value) :=
  Fetchval "SELECT quote_ident($1)" [VStr schema] (fun schema_ident =>
  Fetchval "SELECT quote_ident($1)" [VStr table] (fun table_ident =>
  Fetch ("SELECT * FROM " ++ py_str schema_ident ++ "."
           ++ py_str table_ident ++ " LIMIT $1")%string
    [limit] (fun rows => Return rows))).

Definition sample_table_data (schema table : string) : conn_io (list value) :=
  get_sample_data schema table (VInt 10).

(** A connection answers the two calls or fails. *)
Record connection := {
  fetchval : string -> list value -> result value;
  fetch : string -> list value -> result (list value)
}.

(** A statement as the server receives it: its text and bound arguments. *)
Definition statement : Type := string * list value.

(** Running a program on a connection: the statements sent, in order, and
    the outcome.  A failed call ends the run. *)
Fixpoint run_conn {A} (conn : connection) (p : conn_io A)
  : list statement * result A :=
  match p with
  | Return a => ([], Ok a)
  | Fetchval q args k =>
      match fetchval conn q args with
      | Ok v => let '(sent, r) := run_conn conn (k v) in ((q, args) :: sent, r)
      | Raise e => ([(q, args)], Raise e)
      end
  | Fetch q args k =>
      match fetch conn q args with
      | Ok rows =>
          let '(sent, r) := run_conn conn (k rows) in ((q, args) :: sent, r)
      | Raise e => ([(q, args)], Raise e)
      end
  end.

(** ** A sample database

    Schema [public] holds [users(id, email)], [order_items(order_no,
    line, qty)] and [shipments(shipment_id, order_id, line_no, during)];
    [shipments(order_id, line_no)] references [order_items(order_no,
    line)].  Schema [pgboss] is a job queue
    installed by an application. *)
Module Sample.

Definition namespaces : list pg_namespace_row :=
  [ {| nsp_oid := 11; nspname := "pg_catalog" |};
    {| nsp_oid := 99; nspname := "pg_toast" |};
    {| nsp_oid := 2200; nspname := "public" |};
    {| nsp_oid := 13000; nspname := "information_schema" |};
    {| nsp_oid := 16500; nspname := "pgboss" |} ].

Definition rel (oid : Z) (name : string) (ns am : Z) : pg_class_row :=
  {| rel_oid := oid; relname := name; relnamespace := ns; relam := am;
     relpages := 1; reltuples := 0 |}.

Definition classes : list pg_class_row :=
  [ rel 16385 "users" 2200 2;
    rel 16390 "users_pkey" 2200 403;
    rel 16392 "users_email_key" 2200 403;
    rel 16400 "order_items" 2200 2;
    rel 16405 "order_items_pkey" 2200 403;
    rel 16410 "shipments" 2200 2;
    rel 16430 "user_emails" 2200 0;
    rel 16520 "job" 16500 2 ].

Definition att (relid num : Z) (name : string) : pg_attribute_row :=
  {| attrelid := relid; attnum := num; attname := name |}.

Definition attributes : list pg_attribute_row :=
  [ att 16385 1 "id"; att 16385 2 "email";
    att 16400 1 "order_no"; att 16400 2 "line"; att 16400 3 "qty";
    att 16410 1 "shipment_id"; att 16410 2 "order_id";
    att 16410 3 "line_no"; att 16410 4 "during";
    att 16520 1 "id" ].

Definition con (oid : Z) (name : string) (type : ascii) (relid frelid : Z)
  (key fkey : option (list Z)) : pg_constraint_row :=
  {| con_oid := oid; conname := name; connamespace := 2200;
     contype := type; conrelid := relid; confrelid := frelid;
     conkey := key; confkey := fkey |}.

(** [users_sane] is a CHECK that names no column, so its [conkey] is
    NULL; [shipments_during_excl] is an exclusion constraint. *)
Definition constraints : list pg_constraint_row :=
  [ con 16391 "users_pkey" "p" 16385 0 (Some [1]) None;
    con 16393 "users_email_key" "u" 16385 0 (Some [2]) None;
    con 16394 "users_sane" "c" 16385 0 None None;
    con 16406 "order_items_pkey" "p" 16400 0 (Some [1; 2]) None;
    con 16415 "shipments_item_fkey" "f" 16410 16400
      (Some [2; 3]) (Some [1; 2]);
    con 16416 "shipments_during_excl" "x" 16410 0 (Some [4]) None ].

Definition idx (irel trel : Z) (key : list Z) (uniq prim : bool)
  : pg_index_row :=
  {| indexrelid := irel; indrelid := trel; indkey := Some key;
     indisunique := uniq; indisprimary := prim; indisexclusion := false;
     indimmediate := true; indisclustered := false; indisvalid := true |}.

Definition indexes : list pg_index_row :=
  [ idx 16390 16385 [1] true true;
    idx 16392 16385 [2] true false;
    idx 16405 16400 [1; 2] true true ].

Definition ams : list pg_am_row :=
  [ {| am_oid := 2; amname := "heap" |};
    {| am_oid := 403; amname := "btree" |} ].

Definition base_table (schema name : string) : tables_row :=
  {| t_table_schema := schema; t_table_name := name;
     t_table_type := "BASE TABLE" |}.

Definition info_tables : list tables_row :=
  [ base_table "public" "users";
    base_table "public" "shipments";
    base_table "public" "order_items";
    base_table "pgboss" "job";
    {| t_table_schema := "public"; t_table_name := "user_emails";
       t_table_type := "VIEW" |} ].

Definition column (table name : string) (pos : Z) (type nullable : string)
  : columns_row :=
  {| c_table_schema := "public"; c_table_name := table;
     column_name := name; ordinal_position := pos; data_type := type;
     is_nullable := nullable; column_default := None |}.

Definition info_columns : list columns_row :=
  [ column "users" "email" 2 "text" "NO";
    column "users" "id" 1 "integer" "NO";
    column "order_items" "order_no" 1 "integer" "NO";
    column "order_items" "line" 2 "integer" "NO";
    column "order_items" "qty" 3 "integer" "YES";
    column "shipments" "shipment_id" 1 "integer" "NO";
    column "shipments" "order_id" 2 "integer" "YES";
    column "shipments" "line_no" 3 "integer" "YES";
    column "shipments" "during" 4 "tsrange" "YES";
    {| c_table_schema := "pgboss"; c_table_name := "job";
       column_name := "id"; ordinal_position := 1; data_type := "uuid";
       is_nullable := "NO"; column_default := Some "gen_random_uuid()" |} ].

(** The cast resolves the qualified names of the relations above. *)
Definition resolve (text : string) : option Z :=
  option_map rel_oid
    (find (fun r =>
             existsb (fun n => Z.eqb (nsp_oid n) (relnamespace r)
                               && String.eqb text
                                    (format_qualified (nspname n)
                                       (relname r)))
               namespaces)
       classes).

Definition db : database :=
  {| schemata := map (fun n => {| schema_name := nspname n |}) namespaces;
     tables := info_tables;
     columns := info_columns;
     pg_namespace := namespaces;
     pg_class := classes;
     pg_attribute := attributes;
     pg_constraint := constraints;
     pg_index := indexes;
     pg_am := ams;
     obj_description :=
       fun oid => if Z.eqb oid 2200 then Some "standard public schema"
                  else None;
     col_description := fun _ _ => None;
     pg_stat_get_tuples_inserted := fun _ => 0;
     pg_get_indexdef := fun _ => None;
     pg_get_indexdef_column := fun _ _ => None;
     pg_get_constraintdef := fun _ => None;
     regclass := resolve |}.

(** The same database with its indexes dropped. *)
Definition db_without_indexes : database :=
  {| schemata := schemata db;
     tables := tables db;
     columns := columns db;
     pg_namespace := pg_namespace db;
     pg_class := pg_class db;
     pg_attribute := pg_attribute db;
     pg_constraint := pg_constraint db;
     pg_index := [];
     pg_am := pg_am db;
     obj_description := obj_description db;
     col_description := col_description db;
     pg_stat_get_tuples_inserted := pg_stat_get_tuples_inserted db;
     pg_get_indexdef := pg_get_indexdef db;
     pg_get_indexdef_column := pg_get_indexdef_column db;
     pg_get_constraintdef := pg_get_constraintdef db;
     regclass := regclass db |}.

(** The same database with the key array of the index [users_email_key]
    emptied: an index row the engine does not write, but the query text
    has to answer for. *)
Definition keyless_index : pg_index_row :=
  {| indexrelid := 16392; indrelid := 16385; indkey := Some [];
     indisunique := true; indisprimary := false; indisexclusion := false;
     indimmediate := true; indisclustered := false; indisvalid := true |}.

Definition db_with_keyless_index : database :=
  {| schemata := schemata db;
     tables := tables db;
     columns := columns db;
     pg_namespace := pg_namespace db;
     pg_class := pg_class db;
     pg_attribute := pg_attribute db;
     pg_constraint := pg_constraint db;
     pg_index := [idx 16390 16385 [1] true true; keyless_index];
     pg_am := pg_am db;
     obj_description := obj_description db;
     col_description := col_description db;
     pg_stat_get_tuples_inserted := pg_stat_get_tuples_inserted db;
     pg_get_indexdef := pg_get_indexdef db;
     pg_get_indexdef_column := pg_get_indexdef_column db;
     pg_get_constraintdef := pg_get_constraintdef db;
     regclass := regclass db |}.

(** The same database with one more table in [public], whose name holds
    a double quote: [we], a double quote, [ird].  The cast of this server
    reads its text as the engine does. *)
Definition weird : string := ("we" ++ dquote ++ "ird")%string.

Definition db_with_quoted_name : database :=
  {| schemata := schemata db;
     tables := base_table "public" weird :: tables db;
     columns := column weird "id" 1 "integer" "NO" :: columns db;
     pg_namespace := pg_namespace db;
     pg_class := rel 16440 weird 2200 2 :: pg_class db;
     pg_attribute := att 16440 1 "id" :: pg_attribute db;
     pg_constraint := pg_constraint db;
     pg_index := pg_index db;
     pg_am := pg_am db;
     obj_description := obj_description db;
     col_description := col_description db;
     pg_stat_get_tuples_inserted := pg_stat_get_tuples_inserted db;
     pg_get_indexdef := pg_get_indexdef db;
     pg_get_indexdef_column := pg_get_indexdef_column db;
     pg_get_constraintdef := pg_get_constraintdef db;
     regclass :=
       text_regclass "app" ["pg_catalog"; "public"] namespaces
         (rel 16440 weird 2200 2 :: classes) |}.

Fixpoint double_quotes (s : string) : string :=
  match s with
  | EmptyString => EmptyString
  | String c s' =>
      if Ascii.eqb c (ascii_of_nat 34)
      then String c (String c (double_quotes s'))
      else String c (double_quotes s')
  end.

(** Quoting as the engine does it for a name that needs quotes: embedded
    double quotes doubled, the whole between double quotes.  This server
    quotes every name. *)
Definition quote_always (name : string) : string :=
  (dquote ++ double_quotes name ++ dquote)%string.

Definition conn : connection :=
  {| fetchval := fun query args =>
       match args with
       | [VStr name] =>
           if String.eqb query "SELECT quote_ident($1)"
           then Ok (VStr (quote_always name))
           else Raise QueryExecutionError
       | _ => Raise QueryExecutionError
       end;
     fetch := fun _ _ => Ok [] |}.

End Sample.

(** * The vocabulary of the properties *)

Unset Implicit Arguments.

(** ** Reading results *)

(** The rows a lookup found, as a list. *)
Definition option_list {A} (o : option A) : list A :=
  match o with
  | Some x => [x]
  | None => []
  end.

(** The values under [k] in the rows a query returned. *)
Definition column_of (k : string) (r : result (list value))
  : result (list value) :=
  rows <- r ;; mapM (fun row => getitem row k) rows.

(** ** Columns, sample rows, detail requests *)

(** The rows [information_schema.columns] holds for one table. *)
Definition declared_columns (db : database) (schema table : string)
  : list columns_row :=
  filter (fun c => String.eqb (c_table_schema c) schema
                   && String.eqb (c_table_name c) table)
    (columns db).

(** The row the columns facet returns for a catalog row of a table whose
    qualified name the cast resolved to [oid]. *)
Definition column_facet_row (db : database) (oid : Z) (c : columns_row)
  : value :=
  VDict [("column_name", VStr (column_name c));
         ("data_type", VStr (data_type c));
         ("is_nullable", VStr (is_nullable c));
         ("column_default", opt_str (column_default c));
         ("description",
          opt_str (col_description db oid (ordinal_position c)))].

(** The text of the statement [get_sample_data] should build, given the
    engine's identifier-quoting function. *)
Definition sample_query (quote_ident : string -> string)
  (schema table : string) : string :=
  ("SELECT * FROM " ++ quote_ident schema ++ "." ++ quote_ident table
     ++ " LIMIT $1")%string.

(** Is there an index named [index] on a table named [table] in a schema
    named [schema]? *)
Definition index_exists (db : database) (schema table index : string) : bool :=
  existsb (fun ix =>
    existsb (fun i =>
      Z.eqb (rel_oid i) (indexrelid ix) && String.eqb (relname i) index
      && existsb (fun t =>
           Z.eqb (rel_oid t) (indrelid ix) && String.eqb (relname t) table
           && existsb (fun n =>
                Z.eqb (nsp_oid n) (relnamespace t)
                && String.eqb (nspname n) schema)
                (pg_namespace db))
           (pg_class db))
      (pg_class db))
    (pg_index db).

(** Is there a constraint named [constraint] in a schema named [schema]
    on a relation named [table]? *)
Definition constraint_exists (db : database)
  (schema table constraint : string) : bool :=
  existsb (fun c =>
    String.eqb (conname c) constraint
    && existsb (fun n =>
         Z.eqb (nsp_oid n) (connamespace c) && String.eqb (nspname n) schema)
         (pg_namespace db)
    && existsb (fun t =>
         Z.eqb (rel_oid t) (conrelid c) && String.eqb (relname t) table)
         (pg_class db))
    (pg_constraint db).

(** The pattern of the schema filter, character by character. *)
Definition pg_pattern : list ascii := ["p"; "g"; "_"; "%"]%char.

(** ** Catalogs with unique keys *)

(** No element of the list occurs twice. *)
Fixpoint nodupb {A} (eqb : A -> A -> bool) (l : list A) : bool :=
  match l with
  | [] => true
  | x :: l' => negb (existsb (eqb x) l') && nodupb eqb l'
  end.

(** [(attrelid, attnum)] is the key of [pg_attribute]. *)
Definition pair_eqb (a b : Z * Z) : bool :=
  Z.eqb (fst a) (fst b) && Z.eqb (snd a) (snd b).

Definition attribute_key (a : pg_attribute_row) : Z * Z :=
  (attrelid a, attnum a).

(** The unique indexes of the catalog: an oid names one row of its
    relation, and a relation has one attribute per number. *)
Definition catalog_keys_unique (db : database) : bool :=
  nodupb Z.eqb (map nsp_oid (pg_namespace db))
  && nodupb Z.eqb (map rel_oid (pg_class db))
  && nodupb pair_eqb (map attribute_key (pg_attribute db))
  && nodupb Z.eqb (map con_oid (pg_constraint db))
  && nodupb Z.eqb (map indexrelid (pg_index db))
  && nodupb Z.eqb (map am_oid (pg_am db)).

(** Lookups by key. *)
Definition namespace_of (db : database) (oid : Z) : option pg_namespace_row :=
  find (fun n => Z.eqb (nsp_oid n) oid) (pg_namespace db).

Definition class_of (db : database) (oid : Z) : option pg_class_row :=
  find (fun r => Z.eqb (rel_oid r) oid) (pg_class db).

Definition attribute_of (db : database) (relid : Z) (u : option (Z * Z))
  : option pg_attribute_row :=
  find (attribute_matches relid u) (pg_attribute db).

(** The constraint sits in a schema named [schema] on a relation named
    [table]. *)
Definition constraint_on (db : database) (schema table : string)
  (c : pg_constraint_row) : bool :=
  match namespace_of db (connamespace c), class_of db (conrelid c) with
  | Some n, Some t =>
      String.eqb (nspname n) schema && String.eqb (relname t) table
  | _, _ => false
  end.

(** The name of the attribute of [relid] numbered [num], NULL where the
    relation has no such attribute. *)
Definition key_column_name (db : database) (relid : Z) (num : Z) : value :=
  attname_value (attribute_of db relid (Some (num, 0))).

(** ** The rows of the constraint and index queries *)

(** The aggregated names of a constraint's key columns. *)
Definition key_column_names (db : database) (c : pg_constraint_row)
  : list value :=
  match conkey c with
  | Some (x :: l) => map (key_column_name db (conrelid c)) (x :: l)
  | _ => [VNone]
  end.

(** The GROUP BY key of the constraints facet for one constraint. *)
Definition table_constraint_key (db : database) (c : pg_constraint_row)
  : con_key :=
  {| k_conname := conname c;
     k_contype := contype c;
     k_oid := con_oid c;
     k_ref_relname := option_map relname (class_of db (confrelid c));
     k_ref_relnamespace :=
       option_map relnamespace (class_of db (confrelid c)) |}.

(** The value of [referenced_table] where the scalar subquery finds at
    most one schema. *)
Definition referenced_table_value (db : database) (k : con_key) : value :=
  if Ascii.eqb (k_contype k) "f" then
    match find (fun n => opt_eqb Z.eqb (Some (nsp_oid n))
                           (k_ref_relnamespace k))
            (pg_namespace db),
          k_ref_relname k with
    | Some n, Some r => VStr (nspname n ++ "." ++ r)%string
    | _, _ => VNone
    end
  else VNone.

(** The row of the constraints facet for one constraint. *)
Definition table_constraint_row (db : database) (c : pg_constraint_row)
  : value :=
  VDict [("constraint_name", VStr (conname c));
         ("constraint_type", VStr (char_str (contype c)));
         ("constraint_type_desc", VStr (constraint_type_desc (contype c)));
         ("description", opt_str (obj_description db (con_oid c)));
         ("definition", opt_str (pg_get_constraintdef db (con_oid c)));
         ("referenced_table",
          referenced_table_value db (table_constraint_key db c));
         ("column_names", VList (key_column_names db c))].

(** [ORDER BY c.contype, c.conname] on the constraints themselves. *)
Definition constraint_leb (a b : pg_constraint_row) : bool :=
  contype_conname_leb (contype a, conname a) (contype b, conname b).

(** The constraints of a table in the order the facet returns them. *)
Definition constraints_of_table (db : database) (schema table : string)
  : list pg_constraint_row :=
  order_by constraint_leb
    (filter (constraint_on db schema table) (pg_constraint db)).

(** The join rows of one constraint in [get_table_constraints], given
    its schema and its relation. *)
Definition table_constraint_rows (db : database) (c : pg_constraint_row)
  (n : pg_namespace_row) (t : pg_class_row) : list con_row :=
  map (fun u =>
         {| j_c := c; j_n := n; j_t := t;
            j_ref_table := class_of db (confrelid c); j_nr := None;
            j_u := u; j_col := attribute_of db (rel_oid t) u;
            j_u2 := None; j_ref_col := None |})
    (left_join (unnest_with_ordinality (conkey c))).

Definition table_constraint_join (db : database) (c : pg_constraint_row)
  : list con_row :=
  match namespace_of db (connamespace c), class_of db (conrelid c) with
  | Some n, Some t => table_constraint_rows db c n t
  | _, _ => []
  end.

(** Constraint names are unique within a table. *)
Definition constraint_names_unique (db : database) (schema table : string)
  : bool :=
  nodupb String.eqb
    (map conname (filter (constraint_on db schema table) (pg_constraint db))).

(** The row of [constraints_query] for one constraint. *)
Definition document_constraint_row (db : database) (c : pg_constraint_row)
  : value :=
  VDict [("constraint_name", VStr (conname c));
         ("constraint_type", VStr (char_str (contype c)));
         ("constraint_type_desc",
          VStr (constraint_type_desc_db_info (contype c)));
         ("column_names", VList (key_column_names db c))].

(** The join rows of one constraint in [constraints_query]. *)
Definition constraints_join (db : database) (c : pg_constraint_row)
  : list con_row :=
  match namespace_of db (connamespace c), class_of db (conrelid c) with
  | Some n, Some t =>
      map (fun u =>
             {| j_c := c; j_n := n; j_t := t; j_ref_table := None;
                j_nr := None; j_u := u;
                j_col := attribute_of db (rel_oid t) u;
                j_u2 := None; j_ref_col := None |})
        (left_join (unnest_with_ordinality (conkey c)))
  | _, _ => []
  end.

(** The access method with the given oid. *)
Definition am_of (db : database) (oid : Z) : option pg_am_row :=
  find (fun am => Z.eqb oid (am_oid am)) (pg_am db).

(** The rows an index joins to: its own relation, the indexed relation,
    that relation's schema, and the access method. *)
Definition index_parents (db : database) (ix : pg_index_row)
  : option (pg_class_row * pg_class_row * pg_namespace_row * pg_am_row) :=
  match class_of db (indexrelid ix), class_of db (indrelid ix) with
  | Some i, Some t =>
      match namespace_of db (relnamespace t), am_of db (relam i) with
      | Some n, Some am => Some (i, t, n, am)
      | _, _ => None
      end
  | _, _ => None
  end.

(** The index is on a relation named [table] in a schema named
    [schema]. *)
Definition index_on (db : database) (schema table : string)
  (ix : pg_index_row) : bool :=
  match index_parents db ix with
  | Some (_, t, n, _) =>
      String.eqb (nspname n) schema && String.eqb (relname t) table
  | None => false
  end.

(** The name and the access method of an index that joins. *)
Definition index_name (db : database) (ix : pg_index_row) : string :=
  match index_parents db ix with
  | Some (i, _, _, _) => relname i
  | None => ""
  end.

Definition index_type (db : database) (ix : pg_index_row) : string :=
  match index_parents db ix with
  | Some (_, _, _, am) => amname am
  | None => ""
  end.

(** The aggregated names of an index's key columns. *)
Definition index_key_column_names (db : database) (ix : pg_index_row)
  : list value :=
  match indkey ix with
  | Some (x :: l) => map (key_column_name db (indrelid ix)) (x :: l)
  | _ => [VNone]
  end.

(** The row of the indexes facet for one index. *)
Definition index_facet_row (db : database) (ix : pg_index_row) : value :=
  VDict [("index_name", VStr (index_name db ix));
         ("index_definition", opt_str (pg_get_indexdef db (indexrelid ix)));
         ("description", opt_str (obj_description db (indexrelid ix)));
         ("index_type", VStr (index_type db ix));
         ("column_names", VList (index_key_column_names db ix));
         ("is_unique", VBool (indisunique ix));
         ("is_primary", VBool (indisprimary ix));
         ("is_exclusion", VBool (indisexclusion ix))].

(** The indexes of a table in the order the facet returns them. *)
Definition indexes_of_table (db : database) (schema table : string)
  : list pg_index_row :=
  order_by (fun a b => String.leb (index_name db a) (index_name db b))
    (filter (index_on db schema table) (pg_index db)).

(** The join rows of one index in [get_table_indexes], and their GROUP BY
    key. *)
Definition index_join (db : database) (ix : pg_index_row) : list idx_row :=
  match index_parents db ix with
  | Some (i, t, n, am) =>
      map (fun k =>
             {| j_ix := ix; j_i := i; j_it := t; j_in := n; j_am := am;
                j_k := k; j_a := attribute_of db (rel_oid t) k |})
        (left_join (unnest_with_ordinality (indkey ix)))
  | None => []
  end.

Definition index_parent_key (db : database) (ix : pg_index_row)
  : string * Z * string * bool * bool * bool :=
  (index_name db ix, indexrelid ix, index_type db ix,
   indisunique ix, indisprimary ix, indisexclusion ix).

(** ** The document in closed form *)

(** The oid a cast resolves to, where it does. *)
Definition resolved_oid (db : database) (text : string) : Z :=
  match regclass db text with
  | Some oid => oid
  | None => 0
  end.

(** The cast of the qualified name succeeds. *)
Definition resolves (db : database) (schema table : string) : bool :=
  match regclass db (format_qualified schema table) with
  | Some _ => true
  | None => false
  end.

(** The engine resolves the qualified name of every relation that
    [information_schema] lists. *)
Definition casts_resolve (db : database) : bool :=
  forallb (fun t => resolves db (t_table_schema t) (t_table_name t))
    (tables db)
  && forallb (fun c => resolves db (c_table_schema c) (c_table_name c))
       (columns db).

(** The rows of the tables and columns queries for their catalog rows. *)
Definition table_row (db : database) (count_key : string) (t : tables_row)
  : value :=
  let oid :=
    resolved_oid db (format_qualified (t_table_schema t) (t_table_name t)) in
  VDict [("table_name", VStr (t_table_name t));
         ("description", opt_str (obj_description db oid));
         (count_key, VInt (pg_stat_get_tuples_inserted db oid))].

Definition column_row (db : database) (c : columns_row) : value :=
  column_facet_row db
    (resolved_oid db (format_qualified (c_table_schema c) (c_table_name c)))
    c.

(** The elements of [column_names_agg]. *)
Definition column_names_list (rows : list con_row) : list value :=
  map (fun r => attname_value (j_col r))
    (order_by
       (fun a b =>
          nulls_last_leb (attposition (j_u a)) (attposition (j_u b)))
       rows).

(** The labels of the constraints, as [constraints_query] groups them,
    whose aggregated names hold [name]. *)
Definition column_constraint_labels
  (groups : list ((string * ascii) * list con_row)) (name : string)
  : list value :=
  map (fun g => VStr (constraint_type_desc_db_info (snd (fst g))))
    (filter (fun g => existsb (value_eqb (VStr name))
                        (column_names_list (snd g)))
       groups).

(** The entries [db_info] appends for a column, a foreign key, a table
    and a schema. *)
Definition column_entry (db : database)
  (groups : list ((string * ascii) * list con_row)) (c : columns_row)
  : value :=
  VDict [("name", VStr (column_name c));
         ("type", VStr (data_type c));
         ("nullable", VBool (String.eqb (is_nullable c) "YES"));
         ("default", opt_str (column_default c));
         ("description",
          opt_str (col_description db
                     (resolved_oid db
                        (format_qualified (c_table_schema c)
                           (c_table_name c)))
                     (ordinal_position c)));
         ("constraints",
          VList (column_constraint_labels groups (column_name c)))].

Definition foreign_key_entry
  (g : (string * option string * option string) * list con_row) : value :=
  VDict [("name", VStr (fst (fst (fst g))));
         ("columns", column_names_agg (snd g));
         ("referenced_schema", opt_str (snd (fst (fst g))));
         ("referenced_table", opt_str (snd (fst g)));
         ("referenced_columns", referenced_columns_agg (snd g))].

Definition table_entry (db : database) (schema : string) (t : tables_row)
  : value :=
  let oid :=
    resolved_oid db (format_qualified (t_table_schema t) (t_table_name t)) in
  VDict [("name", VStr (t_table_name t));
         ("description", opt_str (obj_description db oid));
         ("row_count", VInt (pg_stat_get_tuples_inserted db oid));
         ("columns",
          VList (map (column_entry db
                        (constraints_groups db schema (t_table_name t)))
                   (columns_rows db schema (t_table_name t))));
         ("foreign_keys",
          VList (map foreign_key_entry
                   (foreign_keys_groups db schema (t_table_name t))))].

Definition schema_entry (db : database)
  (r : schemata_row * pg_namespace_row) : value :=
  VDict [("name", VStr (schema_name (fst r)));
         ("description", opt_str (obj_description db (nsp_oid (snd r))));
         ("tables",
          VList (map (table_entry db (schema_name (fst r)))
                   (tables_rows db (schema_name (fst r)))))].

(** The document in closed form. *)
Definition document (db : database) : value :=
  VDict [("schemas", VList (map (schema_entry db) (schemas_rows db)))].

(** The statements one round of the loop over the schemas runs before it
    appends the schema entry. *)
Definition schema_statements (db : database)
  (r : schemata_row * pg_namespace_row) : result value :=
  schema_tables <- tables_query db (schema_name (fst r)) ;;
  for_loop schema_tables (add_table db (VStr (schema_name (fst r))))
    (VDict [("name", VStr (schema_name (fst r)));
            ("description", opt_str (obj_description db (nsp_oid (snd r))));
            ("tables", VList [])]).

(** ** The shape of the document *)

(** The keys of a table entry, of a schema entry and of the document, and
    the lists they hold. *)
Definition table_shape (table_info : value) : Prop :=
  keys table_info
  = ["name"; "description"; "row_count"; "columns"; "foreign_keys"]
  /\ (exists cs, getitem table_info "columns" = Ok (VList cs))
  /\ (exists fks, getitem table_info "foreign_keys" = Ok (VList fks)).

Definition schema_shape (schema_info : value) : Prop :=
  keys schema_info = ["name"; "description"; "tables"]
  /\ exists ts,
       getitem schema_info "tables" = Ok (VList ts) /\ Forall table_shape ts.

Definition document_shape (doc : value) : Prop :=
  keys doc = ["schemas"]
  /\ exists ss,
       getitem doc "schemas" = Ok (VList ss) /\ Forall schema_shape ss.

(** ** The document against the facets *)

(** The constraint is neither a constraint trigger nor an exclusion
    constraint. *)
Definition plain_constraint (c : pg_constraint_row) : bool :=
  negb (Ascii.eqb (contype c) "t") && negb (Ascii.eqb (contype c) "x").

(** The table has no constraint trigger and no exclusion constraint. *)
Definition plain_constraints_only (db : database) (schema table : string)
  : bool :=
  forallb plain_constraint
    (filter (constraint_on db schema table) (pg_constraint db)).

(** The entry the document holds for a column of a table whose
    constraints are [cons]: the fields of the column's facet row under
    the document's names, and the facet's labels of the constraints whose
    key columns include the column. *)
Definition document_column (db : database) (cons : list pg_constraint_row)
  (c : columns_row) : value :=
  VDict [("name", VStr (column_name c));
         ("type", VStr (data_type c));
         ("nullable", VBool (String.eqb (is_nullable c) "YES"));
         ("default", opt_str (column_default c));
         ("description",
          opt_str (col_description db
                     (resolved_oid db
                        (format_qualified (c_table_schema c)
                           (c_table_name c)))
                     (ordinal_position c)));
         ("constraints",
          VList (map (fun k => VStr (constraint_type_desc (contype k)))
                   (filter (fun k => existsb (value_eqb (VStr (column_name c)))
                                       (key_column_names db k))
                      cons)))].

(** ** Outcomes of the document and of the listings *)

(** Every cast that [db_info] evaluates resolves: the base tables of the
    listed schemas, and the columns of those tables. *)
Definition visited_casts_resolve (db : database) : bool :=
  forallb (fun r =>
    forallb (fun t => resolves db (t_table_schema t) (t_table_name t))
      (tables_rows db (schema_name (fst r)))
    && forallb (fun t =>
         forallb (fun c => resolves db (c_table_schema c) (c_table_name c))
           (columns_rows db (schema_name (fst r)) (t_table_name t)))
         (tables_rows db (schema_name (fst r))))
    (schemas_rows db).

(** A connection on which every call fails. *)
Definition failing_connection : connection :=
  {| fetchval := fun _ _ => Raise QueryExecutionError;
     fetch := fun _ _ => Raise QueryExecutionError |}.

(** The schema names the schemas listing returns, in order. *)
Definition listed_schema_names (db : database) : list string :=
  map (fun r => schema_name (fst r)) (schemas_rows db).

(** The name is [pg] followed by at least one more character. *)
Definition matches_pg_pattern (name : string) : Prop :=
  exists (c : ascii) (rest : string),
    name = String "p" (String "g" (String c rest)).

(** The base tables [information_schema.tables] lists for a schema. *)
Definition base_tables (db : database) (schema : string) : list tables_row :=
  filter (fun t => String.eqb (t_table_schema t) schema
                   && String.eqb (t_table_type t) "BASE TABLE")
    (tables db).

(** ** The rows of the detail queries *)

(** The rows the second unnest of [get_constraint_details] contributes
    for one constraint: the entries of [confkey] for a foreign key, the
    single NULL-extended row otherwise. *)
Definition referenced_key_positions (c : pg_constraint_row)
  : list (option (Z * Z)) :=
  left_join (filter (fun _ => is_foreign_key c)
               (unnest_with_ordinality (confkey c))).

Definition referenced_attribute_of (db : database) (c : pg_constraint_row)
  (u2 : option (Z * Z)) : option pg_attribute_row :=
  find (fun a => is_foreign_key c && attribute_matches (confrelid c) u2 a)
    (pg_attribute db).

(** The join rows of one constraint in [get_constraint_details]: every
    entry of the one array with every entry of the other. *)
Definition constraint_details_join (db : database) (c : pg_constraint_row)
  : list con_row :=
  match namespace_of db (connamespace c), class_of db (conrelid c) with
  | Some n, Some t =>
      flat_map (fun u =>
        map (fun u2 =>
               {| j_c := c; j_n := n; j_t := t;
                  j_ref_table := class_of db (confrelid c); j_nr := None;
                  j_u := u; j_col := attribute_of db (rel_oid t) u;
                  j_u2 := u2;
                  j_ref_col := referenced_attribute_of db c u2 |})
          (referenced_key_positions c))
        (left_join (unnest_with_ordinality (conkey c)))
  | _, _ => []
  end.

(** The constraint is on the table and bears the name. *)
Definition constraint_named (db : database) (schema table name : string)
  (c : pg_constraint_row) : bool :=
  constraint_on db schema table c && String.eqb (conname c) name.

(** The row of [get_constraint_details] for one constraint. *)
Definition constraint_details_row (db : database) (c : pg_constraint_row)
  : value :=
  VDict [("constraint_name", VStr (conname c));
         ("constraint_type", VStr (char_str (contype c)));
         ("constraint_type_desc", VStr (constraint_type_desc (contype c)));
         ("description", opt_str (obj_description db (con_oid c)));
         ("definition", opt_str (pg_get_constraintdef db (con_oid c)));
         ("referenced_table",
          referenced_table_value db (table_constraint_key db c));
         ("column_names", column_names_agg (constraint_details_join db c));
         ("referenced_columns",
          if Ascii.eqb (contype c) "f"
          then referenced_columns_agg (constraint_details_join db c)
          else VNone)].

(** The fields of a row. *)
Definition items (row : value) : list (string * value) :=
  match row with
  | VDict d => d
  | _ => []
  end.

(** ** The rows of the foreign-key query *)

(** The rows a foreign key joins to in [foreign_keys_query]: its schema,
    its relation, the referenced relation and that relation's schema. *)
Definition foreign_key_parents (db : database) (c : pg_constraint_row)
  : option (pg_namespace_row * pg_class_row * pg_class_row
            * pg_namespace_row) :=
  match namespace_of db (connamespace c), class_of db (conrelid c),
        class_of db (confrelid c) with
  | Some n, Some t, Some ref =>
      match namespace_of db (relnamespace ref) with
      | Some nr => Some (n, t, ref, nr)
      | None => None
      end
  | _, _, _ => None
  end.

(** The constraint is a foreign key of the table whose referenced relation
    and its schema are in the catalog. *)
Definition foreign_key_listed (db : database) (schema table : string)
  (c : pg_constraint_row) : bool :=
  match foreign_key_parents db c with
  | Some (n, t, _, _) =>
      String.eqb (nspname n) schema && String.eqb (relname t) table
      && is_foreign_key c
  | None => false
  end.

Definition foreign_keys_join (db : database) (c : pg_constraint_row)
  : list con_row :=
  match foreign_key_parents db c with
  | Some (n, t, ref, nr) =>
      flat_map (fun u =>
        map (fun u2 =>
               {| j_c := c; j_n := n; j_t := t; j_ref_table := Some ref;
                  j_nr := Some nr; j_u := u;
                  j_col := attribute_of db (rel_oid t) u; j_u2 := u2;
                  j_ref_col := attribute_of db (confrelid c) u2 |})
          (left_join (unnest_with_ordinality (confkey c))))
        (left_join (unnest_with_ordinality (conkey c)))
  | None => []
  end.

Definition foreign_key_parent_key (db : database) (c : pg_constraint_row)
  : string * option string * option string :=
  (conname c,
   option_map (fun p => nspname (snd p)) (foreign_key_parents db c),
   option_map (fun p => relname (snd (fst p))) (foreign_key_parents db c)).

(** The foreign keys of a table in the order the query returns them. *)
Definition foreign_keys_of_table (db : database) (schema table : string)
  : list pg_constraint_row :=
  order_by (fun a b => String.leb (conname a) (conname b))
    (filter (foreign_key_listed db schema table) (pg_constraint db)).

(** The row of [foreign_keys_query] for one foreign key. *)
Definition foreign_key_row (db : database) (c : pg_constraint_row) : value :=
  foreign_keys_select (foreign_key_parent_key db c, foreign_keys_join db c).

(** * Properties *)

(** ** The error monad and the loops *)

Lemma mapM_ok {A B} (f : A -> result B) (g : A -> B) (l : list A) :
  (forall x, In x l -> f x = Ok (g x)) -> mapM f l = Ok (map g l).
Proof.
  induction l as [| x l IH]; intros H; simpl.
  - reflexivity.
  - rewrite (H x (or_introl eq_refl)). simpl.
    rewrite IH by (intros y Hy; apply H; right; exact Hy).
    reflexivity.
Qed.

Lemma mapM_map_ok {A B C} (f : B -> result C) (g : A -> B) (h : A -> C)
  (l : list A) :
  (forall x, In x l -> f (g x) = Ok (h x)) ->
  mapM f (map g l) = Ok (map h l).
Proof.
  induction l as [| x l IH]; intros H; simpl.
  - reflexivity.
  - rewrite (H x (or_introl eq_refl)). simpl.
    rewrite IH by (intros y Hy; apply H; right; exact Hy).
    reflexivity.
Qed.

Lemma mapM_length {A B} (f : A -> result B) (l : list A) (ys : list B) :
  mapM f l = Ok ys -> List.length ys = List.length l.
Proof.
  revert ys. induction l as [| x l IH]; intros ys; simpl.
  - intros H. injection H as <-. reflexivity.
  - destruct (f x) as [y |]; simpl; [| discriminate].
    destruct (mapM f l) as [ys' |]; simpl; [| discriminate].
    intros H. injection H as <-. simpl. f_equal. apply IH. reflexivity.
Qed.

Lemma dict_get_set (d : list (string * value)) (k : string) (v w : value) :
  dict_get d k = Some w -> dict_get (dict_set d k v) k = Some v.
Proof.
  induction d as [| [k' v'] d IH]; simpl; [discriminate |].
  destruct (String.eqb k' k) eqn:E; simpl; rewrite E; auto.
Qed.

Lemma dict_set_set (d : list (string * value)) (k : string) (v w : value) :
  dict_set (dict_set d k v) k w = dict_set d k w.
Proof.
  induction d as [| [k' v'] d IH]; simpl.
  - rewrite String.eqb_refl. reflexivity.
  - destruct (String.eqb k' k) eqn:E; simpl; rewrite E; congruence.
Qed.

Lemma append_item_ok (d : list (string * value)) (k : string)
  (l : list value) (x : value) :
  dict_get d k = Some (VList l) ->
  append_item (VDict d) k x = Ok (VDict (dict_set d k (VList (l ++ [x])))).
Proof.
  intros H. unfold append_item, getitem. rewrite H. reflexivity.
Qed.

(** A loop whose body appends one entry per element to the list under [k]
    leaves that list extended by the entries, in order. *)
Lemma for_loop_append {A} (xs : list A) (body : value -> A -> result value)
  (k : string) (entry : A -> value) :
  (forall x d, In x xs -> body d x = append_item d k (entry x)) ->
  forall (d : list (string * value)) (l : list value),
    dict_get d k = Some (VList l) ->
    for_loop xs body (VDict d)
    = Ok (VDict (dict_set d k (VList (l ++ map entry xs)))).
Proof.
  induction xs as [| x xs IH]; intros Hbody d l Hget; simpl.
  - rewrite app_nil_r. f_equal. f_equal. clear - Hget.
    induction d as [| [k' v'] d IH]; simpl in *; [discriminate |].
    destruct (String.eqb k' k) eqn:E.
    + congruence.
    + f_equal. apply IH. exact Hget.
  - rewrite (Hbody x (VDict d) (or_introl eq_refl)).
    rewrite (append_item_ok _ _ _ (entry x) Hget). simpl.
    rewrite (IH (fun y d' Hy => Hbody y d' (or_intror Hy)) _
               (l ++ [entry x]) (dict_get_set _ _ _ _ Hget)).
    rewrite dict_set_set, <- app_assoc. reflexivity.
Qed.

(** ** Sorting and grouping *)

Section SortingFacts.
Variable A : Type.
Variable leb : A -> A -> bool.

Lemma insert_sorted_perm (x : A) (l : list A) :
  Permutation (insert_sorted leb x l) (x :: l).
Proof.
  induction l as [| y l IH]; simpl.
  - apply Permutation_refl.
  - destruct (leb x y).
    + apply Permutation_refl.
    + eapply perm_trans; [apply perm_skip, IH | apply perm_swap].
Qed.

Lemma order_by_perm (l : list A) : Permutation (order_by leb l) l.
Proof.
  induction l as [| x l IH]; simpl.
  - constructor.
  - eapply perm_trans; [apply insert_sorted_perm | apply perm_skip, IH].
Qed.

Lemma order_by_length (l : list A) : List.length (order_by leb l) = List.length l.
Proof. apply Permutation_length, order_by_perm. Qed.

Lemma order_by_In (x : A) (l : list A) : In x (order_by leb l) <-> In x l.
Proof.
  split; apply Permutation_in;
    [apply order_by_perm | apply Permutation_sym, order_by_perm].
Qed.

Hypothesis leb_total : forall a b, leb a b = true \/ leb b a = true.

Lemma insert_sorted_sorted (x : A) (l : list A) :
  Sorted (fun a b => leb a b = true) l ->
  Sorted (fun a b => leb a b = true) (insert_sorted leb x l).
Proof.
  induction l as [| y l IH]; intros Hs; simpl.
  - repeat constructor.
  - destruct (leb x y) eqn:E.
    + constructor; [exact Hs | constructor; exact E].
    + apply Sorted_inv in Hs. destruct Hs as [Hs Hhd].
      constructor; [apply IH, Hs |].
      destruct l as [| z l]; simpl.
      * constructor. destruct (leb_total x y); congruence.
      * destruct (leb x z).
        -- constructor. destruct (leb_total x y); congruence.
        -- constructor. apply HdRel_inv in Hhd. exact Hhd.
Qed.

Lemma order_by_sorted (l : list A) :
  Sorted (fun a b => leb a b = true) (order_by leb l).
Proof.
  induction l as [| x l IH]; simpl.
  - constructor.
  - apply insert_sorted_sorted, IH.
Qed.
End SortingFacts.

(** A list already in order is left as it is. *)
Lemma order_by_id {A} (leb : A -> A -> bool) (l : list A) :
  Sorted (fun a b => leb a b = true) l -> order_by leb l = l.
Proof.
  induction l as [| x l IH]; intros Hs; simpl.
  - reflexivity.
  - apply Sorted_inv in Hs. destruct Hs as [Hs Hhd].
    rewrite (IH Hs). destruct l as [| y l]; simpl.
    + reflexivity.
    + apply HdRel_inv in Hhd. rewrite Hhd. reflexivity.
Qed.

Lemma order_by_map {A B} (f : A -> B) (leb : B -> B -> bool) (l : list A) :
  order_by leb (map f l) = map f (order_by (fun a b => leb (f a) (f b)) l).
Proof.
  induction l as [| x l IH]; simpl.
  - reflexivity.
  - rewrite IH. generalize (order_by (fun a b => leb (f a) (f b)) l).
    intros s. induction s as [| y s IHs]; simpl.
    + reflexivity.
    + destruct (leb (f x) (f y)); simpl; congruence.
Qed.

Lemma filter_nil {A} (p : A -> bool) (l : list A) :
  (forall x, In x l -> p x = false) -> filter p l = [].
Proof.
  induction l as [| x l IH]; intros H; simpl.
  - reflexivity.
  - rewrite (H x (or_introl eq_refl)). apply IH.
    intros y Hy. apply H. right. exact Hy.
Qed.

Lemma filter_flat_map {A B} (p : B -> bool) (f : A -> list B) (l : list A) :
  filter p (flat_map f l) = flat_map (fun x => filter p (f x)) l.
Proof.
  induction l as [| x l IH]; simpl.
  - reflexivity.
  - rewrite filter_app, IH. reflexivity.
Qed.

(** Where the WHERE clause keeps all rows of some parents and none of the
    others, it is a filter on the parents. *)
Lemma flat_map_filter_parent {A B} (q : A -> bool) (f g : A -> list B)
  (l : list A) :
  (forall x, In x l -> f x = if q x then g x else []) ->
  flat_map f l = flat_map g (filter q l).
Proof.
  induction l as [| x l IH]; intros H; simpl.
  - reflexivity.
  - rewrite (H x (or_introl eq_refl)).
    rewrite IH by (intros y Hy; apply H; right; exact Hy).
    destruct (q x); reflexivity.
Qed.

(** A lookup on a unique key finds at most one row. *)
Lemma filter_unique {A K} (key : A -> K) (p : A -> bool) (l : list A) :
  NoDup (map key l) ->
  (forall x y, p x = true -> p y = true -> key x = key y) ->
  filter p l = option_list (find p l).
Proof.
  induction l as [| x l IH]; intros Hnd Hp; simpl.
  - reflexivity.
  - inversion Hnd as [| ? ? Hnotin Hnd']; subst.
    destruct (p x) eqn:E.
    + simpl. f_equal. apply filter_nil. intros y Hy.
      destruct (p y) eqn:Ey; [| reflexivity].
      exfalso. apply Hnotin. rewrite (Hp x y E Ey). apply in_map, Hy.
    + apply IH; assumption.
Qed.

Lemma left_join_option_list {A} (o : option A) :
  left_join (option_list o) = [o].
Proof. destruct o; reflexivity. Qed.

Section GroupingFacts.
Variables K R C : Type.
Variable key_eqb : K -> K -> bool.
Variable key : R -> K.
Variable parent_key : C -> K.
Variable rows_of : C -> list R.

Hypothesis key_eqb_refl : forall k, key_eqb k k = true.

Lemma add_to_group_new (k : K) (r : R) (gs : list (K * list R)) :
  Forall (fun g => key_eqb (fst g) k = false) gs ->
  add_to_group key_eqb k r gs = gs ++ [(k, [r])].
Proof.
  induction gs as [| [k' rs] gs IH]; intros H; simpl.
  - reflexivity.
  - inversion H as [| ? ? Hk Hgs]; subst. simpl in Hk. rewrite Hk.
    f_equal. apply IH, Hgs.
Qed.

Lemma add_to_group_last (k : K) (r : R) (gs : list (K * list R))
  (rs : list R) :
  Forall (fun g => key_eqb (fst g) k = false) gs ->
  add_to_group key_eqb k r (gs ++ [(k, rs)]) = gs ++ [(k, rs ++ [r])].
Proof.
  induction gs as [| [k' rs'] gs IH]; intros H; simpl.
  - rewrite key_eqb_refl. reflexivity.
  - inversion H as [| ? ? Hk Hgs]; subst. simpl in Hk. rewrite Hk.
    f_equal. apply IH, Hgs.
Qed.

Lemma fold_group_last (k : K) (rs' : list R) :
  Forall (fun r => key r = k) rs' ->
  forall (gs : list (K * list R)) (rs : list R),
    Forall (fun g => key_eqb (fst g) k = false) gs ->
    fold_left (fun gs r => add_to_group key_eqb (key r) r gs) rs'
      (gs ++ [(k, rs)])
    = gs ++ [(k, rs ++ rs')].
Proof.
  induction rs' as [| r rs' IH]; intros Hk gs rs Hgs; simpl.
  - rewrite app_nil_r. reflexivity.
  - inversion Hk as [| ? ? Hr Hk']; subst.
    rewrite add_to_group_last by exact Hgs.
    rewrite IH by assumption. rewrite <- app_assoc. reflexivity.
Qed.

(** The rows of the join come parent by parent.  When the rows of a
    parent share its key and different parents have different keys, the
    groups are the parents' row lists. *)
Lemma group_by_parents (cs : list C) :
  (forall c, In c cs ->
     rows_of c <> [] /\ Forall (fun r => key r = parent_key c) (rows_of c)) ->
  ForallOrdPairs (fun c c' => key_eqb (parent_key c) (parent_key c') = false)
    cs ->
  group_by key_eqb key (flat_map rows_of cs)
  = map (fun c => (parent_key c, rows_of c)) cs.
Proof.
  unfold group_by. intros Hrows Hdist.
  enough (forall done,
            Forall (fun c => Forall (fun g => key_eqb (fst g) (parent_key c)
                                              = false) done) cs ->
            fold_left (fun gs r => add_to_group key_eqb (key r) r gs)
              (flat_map rows_of cs) done
            = done ++ map (fun c => (parent_key c, rows_of c)) cs) as H.
  { apply (H []). apply Forall_forall. intros; constructor. }
  induction cs as [| c cs IH]; intros done Hdone; simpl.
  - rewrite app_nil_r. reflexivity.
  - inversion Hdone as [| ? ? Hc Hcs]; subst.
    inversion Hdist as [| ? ? Hc_cs Hdist']; subst.
    destruct (Hrows c (or_introl eq_refl)) as [Hne Hkeys].
    rewrite fold_left_app.
    destruct (rows_of c) as [| r rs] eqn:Erows; [congruence |].
    inversion Hkeys as [| ? ? Hr Hrs]; subst. simpl.
    rewrite Hr, add_to_group_new by exact Hc.
    rewrite (fold_group_last _ _ Hrs done [r] Hc). simpl.
    rewrite IH.
    + rewrite <- app_assoc. reflexivity.
    + intros c' Hc'. apply Hrows. right. exact Hc'.
    + exact Hdist'.
    + rewrite Forall_forall in *. intros c' Hc'.
      apply Forall_app. split; [apply Hcs, Hc' |].
      constructor; [| constructor]. simpl. apply Hc_cs, Hc'.
Qed.
End GroupingFacts.

(** ** Columns of a table (C7) *)

Lemma columns_rows_declared (db : database) (schema table : string)
  (c : columns_row) :
  In c (columns_rows db schema table) ->
  c_table_schema c = schema /\ c_table_name c = table.
Proof.
  intros H. apply order_by_In in H. apply filter_In in H.
  destruct H as [_ H]. apply andb_true_iff in H.
  destruct H as [H1 H2]. apply String.eqb_eq in H1, H2. auto.
Qed.

Lemma columns_select_ok (db : database) (schema table : string) (oid : Z)
  (c : columns_row) :
  regclass db (format_qualified schema table) = Some oid ->
  In c (columns_rows db schema table) ->
  columns_select db c = Ok (column_facet_row db oid c).
Proof.
  intros Hres Hin. destruct (columns_rows_declared _ _ _ _ Hin) as [Hs Ht].
  unfold columns_select, regclass_oid. rewrite Hs, Ht, Hres. reflexivity.
Qed.

Lemma ordinal_leb_total (a b : columns_row) :
  Z.leb (ordinal_position a) (ordinal_position b) = true
  \/ Z.leb (ordinal_position b) (ordinal_position a) = true.
Proof. rewrite !Z.leb_le. lia. Qed.

Lemma columns_rows_sorted (db : database) (schema table : string) :
  StronglySorted (fun a b => ordinal_position a <= ordinal_position b)
    (columns_rows db schema table).
Proof.
  apply Sorted_StronglySorted.
  - intros a b c Hab Hbc. lia.
  - unfold columns_rows.
    generalize (order_by_sorted _ _ ordinal_leb_total
                  (filter (fun c => String.eqb (c_table_schema c) schema
                                    && String.eqb (c_table_name c) table)
                     (columns db))).
    generalize (order_by
                  (fun a b => Z.leb (ordinal_position a) (ordinal_position b))
                  (filter (fun c => String.eqb (c_table_schema c) schema
                                    && String.eqb (c_table_name c) table)
                     (columns db))).
    intros l Hs. induction Hs as [| a l Hs IH Hhd]; constructor.
    + exact IH.
    + destruct Hhd; constructor. apply Z.leb_le. assumption.
Qed.

(** Where the cast resolves the qualified name of the table, the columns
    facet (and the columns query of the database document, which is the
    same statement) returns one row per declared column of the table, in
    ascending ordinal position. *)
Lemma get_table_columns_resolved (db : database) (schema table : string)
  (oid : Z) :
  regclass db (format_qualified schema table) = Some oid ->
  exists (rows : list value) (cs : list columns_row),
    get_table_columns db schema table = Ok rows
    /\ columns_query db schema table = Ok rows
    /\ rows = map (column_facet_row db oid) cs
    /\ Permutation cs (declared_columns db schema table)
    /\ StronglySorted
         (fun a b => ordinal_position a <= ordinal_position b) cs
    /\ List.length rows = List.length (declared_columns db schema table).
Proof.
  intros Hres.
  exists (map (column_facet_row db oid) (columns_rows db schema table)),
    (columns_rows db schema table).
  assert (Hq : mapM (columns_select db) (columns_rows db schema table)
               = Ok (map (column_facet_row db oid)
                       (columns_rows db schema table))).
  { apply mapM_ok. intros c Hc. eapply columns_select_ok; eauto. }
  repeat split.
  - exact Hq.
  - exact Hq.
  - apply order_by_perm.
  - apply columns_rows_sorted.
  - rewrite length_map. apply order_by_length.
Qed.

(** C7: the table [we], double quote, [ird] of schema [public] exists
    and has one declared column, and the cast resolves its name when the
    name is quoted as [quote_ident] quotes it.  The statement of the
    columns facet puts the name between double quotes as it is, the cast
    rejects that text, and the facet raises instead of returning the
    column; so does the columns query of the database document, and the
    document is not built.  A table of the same schema whose name holds
    no double quote gets its columns. *)
Theorem get_table_columns_rejects_quoted_name :
  In (Sample.base_table "public" Sample.weird)
    (tables Sample.db_with_quoted_name)
  /\ List.length
       (declared_columns Sample.db_with_quoted_name "public" Sample.weird)
     = 1%nat
  /\ regclass Sample.db_with_quoted_name
       (Sample.quote_always "public" ++ "."
        ++ Sample.quote_always Sample.weird)%string
     = Some 16440
  /\ regclass Sample.db_with_quoted_name
       (format_qualified "public" Sample.weird)
     = None
  /\ get_table_columns Sample.db_with_quoted_name "public" Sample.weird
     = Raise QueryExecutionError
  /\ columns_query Sample.db_with_quoted_name "public" Sample.weird
     = Raise QueryExecutionError
  /\ db_info Sample.db_with_quoted_name = Raise QueryExecutionError
  /\ column_of "column_name"
       (get_table_columns Sample.db_with_quoted_name "public" "users")
     = Ok [VStr "id"; VStr "email"].
Proof. repeat split; try reflexivity. left. reflexivity. Qed.

(** ** Sample rows (C8) *)

Section SampleData.
Variable conn : connection.
Variable quote_ident : string -> string.

(** The connection's server evaluates [SELECT quote_ident($1)] with the
    engine's identifier-quoting function. *)
Hypothesis fetchval_quote_ident :
  forall name,
    fetchval conn "SELECT quote_ident($1)" [VStr name]
    = Ok (VStr (quote_ident name)).

(** C8: [get_sample_data] sends three statements.  The first two are
    the constant text [SELECT quote_ident($1)] with the schema and the
    table name as bound arguments; the third is [SELECT * FROM <quoted
    schema>.<quoted table> LIMIT $1] built from the two answers alone,
    with the limit as its bound argument; its rows are the result. *)
Theorem get_sample_data_statements (schema table : string) (limit : value) :
  run_conn conn (get_sample_data schema table limit)
  = ([("SELECT quote_ident($1)", [VStr schema]);
      ("SELECT quote_ident($1)", [VStr table]);
      (sample_query quote_ident schema table, [limit])],
     fetch conn (sample_query quote_ident schema table) [limit]).
Proof.
  unfold get_sample_data. cbn [run_conn].
  rewrite fetchval_quote_ident. cbn [run_conn].
  rewrite fetchval_quote_ident. cbn [run_conn py_str].
  fold (sample_query quote_ident schema table).
  destruct (fetch conn (sample_query quote_ident schema table) [limit]);
    reflexivity.
Qed.
End SampleData.

(** ** Detail requests that match nothing (C9) *)

Lemma get_constraint_details_empty (db : database)
  (schema table constraint : string) :
  constraint_exists db schema table constraint = false ->
  get_constraint_details db schema table constraint = Ok [].
Proof.
  intros Hnone. unfold get_constraint_details.
  rewrite filter_nil; [reflexivity |].
  intros r Hr. destruct (_ && _) eqn:E; [| reflexivity].
  exfalso. unfold constraint_details_from in Hr.
  apply in_flat_map in Hr as [c [Hc Hr]].
  apply in_flat_map in Hr as [n [Hn Hr]].
  apply in_flat_map in Hr as [t [Ht Hr]].
  apply in_flat_map in Hr as [ref_table [_ Hr]].
  apply in_flat_map in Hr as [u [_ Hr]].
  apply in_flat_map in Hr as [col [_ Hr]].
  apply in_flat_map in Hr as [u2 [_ Hr]].
  apply in_map_iff in Hr as [ref_col [<- _]].
  apply filter_In in Hn as [Hn Hn'], Ht as [Ht Ht'].
  unfold on_table in E. simpl in E.
  apply andb_true_iff in E as [E Ec]. apply andb_true_iff in E as [En Et].
  assert (constraint_exists db schema table constraint = true);
    [| congruence].
  unfold constraint_exists.
  apply existsb_exists. exists c. split; [exact Hc |].
  rewrite Ec. simpl. apply andb_true_iff. split.
  - apply existsb_exists. exists n. split; [exact Hn |].
    rewrite Hn', En. reflexivity.
  - apply existsb_exists. exists t. split; [exact Ht |].
    rewrite Ht', Et. reflexivity.
Qed.

(** C9: a detail request for a constraint that does not exist under the
    given schema and table returns [Ok] with no rows.  The detail request
    for an index that does not exist raises instead: the engine rejects
    the statement of [get_index_details], whose call of [pg_get_indexdef]
    passes the [bigint] ordinality column where the function takes an
    [integer], before any row is looked for. *)
Theorem detail_of_missing_index_raises (db : database)
  (schema table name : string) :
  index_exists db schema table name = false ->
  constraint_exists db schema table name = false ->
  get_index_details db schema table name = Raise QueryExecutionError
  /\ get_index_details db schema table name <> Ok []
  /\ get_constraint_details db schema table name = Ok [].
Proof.
  intros _ Hc.
  split; [reflexivity |].
  split; [discriminate |].
  apply get_constraint_details_empty, Hc.
Qed.

Lemma get_sample_data_statements_witness :
  fst (run_conn Sample.conn (get_sample_data "public" "users" (VInt 10)))
  = [("SELECT quote_ident($1)", [VStr "public"]);
     ("SELECT quote_ident($1)", [VStr "users"]);
     (sample_query Sample.quote_always "public" "users", [VInt 10])].
Proof.
  rewrite (get_sample_data_statements Sample.conn Sample.quote_always
             (fun name => eq_refl) "public" "users" (VInt 10)).
  reflexivity.
Defined.

Lemma detail_of_missing_index_raises_witness :
  get_index_details Sample.db "public" "users" "users_name_idx"
  = Raise QueryExecutionError
  /\ get_constraint_details Sample.db "public" "users" "users_name_idx"
     = Ok [].
Proof.
  destruct (detail_of_missing_index_raises Sample.db "public" "users"
              "users_name_idx" eq_refl eq_refl) as (Hi & _ & Hc).
  split; [exact Hi | exact Hc].
Defined.

(** ** Foreign keys over several columns (C1) *)

(** C1: the foreign key [shipments_item_fkey] has two key columns, yet the
    foreign-key query of the database document and the constraint-detail
    query both return four local and four referenced column names for it:
    every name twice. *)
Theorem composite_foreign_key_columns_repeated :
  map conkey
    (filter (fun c => String.eqb (conname c) "shipments_item_fkey")
       (pg_constraint Sample.db))
  = [Some [2; 3]]
  /\ column_of "column_names"
       (foreign_keys_query Sample.db "public" "shipments")
     = Ok [VList [VStr "order_id"; VStr "order_id";
                  VStr "line_no"; VStr "line_no"]]
  /\ column_of "referenced_columns"
       (foreign_keys_query Sample.db "public" "shipments")
     = Ok [VList [VStr "order_no"; VStr "order_no";
                  VStr "line"; VStr "line"]]
  /\ column_of "column_names"
       (get_constraint_details Sample.db "public" "shipments"
          "shipments_item_fkey")
     = Ok [VList [VStr "order_id"; VStr "order_id";
                  VStr "line_no"; VStr "line_no"]]
  /\ column_of "referenced_columns"
       (get_constraint_details Sample.db "public" "shipments"
          "shipments_item_fkey")
     = Ok [VList [VStr "order_no"; VStr "order_no";
                  VStr "line"; VStr "line"]]
  /\ column_of "column_names"
       (get_table_constraints Sample.db "public" "shipments")
     = Ok [VList [VStr "order_id"; VStr "line_no"]; VList [VStr "during"]].
Proof. repeat split; vm_compute; reflexivity. Qed.

(** ** Constraint type labels (C3) *)

Lemma constraint_type_desc_agree (contype : ascii) :
  contype <> "t"%char -> contype <> "x"%char ->
  constraint_type_desc_db_info contype = constraint_type_desc contype.
Proof.
  intros Ht Hx. unfold constraint_type_desc_db_info, constraint_type_desc.
  apply Ascii.eqb_neq in Ht, Hx. rewrite Ht, Hx. reflexivity.
Qed.

(** C3: for the exclusion constraint of [shipments] the constraint query
    of the database document answers OTHER where the constraints facet
    answers EXCLUSION, and the two CASE expressions differ the same way on
    the code of a constraint trigger. *)
Theorem constraints_query_labels_exclusion_other :
  column_of "constraint_type" (constraints_query Sample.db "public" "shipments")
  = Ok [VStr "f"; VStr "x"]
  /\ column_of "constraint_type_desc"
       (constraints_query Sample.db "public" "shipments")
     = Ok [VStr "FOREIGN KEY"; VStr "OTHER"]
  /\ column_of "constraint_type_desc"
       (get_table_constraints Sample.db "public" "shipments")
     = Ok [VStr "FOREIGN KEY"; VStr "EXCLUSION"]
  /\ constraint_type_desc_db_info "t" = "OTHER"
  /\ constraint_type_desc "t" = "TRIGGER".
Proof. repeat split; vm_compute; reflexivity. Qed.

(** ** Which schemas are listed (C5) *)

Lemma like_percent_any (s : list ascii) :
  (fix any (s : list ascii) : bool :=
     like_chars [] s || match s with [] => false | _ :: s' => any s' end) s
  = true.
Proof.
  induction s as [| c s IH].
  - reflexivity.
  - simpl in *. exact IH.
Qed.

Lemma like_chars_pg_pattern (s : list ascii) :
  like_chars pg_pattern s
  = match s with
    | a :: b :: _ :: _ => Ascii.eqb "p" a && Ascii.eqb "g" b
    | _ => false
    end.
Proof.
  destruct s as [| a [| b [| c rest]]].
  - reflexivity.
  - change (like_chars pg_pattern [a]) with (Ascii.eqb "p" a && false).
    apply andb_false_r.
  - change (like_chars pg_pattern [a; b])
      with (Ascii.eqb "p" a && (Ascii.eqb "g" b && false)).
    rewrite andb_false_r. apply andb_false_r.
  - change (like_chars pg_pattern (a :: b :: c :: rest))
      with (Ascii.eqb "p" a
            && (Ascii.eqb "g" b
                && (fix any (s : list ascii) : bool :=
                      like_chars [] s
                      || match s with [] => false | _ :: s' => any s' end)
                     rest)).
    rewrite like_percent_any, andb_true_r. reflexivity.
Qed.

(** The pattern [pg_%] matches every name of three or more characters
    that begins with [pg]: the underscore stands for any character. *)
Lemma like_pg_pattern (name : string) :
  like name "pg_%"
  = match name with
    | String a (String b (String _ _)) => Ascii.eqb "p" a && Ascii.eqb "g" b
    | _ => false
    end.
Proof.
  unfold like. change (list_ascii_of_string "pg_%") with pg_pattern.
  rewrite like_chars_pg_pattern.
  destruct name as [| a [| b [| c rest]]]; reflexivity.
Qed.

(** C5: the schema [pgboss] is in the database, is none of the three
    named schemas and does not begin with [pg_], yet neither the schemas
    listing nor the schema query of the database document returns it. *)
Theorem list_schemas_omits_pgboss :
  In {| schema_name := "pgboss" |} (schemata Sample.db)
  /\ In {| nsp_oid := 16500; nspname := "pgboss" |} (pg_namespace Sample.db)
  /\ existsb (String.eqb "pgboss")
       ["pg_catalog"; "information_schema"; "pg_toast"] = false
  /\ String.prefix "pg_" "pgboss" = false
  /\ column_of "schema_name" (list_schemas Sample.db) = Ok [VStr "public"]
  /\ column_of "schema_name" (schemas_query Sample.db) = Ok [VStr "public"].
Proof.
  repeat split; try (vm_compute; reflexivity); simpl; tauto.
Qed.

(** ** Constraints without key columns (C4, C6) *)

(** A constraint without key columns is returned with a one-element
    [column_names] holding NULL, not with an empty list. *)
Lemma check_without_columns_has_null_name :
  map (fun c => (conname c, conkey c))
    (filter (fun c => Z.eqb (conrelid c) 16385) (pg_constraint Sample.db))
  = [("users_pkey", Some [1]); ("users_email_key", Some [2]);
     ("users_sane", None)]
  /\ column_of "constraint_name"
       (get_table_constraints Sample.db "public" "users")
     = Ok [VStr "users_sane"; VStr "users_pkey"; VStr "users_email_key"]
  /\ column_of "column_names"
       (get_table_constraints Sample.db "public" "users")
     = Ok [VList [VNone]; VList [VStr "id"]; VList [VStr "email"]]
  /\ VList [VNone] <> VList [].
Proof.
  repeat split; try (vm_compute; reflexivity). discriminate.
Qed.

(** The key-column array of [users_sane] has no entry, its [column_names]
    has one, in the constraints facet and in the constraint query of the
    database document. *)
Lemma check_without_columns_length :
  map conkey
    (filter (fun c => String.eqb (conname c) "users_sane")
       (pg_constraint Sample.db))
  = [None]
  /\ List.length (unnest_with_ordinality None) = 0%nat
  /\ column_of "column_names"
       (get_table_constraints Sample.db "public" "users")
     = Ok [VList [VNone]; VList [VStr "id"]; VList [VStr "email"]]
  /\ column_of "column_names"
       (constraints_query Sample.db "public" "users")
     = Ok [VList [VNone]; VList [VStr "id"]; VList [VStr "email"]]
  /\ List.length [VNone] <> 0%nat.
Proof.
  repeat split; try (vm_compute; reflexivity). discriminate.
Qed.

(** ** The document against the facets (C2) *)

(** Dropping every index changes the indexes facet and leaves the
    document as it was: the document holds no index data.  Nor is the
    [columns] list of a table entry the list the columns facet returns. *)
Lemma document_without_index_data :
  db_info Sample.db = db_info Sample.db_without_indexes
  /\ get_table_indexes Sample.db "public" "users"
     <> get_table_indexes Sample.db_without_indexes "public" "users"
  /\ (forall doc schemas schema_tables entry,
        db_info Sample.db = Ok doc ->
        getitem doc "schemas" = Ok (VList schemas) ->
        nth_error schemas 0 = Some (VDict schema_tables) ->
        dict_get schema_tables "tables" = Some (VList entry) ->
        forall table_info,
          nth_error entry 2 = Some table_info ->
          getitem table_info "name" = Ok (VStr "users")
          /\ keys table_info
             = ["name"; "description"; "row_count"; "columns";
                "foreign_keys"]
          /\ (column_of "columns" (Ok [table_info])
              <> bind (get_table_columns Sample.db "public" "users")
                   (fun rows => Ok [VList rows]))).
Proof.
  split; [vm_compute; reflexivity |].
  split; [vm_compute; discriminate |].
  intros doc schemas schema_tables entry Hdoc.
  vm_compute in Hdoc. injection Hdoc as <-.
  intros Hs. vm_compute in Hs. injection Hs as <-.
  intros Hn. vm_compute in Hn. injection Hn as <-.
  intros Ht. vm_compute in Ht. injection Ht as <-.
  intros table_info Hti. vm_compute in Hti. injection Hti as <-.
  repeat split; try (vm_compute; reflexivity).
  vm_compute. discriminate.
Qed.

(** ** Catalogs with unique keys *)

Lemma nodupb_NoDup {A} (eqb : A -> A -> bool) (l : list A) :
  (forall x y, eqb x y = true -> x = y) ->
  (forall x, eqb x x = true) ->
  nodupb eqb l = true -> NoDup l.
Proof.
  intros Heq Hrefl. induction l as [| x l IH]; simpl; intros H.
  - constructor.
  - apply andb_true_iff in H as [Hx Hl]. constructor.
    + intros Hin. apply negb_true_iff in Hx.
      assert (existsb (eqb x) l = true); [| congruence].
      apply existsb_exists. exists x. split; [exact Hin | apply Hrefl].
    + apply IH, Hl.
Qed.

Lemma nodupb_Z (l : list Z) : nodupb Z.eqb l = true -> NoDup l.
Proof.
  apply nodupb_NoDup.
  - intros x y. apply Z.eqb_eq.
  - apply Z.eqb_refl.
Qed.

Lemma nodupb_pair (l : list (Z * Z)) : nodupb pair_eqb l = true -> NoDup l.
Proof.
  apply nodupb_NoDup.
  - intros [a b] [c d] H. unfold pair_eqb in H. simpl in H.
    apply andb_true_iff in H as [H1 H2].
    apply Z.eqb_eq in H1, H2. congruence.
  - intros [a b]. unfold pair_eqb. simpl. rewrite !Z.eqb_refl. reflexivity.
Qed.

Lemma nodupb_string (l : list string) :
  nodupb String.eqb l = true -> NoDup l.
Proof.
  apply nodupb_NoDup.
  - intros x y. apply String.eqb_eq.
  - apply String.eqb_refl.
Qed.

Section UniqueKeys.
Variable db : database.
Hypothesis keys_unique : catalog_keys_unique db = true.

Lemma namespaces_unique : NoDup (map nsp_oid (pg_namespace db)).
Proof.
  unfold catalog_keys_unique in keys_unique.
  repeat (apply andb_true_iff in keys_unique as [keys_unique ?]).
  apply nodupb_Z. assumption.
Qed.

Lemma classes_unique : NoDup (map rel_oid (pg_class db)).
Proof.
  unfold catalog_keys_unique in keys_unique.
  repeat (apply andb_true_iff in keys_unique as [keys_unique ?]).
  apply nodupb_Z. assumption.
Qed.

Lemma attributes_unique : NoDup (map attribute_key (pg_attribute db)).
Proof.
  unfold catalog_keys_unique in keys_unique.
  repeat (apply andb_true_iff in keys_unique as [keys_unique ?]).
  apply nodupb_pair. assumption.
Qed.

Lemma constraints_unique : NoDup (map con_oid (pg_constraint db)).
Proof.
  unfold catalog_keys_unique in keys_unique.
  repeat (apply andb_true_iff in keys_unique as [keys_unique ?]).
  apply nodupb_Z. assumption.
Qed.

Lemma indexes_unique : NoDup (map indexrelid (pg_index db)).
Proof.
  unfold catalog_keys_unique in keys_unique.
  repeat (apply andb_true_iff in keys_unique as [keys_unique ?]).
  apply nodupb_Z. assumption.
Qed.

Lemma ams_unique : NoDup (map am_oid (pg_am db)).
Proof.
  unfold catalog_keys_unique in keys_unique.
  repeat (apply andb_true_iff in keys_unique as [keys_unique ?]).
  apply nodupb_Z. assumption.
Qed.

Lemma namespace_lookup (oid : Z) :
  filter (fun n => Z.eqb (nsp_oid n) oid) (pg_namespace db)
  = option_list (namespace_of db oid).
Proof.
  apply (filter_unique nsp_oid); [apply namespaces_unique |].
  intros x y Hx Hy. apply Z.eqb_eq in Hx, Hy. congruence.
Qed.

Lemma class_lookup (oid : Z) :
  filter (fun r => Z.eqb (rel_oid r) oid) (pg_class db)
  = option_list (class_of db oid).
Proof.
  apply (filter_unique rel_oid); [apply classes_unique |].
  intros x y Hx Hy. apply Z.eqb_eq in Hx, Hy. congruence.
Qed.

Lemma attribute_lookup (relid : Z) (u : option (Z * Z)) :
  filter (attribute_matches relid u) (pg_attribute db)
  = option_list (attribute_of db relid u).
Proof.
  apply (filter_unique attribute_key); [apply attributes_unique |].
  intros x y Hx Hy. unfold attribute_matches in *.
  destruct u as [[num pos] |]; [| discriminate].
  apply andb_true_iff in Hx as [Hx1 Hx2], Hy as [Hy1 Hy2].
  apply Z.eqb_eq in Hx1, Hx2, Hy1, Hy2.
  unfold attribute_key. congruence.
Qed.

(** The two joins that follow an unnest give one row per array element,
    or the single NULL-extended row of the LEFT JOIN. *)
Lemma unnest_join {R} (relid : Z)
  (mk : option (Z * Z) -> option pg_attribute_row -> R)
  (us : list (option (Z * Z))) :
  flat_map (fun u =>
    map (mk u)
      (left_join (filter (attribute_matches relid u) (pg_attribute db))))
    us
  = map (fun u => mk u (attribute_of db relid u)) us.
Proof.
  induction us as [| u us IH]; simpl.
  - reflexivity.
  - rewrite attribute_lookup, left_join_option_list, IH. reflexivity.
Qed.
End UniqueKeys.

Lemma class_of_oid (db : database) (oid : Z) (r : pg_class_row) :
  class_of db oid = Some r -> rel_oid r = oid /\ In r (pg_class db).
Proof.
  intros H. apply find_some in H as [Hin H]. apply Z.eqb_eq in H. auto.
Qed.

Lemma attribute_of_position (db : database) (relid num p q : Z) :
  attribute_of db relid (Some (num, p)) = attribute_of db relid (Some (num, q)).
Proof. reflexivity. Qed.

Lemma with_ordinality_map_fst (l : list Z) (i : Z) :
  map fst (with_ordinality i l) = l.
Proof.
  revert i. induction l as [| x l IH]; intros i; simpl.
  - reflexivity.
  - rewrite IH. reflexivity.
Qed.

(** The rows of an unnest come in position order, so the ORDER BY inside
    ARRAY_AGG leaves them where they are. *)
Lemma unnest_rows_sorted {R} (mk : option (Z * Z) -> R)
  (pos : R -> option Z) (arr : option (list Z)) :
  (forall u, pos (mk u) = attposition u) ->
  Sorted (fun a b => nulls_last_leb (pos a) (pos b) = true)
    (map mk (left_join (unnest_with_ordinality arr))).
Proof.
  intros Hpos.
  assert (Hs : forall l i,
             Sorted (fun a b => nulls_last_leb (pos a) (pos b) = true)
               (map mk (map Some (with_ordinality i l)))).
  { induction l as [| x l IH]; intros i; simpl.
    - constructor.
    - constructor; [apply IH |].
      destruct l as [| y l]; simpl; constructor.
      rewrite !Hpos. simpl. apply Z.leb_le. lia. }
  destruct arr as [[| x l] |]; simpl.
  - repeat constructor.
  - apply (Hs (x :: l) 1).
  - repeat constructor.
Qed.

Lemma array_agg_unnest {R} (mk : option (Z * Z) -> R) (pos : R -> option Z)
  (e : R -> value) (arr : option (list Z)) :
  (forall u, pos (mk u) = attposition u) ->
  array_agg pos e (map mk (left_join (unnest_with_ordinality arr)))
  = VList (map (fun u => e (mk u)) (left_join (unnest_with_ordinality arr))).
Proof.
  intros Hpos. unfold array_agg.
  rewrite order_by_id by (apply unnest_rows_sorted; exact Hpos).
  rewrite map_map. reflexivity.
Qed.

Lemma attribute_of_null (db : database) (relid : Z) :
  attribute_of db relid None = None.
Proof.
  unfold attribute_of. induction (pg_attribute db) as [| a l IH]; simpl.
  - reflexivity.
  - exact IH.
Qed.

(** One name per entry of a key-column array that has entries, in the
    order of the array; a single NULL for an array without entries. *)
Lemma unnest_names (db : database) (relid : Z) (arr : option (list Z)) :
  map (fun u => attname_value (attribute_of db relid u))
    (left_join (unnest_with_ordinality arr))
  = match arr with
    | Some (x :: l) => map (key_column_name db relid) (x :: l)
    | _ => [VNone]
    end.
Proof.
  assert (H : forall l i,
             map (fun u => attname_value (attribute_of db relid u))
               (map Some (with_ordinality i l))
             = map (key_column_name db relid) l).
  { induction l as [| x l IH]; intros i; simpl.
    - reflexivity.
    - rewrite IH. reflexivity. }
  destruct arr as [[| x l] |]; simpl.
  - rewrite attribute_of_null. reflexivity.
  - rewrite H. reflexivity.
  - rewrite attribute_of_null. reflexivity.
Qed.

Lemma filter_const {A} (p : A -> bool) (b : bool) (l : list A) :
  (forall x, In x l -> p x = b) -> filter p l = if b then l else [].
Proof.
  intros H. destruct b.
  - induction l as [| x l IH]; simpl; [reflexivity |].
    rewrite (H x (or_introl eq_refl)). f_equal. apply IH.
    intros y Hy. apply H. right. exact Hy.
  - apply filter_nil. exact H.
Qed.

Lemma distinct_keys_filter {A} (f : A -> Z) (q : A -> bool) (l : list A) :
  NoDup (map f l) ->
  ForallOrdPairs (fun a b => Z.eqb (f a) (f b) = false) (filter q l).
Proof.
  induction l as [| x l IH]; simpl; intros Hnd.
  - constructor.
  - inversion Hnd as [| ? ? Hx Hl]; subst.
    destruct (q x); [| apply IH, Hl].
    constructor; [| apply IH, Hl].
    apply Forall_forall. intros y Hy. apply filter_In in Hy as [Hy _].
    apply Z.eqb_neq. intros E. apply Hx. rewrite E. apply in_map, Hy.
Qed.

Lemma ForallOrdPairs_impl {A} (P Q : A -> A -> Prop) (l : list A) :
  (forall a b, P a b -> Q a b) -> ForallOrdPairs P l -> ForallOrdPairs Q l.
Proof.
  intros H Hl. induction Hl as [| a l Ha Hl IH]; constructor.
  - eapply Forall_impl; [| exact Ha]. intros b. apply H.
  - exact IH.
Qed.

(** ** What the constraints facet returns *)

Lemma left_join_not_nil {A} (l : list A) : left_join l <> [].
Proof. destruct l; discriminate. Qed.

Lemma map_not_nil {A B} (f : A -> B) (l : list A) : l <> [] -> map f l <> [].
Proof. destruct l; [congruence | discriminate]. Qed.

Lemma opt_eqb_refl {A} (eqb : A -> A -> bool) (o : option A) :
  (forall x, eqb x x = true) -> opt_eqb eqb o o = true.
Proof. intros H. destruct o; simpl; auto. Qed.

Lemma con_key_eqb_refl (k : con_key) : con_key_eqb k k = true.
Proof.
  unfold con_key_eqb.
  rewrite String.eqb_refl, Ascii.eqb_refl, Z.eqb_refl.
  rewrite (opt_eqb_refl String.eqb _ String.eqb_refl).
  rewrite (opt_eqb_refl Z.eqb _ Z.eqb_refl). reflexivity.
Qed.

Section ConstraintsFacet.
Variable db : database.
Hypothesis keys_unique : catalog_keys_unique db = true.

Lemma table_constraints_from_unique :
  table_constraints_from db
  = flat_map (table_constraint_join db) (pg_constraint db).
Proof.
  unfold table_constraints_from. apply flat_map_ext. intros c.
  unfold table_constraint_join.
  rewrite (namespace_lookup db keys_unique).
  destruct (namespace_of db (connamespace c)) as [n |]; simpl;
    [| reflexivity].
  rewrite app_nil_r, (class_lookup db keys_unique (conrelid c)).
  destruct (class_of db (conrelid c)) as [t |]; simpl; [| reflexivity].
  rewrite app_nil_r, (class_lookup db keys_unique (confrelid c)),
    left_join_option_list.
  simpl. rewrite app_nil_r.
  apply (unnest_join db keys_unique (rel_oid t)
           (fun u col =>
              {| j_c := c; j_n := n; j_t := t;
                 j_ref_table := class_of db (confrelid c); j_nr := None;
                 j_u := u; j_col := col; j_u2 := None;
                 j_ref_col := None |})).
Qed.

Lemma table_constraint_join_on_table (schema table : string)
  (c : pg_constraint_row) :
  filter (on_table schema table) (table_constraint_join db c)
  = if constraint_on db schema table c then table_constraint_join db c
    else [].
Proof.
  unfold table_constraint_join, constraint_on.
  destruct (namespace_of db (connamespace c)) as [n |];
    [| reflexivity].
  destruct (class_of db (conrelid c)) as [t |];
    [| reflexivity].
  apply filter_const. intros r Hr.
  apply in_map_iff in Hr as [u [<- _]]. reflexivity.
Qed.

Lemma table_constraints_where (schema table : string) :
  filter (on_table schema table) (table_constraints_from db)
  = flat_map (table_constraint_join db)
      (filter (constraint_on db schema table) (pg_constraint db)).
Proof.
  rewrite table_constraints_from_unique, filter_flat_map.
  apply flat_map_filter_parent. intros c _.
  apply table_constraint_join_on_table.
Qed.

Lemma table_constraints_grouped (schema table : string) :
  group_by con_key_eqb table_constraints_key
    (filter (on_table schema table) (table_constraints_from db))
  = map (fun c => (table_constraint_key db c, table_constraint_join db c))
      (filter (constraint_on db schema table) (pg_constraint db)).
Proof.
  rewrite table_constraints_where.
  apply group_by_parents.
  - apply con_key_eqb_refl.
  - intros c Hc. apply filter_In in Hc as [_ Hon].
    unfold constraint_on in Hon. unfold table_constraint_join.
    destruct (namespace_of db (connamespace c)) as [n |]; [| discriminate].
    destruct (class_of db (conrelid c)) as [t |]; [| discriminate].
    split.
    + apply map_not_nil, left_join_not_nil.
    + apply Forall_forall. intros r Hr.
      apply in_map_iff in Hr as [u [<- _]]. reflexivity.
  - apply (ForallOrdPairs_impl
             (fun a b => Z.eqb (con_oid a) (con_oid b) = false)).
    + intros a b H. unfold con_key_eqb. simpl. rewrite H.
      rewrite andb_false_r. reflexivity.
    + apply distinct_keys_filter, (constraints_unique db keys_unique).
Qed.

Lemma referenced_table_expr_ok (k : con_key) :
  referenced_table_expr db k = Ok (referenced_table_value db k).
Proof.
  unfold referenced_table_expr, referenced_table_value.
  destruct (Ascii.eqb (k_contype k) "f"); [| reflexivity].
  rewrite (filter_unique nsp_oid).
  - destruct (find _ (pg_namespace db)) as [n |]; simpl.
    + destruct (k_ref_relname k); reflexivity.
    + reflexivity.
  - apply (namespaces_unique db keys_unique).
  - intros x y Hx Hy. destruct (k_ref_relnamespace k); simpl in *;
      [| discriminate].
    apply Z.eqb_eq in Hx, Hy. congruence.
Qed.

Lemma column_names_of_join (schema table : string) (c : pg_constraint_row) :
  constraint_on db schema table c = true ->
  column_names_agg (table_constraint_join db c)
  = VList (key_column_names db c).
Proof.
  unfold constraint_on, table_constraint_join. intros Hon.
  destruct (namespace_of db (connamespace c)) as [n |]; [| discriminate].
  destruct (class_of db (conrelid c)) as [t |] eqn:Et; [| discriminate].
  apply class_of_oid in Et as [Et _].
  unfold column_names_agg, table_constraint_rows.
  rewrite (array_agg_unnest
             (fun u =>
                {| j_c := c; j_n := n; j_t := t;
                   j_ref_table := class_of db (confrelid c); j_nr := None;
                   j_u := u; j_col := attribute_of db (rel_oid t) u;
                   j_u2 := None; j_ref_col := None |}))
    by reflexivity.
  cbn [j_col]. rewrite unnest_names, Et. reflexivity.
Qed.

(** The constraints facet returns one row per constraint of the table. *)
Lemma get_table_constraints_rows (schema table : string) :
  get_table_constraints db schema table
  = Ok (map (table_constraint_row db)
          (constraints_of_table db schema table)).
Proof.
  unfold get_table_constraints, table_constraints_groups.
  rewrite table_constraints_grouped, order_by_map.
  change (order_by _ (filter (constraint_on db schema table)
                        (pg_constraint db)))
    with (constraints_of_table db schema table).
  apply mapM_map_ok. intros c Hc.
  apply order_by_In, filter_In in Hc as [_ Hon].
  unfold table_constraints_select.
  rewrite referenced_table_expr_ok.
  rewrite (column_names_of_join schema table c Hon). reflexivity.
Qed.
End ConstraintsFacet.

(** ** What the constraint query of the document returns *)

Lemma distinct_keys {A K} (f : A -> K) (l : list A) :
  NoDup (map f l) -> ForallOrdPairs (fun a b => f a <> f b) l.
Proof.
  induction l as [| x l IH]; simpl; intros Hnd.
  - constructor.
  - inversion Hnd as [| ? ? Hx Hl]; subst.
    constructor; [| apply IH, Hl].
    apply Forall_forall. intros y Hy E. apply Hx. rewrite E.
    apply in_map, Hy.
Qed.

Lemma constraints_key_eqb_refl (k : string * ascii) :
  constraints_key_eqb k k = true.
Proof.
  unfold constraints_key_eqb.
  rewrite String.eqb_refl, Ascii.eqb_refl. reflexivity.
Qed.

Section DocumentConstraints.
Variable db : database.
Hypothesis keys_unique : catalog_keys_unique db = true.

Lemma constraints_from_unique :
  constraints_from db = flat_map (constraints_join db) (pg_constraint db).
Proof.
  unfold constraints_from. apply flat_map_ext. intros c.
  unfold constraints_join.
  rewrite (namespace_lookup db keys_unique).
  destruct (namespace_of db (connamespace c)) as [n |]; simpl;
    [| reflexivity].
  rewrite app_nil_r, (class_lookup db keys_unique (conrelid c)).
  destruct (class_of db (conrelid c)) as [t |]; simpl; [| reflexivity].
  rewrite app_nil_r.
  apply (unnest_join db keys_unique (rel_oid t)
           (fun u col =>
              {| j_c := c; j_n := n; j_t := t; j_ref_table := None;
                 j_nr := None; j_u := u; j_col := col; j_u2 := None;
                 j_ref_col := None |})).
Qed.

Lemma constraints_where (schema table : string) :
  filter (on_table schema table) (constraints_from db)
  = flat_map (constraints_join db)
      (filter (constraint_on db schema table) (pg_constraint db)).
Proof.
  rewrite constraints_from_unique, filter_flat_map.
  apply flat_map_filter_parent. intros c _.
  unfold constraints_join, constraint_on.
  destruct (namespace_of db (connamespace c)) as [n |]; [| reflexivity].
  destruct (class_of db (conrelid c)) as [t |]; [| reflexivity].
  apply filter_const. intros r Hr.
  apply in_map_iff in Hr as [u [<- _]]. reflexivity.
Qed.

Lemma constraints_grouped (schema table : string) :
  constraint_names_unique db schema table = true ->
  group_by constraints_key_eqb constraints_key
    (filter (on_table schema table) (constraints_from db))
  = map (fun c => ((conname c, contype c), constraints_join db c))
      (filter (constraint_on db schema table) (pg_constraint db)).
Proof.
  intros Hnames. rewrite constraints_where.
  apply (group_by_parents _ _ _ constraints_key_eqb constraints_key
           (fun c => (conname c, contype c))).
  - apply constraints_key_eqb_refl.
  - intros c Hc. apply filter_In in Hc as [_ Hon].
    unfold constraint_on in Hon. unfold constraints_join.
    destruct (namespace_of db (connamespace c)) as [n |]; [| discriminate].
    destruct (class_of db (conrelid c)) as [t |]; [| discriminate].
    split.
    + apply map_not_nil, left_join_not_nil.
    + apply Forall_forall. intros r Hr.
      apply in_map_iff in Hr as [u [<- _]]. reflexivity.
  - apply (ForallOrdPairs_impl (fun a b => conname a <> conname b)).
    + intros a b H. unfold constraints_key_eqb. simpl.
      apply String.eqb_neq in H. rewrite H. reflexivity.
    + apply distinct_keys, nodupb_string, Hnames.
Qed.

Lemma document_column_names_of_join (schema table : string)
  (c : pg_constraint_row) :
  constraint_on db schema table c = true ->
  column_names_agg (constraints_join db c) = VList (key_column_names db c).
Proof.
  unfold constraint_on, constraints_join. intros Hon.
  destruct (namespace_of db (connamespace c)) as [n |]; [| discriminate].
  destruct (class_of db (conrelid c)) as [t |] eqn:Et; [| discriminate].
  apply class_of_oid in Et as [Et _].
  unfold column_names_agg.
  rewrite (array_agg_unnest
             (fun u =>
                {| j_c := c; j_n := n; j_t := t; j_ref_table := None;
                   j_nr := None; j_u := u;
                   j_col := attribute_of db (rel_oid t) u;
                   j_u2 := None; j_ref_col := None |}))
    by reflexivity.
  cbn [j_col]. rewrite unnest_names, Et. reflexivity.
Qed.

(** The constraint query of the document returns one row per constraint
    of the table. *)
Lemma constraints_query_rows (schema table : string) :
  constraint_names_unique db schema table = true ->
  constraints_query db schema table
  = Ok (map (document_constraint_row db)
          (constraints_of_table db schema table)).
Proof.
  intros Hnames. unfold constraints_query, constraints_groups.
  rewrite (constraints_grouped schema table Hnames), order_by_map.
  change (order_by _ (filter (constraint_on db schema table)
                        (pg_constraint db)))
    with (constraints_of_table db schema table).
  rewrite map_map. f_equal. apply map_ext_in. intros c Hc.
  apply order_by_In, filter_In in Hc as [_ Hon].
  unfold constraints_select.
  rewrite (document_column_names_of_join schema table c Hon). reflexivity.
Qed.
End DocumentConstraints.

(** ** What the indexes facet returns *)

Lemma indexes_key_eqb_refl (k : string * Z * string * bool * bool * bool) :
  indexes_key_eqb k k = true.
Proof.
  destruct k as [[[[[n o] m] u] p] x]. unfold indexes_key_eqb.
  rewrite !String.eqb_refl, Z.eqb_refl, !Bool.eqb_reflx. reflexivity.
Qed.

Section IndexesFacet.
Variable db : database.
Hypothesis keys_unique : catalog_keys_unique db = true.

Lemma am_lookup (oid : Z) :
  filter (fun am => Z.eqb oid (am_oid am)) (pg_am db)
  = option_list (am_of db oid).
Proof.
  apply (filter_unique am_oid); [apply (ams_unique db keys_unique) |].
  intros x y Hx Hy. apply Z.eqb_eq in Hx, Hy. congruence.
Qed.

Lemma indexes_from_unique :
  indexes_from db = flat_map (index_join db) (pg_index db).
Proof.
  unfold indexes_from. apply flat_map_ext. intros ix.
  unfold index_join, index_parents.
  rewrite (class_lookup db keys_unique (indexrelid ix)).
  destruct (class_of db (indexrelid ix)) as [i |]; simpl; [| reflexivity].
  rewrite app_nil_r, (class_lookup db keys_unique (indrelid ix)).
  destruct (class_of db (indrelid ix)) as [t |]; simpl; [| reflexivity].
  rewrite app_nil_r, (namespace_lookup db keys_unique).
  destruct (namespace_of db (relnamespace t)) as [n |]; simpl;
    [| reflexivity].
  rewrite app_nil_r, am_lookup.
  destruct (am_of db (relam i)) as [am |]; simpl; [| reflexivity].
  rewrite app_nil_r.
  apply (unnest_join db keys_unique (rel_oid t)
           (fun k a =>
              {| j_ix := ix; j_i := i; j_it := t; j_in := n; j_am := am;
                 j_k := k; j_a := a |})).
Qed.

Lemma indexes_where (schema table : string) :
  filter (index_on_table schema table) (indexes_from db)
  = flat_map (index_join db)
      (filter (index_on db schema table) (pg_index db)).
Proof.
  rewrite indexes_from_unique, filter_flat_map.
  apply flat_map_filter_parent. intros ix _.
  unfold index_join, index_on.
  destruct (index_parents db ix) as [[[[i t] n] am] |]; [| reflexivity].
  apply filter_const. intros r Hr.
  apply in_map_iff in Hr as [k [<- _]]. reflexivity.
Qed.

Lemma index_parents_oid (ix : pg_index_row) (i t : pg_class_row)
  (n : pg_namespace_row) (am : pg_am_row) :
  index_parents db ix = Some (i, t, n, am) ->
  rel_oid i = indexrelid ix /\ rel_oid t = indrelid ix.
Proof.
  unfold index_parents.
  destruct (class_of db (indexrelid ix)) as [i' |] eqn:Ei; [| discriminate].
  destruct (class_of db (indrelid ix)) as [t' |] eqn:Et; [| discriminate].
  destruct (namespace_of db (relnamespace t')); [| discriminate].
  destruct (am_of db (relam i')); [| discriminate].
  intros H. injection H as -> -> _ _.
  apply class_of_oid in Ei as [Ei _], Et as [Et _]. auto.
Qed.

Lemma indexes_grouped (schema table : string) :
  group_by indexes_key_eqb indexes_key
    (filter (index_on_table schema table) (indexes_from db))
  = map (fun ix => (index_parent_key db ix, index_join db ix))
      (filter (index_on db schema table) (pg_index db)).
Proof.
  rewrite indexes_where.
  apply group_by_parents.
  - apply indexes_key_eqb_refl.
  - intros ix Hix. apply filter_In in Hix as [_ Hon].
    unfold index_on in Hon.
    unfold index_join, index_parent_key, index_name, index_type.
    destruct (index_parents db ix) as [[[[i t] n] am] |] eqn:Ep;
      [| discriminate].
    destruct (index_parents_oid _ _ _ _ _ Ep) as [Ei _].
    split.
    + apply map_not_nil, left_join_not_nil.
    + apply Forall_forall. intros r Hr.
      apply in_map_iff in Hr as [k [<- _]].
      unfold indexes_key. simpl. rewrite Ei. reflexivity.
  - apply (ForallOrdPairs_impl
             (fun a b => Z.eqb (indexrelid a) (indexrelid b) = false)).
    + intros a b H. unfold indexes_key_eqb, index_parent_key.
      rewrite H, andb_false_r. reflexivity.
    + apply distinct_keys_filter, (indexes_unique db keys_unique).
Qed.

Lemma index_column_names_of_join (schema table : string)
  (ix : pg_index_row) :
  index_on db schema table ix = true ->
  index_column_names_agg (index_join db ix)
  = VList (index_key_column_names db ix).
Proof.
  unfold index_on, index_join. intros Hon.
  destruct (index_parents db ix) as [[[[i t] n] am] |] eqn:Ep;
    [| discriminate].
  destruct (index_parents_oid _ _ _ _ _ Ep) as [_ Et].
  unfold index_column_names_agg.
  rewrite (array_agg_unnest
             (fun k =>
                {| j_ix := ix; j_i := i; j_it := t; j_in := n; j_am := am;
                   j_k := k; j_a := attribute_of db (rel_oid t) k |}))
    by reflexivity.
  cbn [j_a]. rewrite unnest_names, Et. reflexivity.
Qed.

(** The indexes facet returns one row per index of the table. *)
Lemma get_table_indexes_rows (schema table : string) :
  get_table_indexes db schema table
  = Ok (map (index_facet_row db) (indexes_of_table db schema table)).
Proof.
  unfold get_table_indexes, indexes_groups.
  rewrite indexes_grouped, order_by_map.
  change (order_by _ (filter (index_on db schema table) (pg_index db)))
    with (indexes_of_table db schema table).
  rewrite map_map. f_equal. apply map_ext_in. intros ix Hix.
  apply order_by_In, filter_In in Hix as [_ Hon].
  unfold indexes_select, index_parent_key.
  rewrite (index_column_names_of_join schema table ix Hon). reflexivity.
Qed.
End IndexesFacet.

(** ** What the document holds *)

Lemma for_loop_map {A B S} (f : A -> B) (body : S -> B -> result S)
  (xs : list A) (s : S) :
  for_loop (map f xs) body s = for_loop xs (fun s x => body s (f x)) s.
Proof.
  revert s. induction xs as [| x xs IH]; intros s; simpl.
  - reflexivity.
  - destruct (body s (f x)); simpl; [apply IH | reflexivity].
Qed.

Lemma column_constraints_of_labels
  (groups : list ((string * ascii) * list con_row)) (name : string) :
  column_constraints_of (VStr name) (map constraints_select groups)
  = Ok (column_constraint_labels groups name).
Proof.
  unfold column_constraints_of, column_constraint_labels.
  rewrite for_loop_map.
  enough (H : forall acc,
             for_loop groups
               (fun column_constraints g =>
                  names <- get_default (constraints_select g) "column_names"
                             (VList []) ;;
                  found <- py_in (VStr name) names ;;
                  if found : bool then
                    desc <- getitem (constraints_select g)
                              "constraint_type_desc" ;;
                    Ok (column_constraints ++ [desc])
                  else Ok column_constraints)
               acc
             = Ok (acc
                   ++ map (fun g => VStr (constraint_type_desc_db_info
                                            (snd (fst g))))
                        (filter (fun g => existsb (value_eqb (VStr name))
                                            (column_names_list (snd g)))
                           groups))).
  { apply (H []). }
  induction groups as [| [[cname ctype] rows] groups IH]; intros acc.
  - simpl. rewrite app_nil_r. reflexivity.
  - cbn [for_loop filter map snd fst].
    change (get_default (constraints_select ((cname, ctype), rows))
              "column_names" (VList []))
      with (Ok (VList (column_names_list rows))).
    cbn [bind py_in].
    destruct (existsb (value_eqb (VStr name)) (column_names_list rows)).
    + change (getitem (constraints_select ((cname, ctype), rows))
                "constraint_type_desc")
        with (Ok (VStr (constraint_type_desc_db_info ctype))).
      cbn [bind]. rewrite IH. cbn [map fst snd].
      rewrite <- app_assoc. reflexivity.
    + apply IH.
Qed.

Lemma add_column_entry (db : database)
  (groups : list ((string * ascii) * list con_row)) (table_info : value)
  (c : columns_row) :
  add_column (map constraints_select groups) table_info (column_row db c)
  = append_item table_info "columns" (column_entry db groups c).
Proof.
  unfold add_column.
  change (getitem (column_row db c) "column_name")
    with (Ok (VStr (column_name c))).
  cbn [bind]. rewrite column_constraints_of_labels. reflexivity.
Qed.

Lemma add_foreign_key_entry (table_info : value)
  (g : (string * option string * option string) * list con_row) :
  add_foreign_key table_info (foreign_keys_select g)
  = append_item table_info "foreign_keys" (foreign_key_entry g).
Proof. destruct g as [[[name rs] rt] rows]. reflexivity. Qed.

Lemma regclass_oid_resolved (db : database) (schema table : string) :
  resolves db schema table = true ->
  regclass_oid db (format_qualified schema table)
  = Ok (resolved_oid db (format_qualified schema table)).
Proof.
  unfold resolves, regclass_oid, resolved_oid.
  destruct (regclass db (format_qualified schema table));
    [reflexivity | discriminate].
Qed.

Lemma mapM_ok_inv {A B} (f : A -> result B) (g : A -> B) (l : list A)
  (ys : list B) :
  (forall x y, In x l -> f x = Ok y -> y = g x) ->
  mapM f l = Ok ys -> ys = map g l.
Proof.
  revert ys. induction l as [| x l IH]; intros ys Hf; simpl.
  - intros H. injection H as <-. reflexivity.
  - destruct (f x) as [y |] eqn:Ey; simpl; [| discriminate].
    destruct (mapM f l) as [ys' |]; simpl; [| discriminate].
    intros H. injection H as <-.
    rewrite (Hf x y (or_introl eq_refl) Ey). f_equal.
    apply IH; [| reflexivity].
    intros x' y' Hx'. apply Hf. right. exact Hx'.
Qed.

(** A row that the tables query returns is the row of its catalog row. *)
Lemma tables_select_inv (db : database) (count_key : string)
  (t : tables_row) (row : value) :
  tables_select db count_key t = Ok row -> row = table_row db count_key t.
Proof.
  unfold tables_select, table_row, regclass_oid, resolved_oid.
  destruct (regclass db (format_qualified (t_table_schema t)
                           (t_table_name t))); simpl.
  - intros H. injection H as <-. reflexivity.
  - discriminate.
Qed.

Lemma columns_select_inv (db : database) (c : columns_row) (row : value) :
  columns_select db c = Ok row -> row = column_row db c.
Proof.
  unfold columns_select, column_row, column_facet_row, regclass_oid,
    resolved_oid.
  destruct (regclass db (format_qualified (c_table_schema c)
                           (c_table_name c))); simpl.
  - intros H. injection H as <-. reflexivity.
  - discriminate.
Qed.

Lemma tables_query_inv (db : database) (schema : string)
  (rows : list value) :
  tables_query db schema = Ok rows ->
  rows = map (table_row db "row_count") (tables_rows db schema).
Proof.
  apply mapM_ok_inv. intros t row _. apply tables_select_inv.
Qed.

Lemma columns_query_inv (db : database) (schema table : string)
  (rows : list value) :
  columns_query db schema table = Ok rows ->
  rows = map (column_row db) (columns_rows db schema table).
Proof.
  apply mapM_ok_inv. intros c row _. apply columns_select_inv.
Qed.

(** A loop whose body first runs a statement that may fail and then
    appends one entry: if the loop ends, every entry was appended. *)
Lemma for_loop_guarded_append {A G} (xs : list A)
  (body : value -> A -> result value) (guard : A -> result G) (k : string)
  (entry : A -> value) :
  (forall x d,
     In x xs ->
     body d x = match guard x with
                | Ok _ => append_item d k (entry x)
                | Raise e => Raise e
                end) ->
  forall (d : list (string * value)) (l : list value) (s : value),
    dict_get d k = Some (VList l) ->
    for_loop xs body (VDict d) = Ok s ->
    s = VDict (dict_set d k (VList (l ++ map entry xs))).
Proof.
  induction xs as [| x xs IH]; intros Hbody d l s Hget; simpl.
  - intros H. injection H as <-. rewrite app_nil_r. f_equal.
    clear - Hget.
    induction d as [| [k' v'] d IH]; simpl in *; [discriminate |].
    destruct (String.eqb k' k) eqn:E.
    + congruence.
    + f_equal. apply IH. exact Hget.
  - rewrite (Hbody x (VDict d) (or_introl eq_refl)).
    destruct (guard x) as [g |]; [| discriminate].
    rewrite (append_item_ok _ _ _ (entry x) Hget). simpl. intros H.
    rewrite (IH (fun y d' Hy => Hbody y d' (or_intror Hy)) _
               (l ++ [entry x]) s (dict_get_set _ _ _ _ Hget) H).
    rewrite dict_set_set, <- app_assoc. reflexivity.
Qed.

(** One round of the loop over the tables of a schema: the table entry is
    appended unless the columns query fails. *)
Lemma add_table_guarded (db : database) (schema : string)
  (schema_info : value) (t : tables_row) :
  add_table db (VStr schema) schema_info (table_row db "row_count" t)
  = match columns_query db schema (t_table_name t) with
    | Ok _ => append_item schema_info "tables" (table_entry db schema t)
    | Raise e => Raise e
    end.
Proof.
  unfold add_table.
  change (getitem (table_row db "row_count" t) "table_name")
    with (Ok (VStr (t_table_name t))).
  change (get (table_row db "row_count" t) "description")
    with (Ok (opt_str
                (obj_description db
                   (resolved_oid db
                      (format_qualified (t_table_schema t)
                         (t_table_name t)))))).
  change (get (table_row db "row_count" t) "row_count")
    with (Ok (VInt
                (pg_stat_get_tuples_inserted db
                   (resolved_oid db
                      (format_qualified (t_table_schema t)
                         (t_table_name t)))))).
  cbn [bind as_str].
  destruct (columns_query db schema (t_table_name t)) as [rows | e] eqn:E;
    [| reflexivity].
  apply columns_query_inv in E. subst rows.
  unfold constraints_query, foreign_keys_query.
  cbn [bind].
  rewrite for_loop_map.
  erewrite (for_loop_append _ _ "columns"
              (column_entry db
                 (constraints_groups db schema (t_table_name t)))
              (fun c d _ => add_column_entry db _ d c))
    by reflexivity.
  cbn [bind].
  rewrite for_loop_map.
  erewrite (for_loop_append _ _ "foreign_keys" foreign_key_entry
              (fun g d _ => add_foreign_key_entry d g))
    by reflexivity.
  reflexivity.
Qed.

Lemma add_schema_guarded (db : database) (doc : value)
  (r : schemata_row * pg_namespace_row) :
  add_schema db doc (schemas_select db r)
  = match schema_statements db r with
    | Ok _ => append_item doc "schemas" (schema_entry db r)
    | Raise e => Raise e
    end.
Proof.
  unfold add_schema, schema_statements.
  change (getitem (schemas_select db r) "schema_name")
    with (Ok (VStr (schema_name (fst r)))).
  change (get (schemas_select db r) "description")
    with (Ok (opt_str (obj_description db (nsp_oid (snd r))))).
  cbn [bind as_str].
  destruct (tables_query db (schema_name (fst r))) as [rows | e] eqn:E;
    [| reflexivity].
  apply tables_query_inv in E. subst rows. cbn [bind].
  rewrite for_loop_map.
  destruct (for_loop (tables_rows db (schema_name (fst r))) _ _)
    as [schema_info | e] eqn:F; [| reflexivity].
  eapply (for_loop_guarded_append _ _
            (fun t => columns_query db (schema_name (fst r)) (t_table_name t))
            "tables" (table_entry db (schema_name (fst r)))
            (fun t d _ => add_table_guarded db (schema_name (fst r)) d t))
    in F; [| reflexivity].
  subst schema_info. reflexivity.
Qed.

(** Whenever [db_info] returns, it returns the document. *)
Lemma db_info_returns_document (db : database) (doc : value) :
  db_info db = Ok doc -> doc = document db.
Proof.
  unfold db_info, schemas_query. cbn [bind].
  rewrite for_loop_map. intros H.
  eapply (for_loop_guarded_append _ _ (schema_statements db) "schemas"
            (schema_entry db) (fun r d _ => add_schema_guarded db d r))
    in H; [| reflexivity].
  exact H.
Qed.

Section Document.
Variable db : database.
Hypothesis casts : casts_resolve db = true.

Lemma listed_table_resolves (t : tables_row) :
  In t (tables db) -> resolves db (t_table_schema t) (t_table_name t) = true.
Proof.
  intros Hin. unfold casts_resolve in casts.
  apply andb_true_iff in casts as [Ht _].
  rewrite forallb_forall in Ht. apply Ht, Hin.
Qed.

Lemma listed_column_resolves (c : columns_row) :
  In c (columns db) -> resolves db (c_table_schema c) (c_table_name c) = true.
Proof.
  intros Hin. unfold casts_resolve in casts.
  apply andb_true_iff in casts as [_ Hc].
  rewrite forallb_forall in Hc. apply Hc, Hin.
Qed.

Lemma tables_select_row (count_key : string) (schema : string)
  (t : tables_row) :
  In t (tables_rows db schema) ->
  tables_select db count_key t = Ok (table_row db count_key t).
Proof.
  intros Hin. apply order_by_In, filter_In in Hin as [Hin _].
  unfold tables_select.
  rewrite (regclass_oid_resolved _ _ _ (listed_table_resolves t Hin)).
  reflexivity.
Qed.

Lemma tables_query_rows (schema : string) :
  tables_query db schema
  = Ok (map (table_row db "row_count") (tables_rows db schema)).
Proof.
  apply mapM_ok. intros t Ht. apply (tables_select_row _ schema), Ht.
Qed.

Lemma list_schema_tables_rows (schema : string) :
  list_schema_tables db schema
  = Ok (map (table_row db "total_rows") (tables_rows db schema)).
Proof.
  apply mapM_ok. intros t Ht. apply (tables_select_row _ schema), Ht.
Qed.

Lemma columns_query_rows (schema table : string) :
  columns_query db schema table
  = Ok (map (column_row db) (columns_rows db schema table)).
Proof.
  apply mapM_ok. intros c Hc.
  apply order_by_In, filter_In in Hc as [Hin _].
  unfold columns_select, column_row.
  rewrite (regclass_oid_resolved _ _ _ (listed_column_resolves c Hin)).
  reflexivity.
Qed.

Lemma get_table_columns_rows (schema table : string) :
  get_table_columns db schema table
  = Ok (map (column_row db) (columns_rows db schema table)).
Proof. apply columns_query_rows. Qed.

Lemma add_table_entry (schema : string) (schema_info : value)
  (t : tables_row) :
  add_table db (VStr schema) schema_info (table_row db "row_count" t)
  = append_item schema_info "tables" (table_entry db schema t).
Proof. rewrite add_table_guarded, columns_query_rows. reflexivity. Qed.

Lemma schema_statements_run (r : schemata_row * pg_namespace_row) :
  exists schema_info, schema_statements db r = Ok schema_info.
Proof.
  unfold schema_statements. rewrite tables_query_rows. cbn [bind].
  rewrite for_loop_map.
  erewrite (for_loop_append _ _ "tables"
              (table_entry db (schema_name (fst r)))
              (fun t d _ => add_table_entry (schema_name (fst r)) d t))
    by reflexivity.
  eexists. reflexivity.
Qed.

Lemma add_schema_entry (doc : value) (r : schemata_row * pg_namespace_row) :
  add_schema db doc (schemas_select db r)
  = append_item doc "schemas" (schema_entry db r).
Proof.
  rewrite add_schema_guarded.
  destruct (schema_statements_run r) as [schema_info ->]. reflexivity.
Qed.

(** With every cast resolved, [db_info] returns the document. *)
Lemma db_info_document : db_info db = Ok (document db).
Proof.
  unfold db_info, schemas_query. cbn [bind].
  rewrite for_loop_map.
  erewrite (for_loop_append _ _ "schemas" (schema_entry db)
              (fun r d _ => add_schema_entry d r))
    by reflexivity.
  reflexivity.
Qed.
End Document.

(** ** The shape of the document (C10) *)

Lemma table_entry_shape (db : database) (schema : string) (t : tables_row) :
  table_shape (table_entry db schema t).
Proof.
  split; [reflexivity |]. split; eexists; reflexivity.
Qed.

Lemma schema_entry_shape (db : database)
  (r : schemata_row * pg_namespace_row) :
  schema_shape (schema_entry db r).
Proof.
  split; [reflexivity |]. eexists. split; [reflexivity |].
  apply Forall_forall. intros e He.
  apply in_map_iff in He as [t [<- _]]. apply table_entry_shape.
Qed.

Lemma document_has_shape (db : database) : document_shape (document db).
Proof.
  split; [reflexivity |]. eexists. split; [reflexivity |].
  apply Forall_forall. intros e He.
  apply in_map_iff in He as [r [<- _]]. apply schema_entry_shape.
Qed.

(** C10: whenever [db_info] returns, and it does where the engine
    resolves the names of the listed relations, it returns a mapping whose
    only key is [schemas]; every schema entry has exactly the keys [name],
    [description], [tables]; every table entry has exactly the keys
    [name], [description], [row_count], [columns], [foreign_keys]; and
    [schemas], [tables], [columns] and [foreign_keys] always hold a
    list. *)
Theorem db_info_shape (db : database) :
  (casts_resolve db = true -> exists doc, db_info db = Ok doc)
  /\ (forall doc, db_info db = Ok doc -> document_shape doc).
Proof.
  split.
  - intros Hcasts. exists (document db). apply db_info_document, Hcasts.
  - intros doc Hdoc. rewrite (db_info_returns_document db doc Hdoc).
    apply document_has_shape.
Qed.

Lemma db_info_shape_witness :
  exists doc, db_info Sample.db = Ok doc /\ document_shape doc.
Proof.
  destruct (db_info_shape Sample.db) as [Hreturns Hshape].
  destruct (Hreturns eq_refl) as [doc Hdoc].
  exists doc. split; [exact Hdoc | apply Hshape, Hdoc].
Defined.

(** ** Key columns and aggregated names (C4, C6) *)

Lemma key_column_names_keyless (db : database) (c : pg_constraint_row) :
  conkey c = None \/ conkey c = Some [] -> key_column_names db c = [VNone].
Proof.
  unfold key_column_names. intros [-> | ->]; reflexivity.
Qed.

Lemma index_key_column_names_keyless (db : database) (ix : pg_index_row) :
  indkey ix = None \/ indkey ix = Some [] ->
  index_key_column_names db ix = [VNone].
Proof.
  unfold index_key_column_names. intros [-> | ->]; reflexivity.
Qed.

Lemma constraint_of_table_listed (db : database) (schema table : string)
  (c : pg_constraint_row) :
  In c (pg_constraint db) -> constraint_on db schema table c = true ->
  In c (constraints_of_table db schema table).
Proof.
  intros Hin Hon. apply order_by_In, filter_In. auto.
Qed.

(** C4 (amended): in a catalog with unique keys, a constraint or an index
    of the table whose key-column array is NULL or empty still has its row
    in the constraints facet, respectively the indexes facet; the
    aggregation does not fail, and the row's [column_names] is the list
    with the single element NULL. *)
Theorem keyless_column_names_single_null (db : database)
  (schema table : string) :
  catalog_keys_unique db = true ->
  (forall c,
     In c (pg_constraint db) ->
     constraint_on db schema table c = true ->
     conkey c = None \/ conkey c = Some [] ->
     exists rows,
       get_table_constraints db schema table = Ok rows
       /\ In (table_constraint_row db c) rows
       /\ getitem (table_constraint_row db c) "constraint_name"
          = Ok (VStr (conname c))
       /\ getitem (table_constraint_row db c) "column_names"
          = Ok (VList [VNone]))
  /\ (forall ix,
        In ix (pg_index db) ->
        index_on db schema table ix = true ->
        indkey ix = None \/ indkey ix = Some [] ->
        exists rows,
          get_table_indexes db schema table = Ok rows
          /\ In (index_facet_row db ix) rows
          /\ getitem (index_facet_row db ix) "index_name"
             = Ok (VStr (index_name db ix))
          /\ getitem (index_facet_row db ix) "column_names"
             = Ok (VList [VNone])).
Proof.
  intros Hkeys. split.
  - intros c Hin Hon Hkey.
    exists (map (table_constraint_row db)
              (constraints_of_table db schema table)).
    split; [apply get_table_constraints_rows, Hkeys |].
    split; [apply in_map, constraint_of_table_listed; assumption |].
    split; [reflexivity |].
    unfold table_constraint_row.
    rewrite (key_column_names_keyless db c Hkey). reflexivity.
  - intros ix Hin Hon Hkey.
    exists (map (index_facet_row db) (indexes_of_table db schema table)).
    split; [apply get_table_indexes_rows, Hkeys |].
    split; [apply in_map, order_by_In, filter_In; auto |].
    split; [reflexivity |].
    unfold index_facet_row.
    rewrite (index_key_column_names_keyless db ix Hkey). reflexivity.
Qed.

Lemma keyless_column_names_single_null_witness :
  (exists rows,
     get_table_constraints Sample.db "public" "users" = Ok rows
     /\ In (VDict [("constraint_name", VStr "users_sane");
                   ("constraint_type", VStr "c");
                   ("constraint_type_desc", VStr "CHECK");
                   ("description", VNone);
                   ("definition", VNone);
                   ("referenced_table", VNone);
                   ("column_names", VList [VNone])]) rows)
  /\ (exists rows,
        get_table_indexes Sample.db_with_keyless_index "public" "users"
        = Ok rows
        /\ In (VDict [("index_name", VStr "users_email_key");
                      ("index_definition", VNone);
                      ("description", VNone);
                      ("index_type", VStr "btree");
                      ("column_names", VList [VNone]);
                      ("is_unique", VBool true);
                      ("is_primary", VBool false);
                      ("is_exclusion", VBool false)]) rows).
Proof.
  split.
  - destruct (keyless_column_names_single_null Sample.db "public" "users"
                eq_refl) as [Hc _].
    destruct (Hc (Sample.con 16394 "users_sane" "c" 16385 0 None None))
      as (rows & Hrows & Hin & _).
    + simpl. tauto.
    + reflexivity.
    + left. reflexivity.
    + exists rows. split; [exact Hrows | exact Hin].
  - destruct (keyless_column_names_single_null Sample.db_with_keyless_index
                "public" "users" eq_refl) as [_ Hi].
    destruct (Hi Sample.keyless_index) as (rows & Hrows & Hin & _).
    + simpl. tauto.
    + reflexivity.
    + right. reflexivity.
    + exists rows. split; [exact Hrows | exact Hin].
Defined.

(** C6 (amended): in a catalog with unique keys where the constraint names
    of the table are unique, the constraints facet and the constraint
    query of the database document return one row per constraint of the
    table; for a constraint whose key-column array has entries, the row's
    [column_names] has one element per entry, the i-th being the name of
    the column numbered by the i-th entry. *)
Theorem constraint_column_names_follow_key (db : database)
  (schema table : string) (c : pg_constraint_row) (k : Z) (ks : list Z) :
  catalog_keys_unique db = true ->
  constraint_names_unique db schema table = true ->
  In c (pg_constraint db) ->
  constraint_on db schema table c = true ->
  conkey c = Some (k :: ks) ->
  exists names,
    get_table_constraints db schema table
    = Ok (map (table_constraint_row db)
            (constraints_of_table db schema table))
    /\ constraints_query db schema table
       = Ok (map (document_constraint_row db)
               (constraints_of_table db schema table))
    /\ In c (constraints_of_table db schema table)
    /\ getitem (table_constraint_row db c) "column_names" = Ok (VList names)
    /\ getitem (document_constraint_row db c) "column_names"
       = Ok (VList names)
    /\ names = map (key_column_name db (conrelid c)) (k :: ks)
    /\ List.length names = List.length (k :: ks).
Proof.
  intros Hkeys Hnames Hin Hon Hkey.
  exists (map (key_column_name db (conrelid c)) (k :: ks)).
  split; [apply get_table_constraints_rows, Hkeys |].
  split; [apply constraints_query_rows; assumption |].
  split; [apply constraint_of_table_listed; assumption |].
  assert (Hn : key_column_names db c
               = map (key_column_name db (conrelid c)) (k :: ks)).
  { unfold key_column_names. rewrite Hkey. reflexivity. }
  unfold table_constraint_row, document_constraint_row. rewrite Hn.
  repeat split; try reflexivity. apply length_map.
Qed.

Lemma constraint_column_names_follow_key_witness :
  column_of "column_names"
    (get_table_constraints Sample.db "public" "order_items")
  = Ok [VList [VStr "order_no"; VStr "line"]]
  /\ column_of "column_names"
       (constraints_query Sample.db "public" "order_items")
     = Ok [VList [VStr "order_no"; VStr "line"]].
Proof.
  destruct (constraint_column_names_follow_key Sample.db "public"
              "order_items"
              (Sample.con 16406 "order_items_pkey" "p" 16400 0
                 (Some [1; 2]) None)
              1 [2] eq_refl eq_refl (or_intror (or_intror (or_intror
                 (or_introl eq_refl)))) eq_refl eq_refl)
    as (names & Hfacet & Hdoc & _).
  rewrite Hfacet, Hdoc. split; reflexivity.
Defined.

(** ** The document against the facets (C2, amended) *)

Lemma filter_map {A B} (p : B -> bool) (f : A -> B) (l : list A) :
  filter p (map f l) = map f (filter (fun x => p (f x)) l).
Proof.
  induction l as [| x l IH]; simpl.
  - reflexivity.
  - rewrite IH. destruct (p (f x)); reflexivity.
Qed.

Section DocumentAndFacets.
Variable db : database.
Hypothesis keys_unique : catalog_keys_unique db = true.

Lemma constraints_groups_rows (schema table : string) :
  constraint_names_unique db schema table = true ->
  constraints_groups db schema table
  = map (fun c => ((conname c, contype c), constraints_join db c))
      (constraints_of_table db schema table).
Proof.
  intros Hnames. unfold constraints_groups.
  rewrite (constraints_grouped db keys_unique schema table Hnames).
  rewrite order_by_map. reflexivity.
Qed.

Lemma column_entry_document_column (schema table : string)
  (c : columns_row) :
  constraint_names_unique db schema table = true ->
  plain_constraints_only db schema table = true ->
  column_entry db (constraints_groups db schema table) c
  = document_column db (constraints_of_table db schema table) c.
Proof.
  intros Hnames Hplain. unfold column_entry, document_column.
  assert (Hlabels :
            column_constraint_labels (constraints_groups db schema table)
              (column_name c)
            = map (fun k => VStr (constraint_type_desc (contype k)))
                (filter (fun k => existsb (value_eqb (VStr (column_name c)))
                                    (key_column_names db k))
                   (constraints_of_table db schema table))).
  { unfold column_constraint_labels.
    rewrite (constraints_groups_rows schema table Hnames).
    rewrite filter_map, map_map. cbn [fst snd].
    rewrite (filter_ext_in
               (fun k => existsb (value_eqb (VStr (column_name c)))
                           (column_names_list (constraints_join db k)))
               (fun k => existsb (value_eqb (VStr (column_name c)))
                           (key_column_names db k))).
    - apply map_ext_in. intros k Hk.
      apply filter_In in Hk as [Hk _].
      apply order_by_In in Hk.
      unfold plain_constraints_only in Hplain.
      rewrite forallb_forall in Hplain. specialize (Hplain k Hk).
      unfold plain_constraint in Hplain.
      apply andb_true_iff in Hplain as [Ht Hx].
      apply negb_true_iff, Ascii.eqb_neq in Ht, Hx.
      rewrite (constraint_type_desc_agree _ Ht Hx). reflexivity.
    - intros k Hk. apply order_by_In, filter_In in Hk as [_ Hon].
      pose proof (document_column_names_of_join db schema table k Hon)
        as Hagg.
      change (column_names_agg (constraints_join db k))
        with (VList (column_names_list (constraints_join db k))) in Hagg.
      injection Hagg as ->. reflexivity. }
  rewrite Hlabels. reflexivity.
Qed.
End DocumentAndFacets.

Lemma Forall2_map_self {A B} (R : B -> A -> Prop) (f : A -> B)
  (l : list A) :
  (forall x, R (f x) x) -> Forall2 R (map f l) l.
Proof.
  intros H. induction l as [| x l IH]; simpl; constructor; auto.
Qed.

(** C2 (amended): in a catalog with unique keys whose listed relations
    resolve, the table entry of the document for a listed table has
    exactly the keys [name], [description], [row_count], [columns],
    [foreign_keys], so it holds neither a constraint list nor index data.
    Its [columns] list has one entry per row of the columns facet, in the
    same order, with [name], [type], [default] and [description] equal to
    the row's [column_name], [data_type], [column_default] and
    [description] and with [nullable] true exactly when the row's
    [is_nullable] is YES.  Where, in addition, the constraint names of the
    table are unique and the table has no constraint trigger and no
    exclusion constraint, a column's [constraints] are the labels of the
    constraints of the constraints facet whose [column_names] hold the
    column. *)
Theorem table_entry_follows_facets (db : database)
  (r : schemata_row * pg_namespace_row) (t : tables_row) :
  casts_resolve db = true ->
  catalog_keys_unique db = true ->
  In r (schemas_rows db) ->
  In t (tables_rows db (schema_name (fst r))) ->
  exists doc schemas schema_info schema_tables table_info cols cons entries,
    db_info db = Ok doc
    /\ getitem doc "schemas" = Ok (VList schemas)
    /\ In schema_info schemas
    /\ getitem schema_info "name" = Ok (VStr (schema_name (fst r)))
    /\ getitem schema_info "tables" = Ok (VList schema_tables)
    /\ In table_info schema_tables
    /\ getitem table_info "name" = Ok (VStr (t_table_name t))
    /\ keys table_info
       = ["name"; "description"; "row_count"; "columns"; "foreign_keys"]
    /\ get_table_columns db (schema_name (fst r)) (t_table_name t)
       = Ok (map (column_row db) cols)
    /\ get_table_constraints db (schema_name (fst r)) (t_table_name t)
       = Ok (map (table_constraint_row db) cons)
    /\ getitem table_info "columns" = Ok (VList entries)
    /\ Forall2
         (fun entry c =>
            getitem entry "name" = getitem (column_row db c) "column_name"
            /\ getitem entry "type" = getitem (column_row db c) "data_type"
            /\ getitem entry "default"
               = getitem (column_row db c) "column_default"
            /\ getitem entry "description"
               = getitem (column_row db c) "description"
            /\ getitem (column_row db c) "is_nullable"
               = Ok (VStr (is_nullable c))
            /\ getitem entry "nullable"
               = Ok (VBool (String.eqb (is_nullable c) "YES")))
         entries cols
    /\ (constraint_names_unique db (schema_name (fst r)) (t_table_name t)
        = true ->
        plain_constraints_only db (schema_name (fst r)) (t_table_name t)
        = true ->
        entries = map (document_column db cons) cols).
Proof.
  intros Hcasts Hkeys Hr Ht.
  exists (document db), (map (schema_entry db) (schemas_rows db)),
    (schema_entry db r),
    (map (table_entry db (schema_name (fst r)))
       (tables_rows db (schema_name (fst r)))),
    (table_entry db (schema_name (fst r)) t),
    (columns_rows db (schema_name (fst r)) (t_table_name t)),
    (constraints_of_table db (schema_name (fst r)) (t_table_name t)),
    (map (column_entry db
            (constraints_groups db (schema_name (fst r)) (t_table_name t)))
       (columns_rows db (schema_name (fst r)) (t_table_name t))).
  split; [apply db_info_document, Hcasts |].
  split; [reflexivity |].
  split; [apply in_map, Hr |].
  split; [reflexivity |].
  split; [reflexivity |].
  split; [apply in_map, Ht |].
  split; [reflexivity |].
  split; [reflexivity |].
  split; [apply get_table_columns_rows, Hcasts |].
  split; [apply get_table_constraints_rows, Hkeys |].
  split; [reflexivity |].
  split.
  - apply Forall2_map_self. intros c. repeat split; reflexivity.
  - intros Hnames Hplain. apply map_ext. intros c.
    apply column_entry_document_column; assumption.
Qed.

Lemma table_entry_follows_facets_witness :
  (exists doc table_info cols cons,
     db_info Sample.db = Ok doc
     /\ getitem table_info "name" = Ok (VStr "users")
     /\ keys table_info
        = ["name"; "description"; "row_count"; "columns"; "foreign_keys"]
     /\ get_table_columns Sample.db "public" "users"
        = Ok (map (column_row Sample.db) cols)
     /\ get_table_constraints Sample.db "public" "users"
        = Ok (map (table_constraint_row Sample.db) cons)
     /\ getitem table_info "columns"
        = Ok (VList (map (document_column Sample.db cons) cols)))
  /\ (exists doc table_info cols entries,
        db_info Sample.db = Ok doc
        /\ plain_constraints_only Sample.db "public" "shipments" = false
        /\ getitem table_info "name" = Ok (VStr "shipments")
        /\ get_table_columns Sample.db "public" "shipments"
           = Ok (map (column_row Sample.db) cols)
        /\ getitem table_info "columns" = Ok (VList entries)
        /\ List.length entries = List.length cols).
Proof.
  split.
  - destruct (table_entry_follows_facets Sample.db
                ({| schema_name := "public" |},
                 {| nsp_oid := 2200; nspname := "public" |})
                (Sample.base_table "public" "users")
                eq_refl eq_refl
                (or_introl eq_refl)
                (or_intror (or_intror (or_introl eq_refl))))
      as (doc & schemas & schema_info & schema_tables & table_info & cols
          & cons & entries & Hdoc & _ & _ & _ & _ & _ & Hname & Hkeys
          & Hcols & Hcons & Hentry & _ & Hlabels).
    exists doc, table_info, cols, cons.
    rewrite <- (Hlabels eq_refl eq_refl).
    repeat split; assumption.
  - destruct (table_entry_follows_facets Sample.db
                ({| schema_name := "public" |},
                 {| nsp_oid := 2200; nspname := "public" |})
                (Sample.base_table "public" "shipments")
                eq_refl eq_refl
                (or_introl eq_refl)
                (or_intror (or_introl eq_refl)))
      as (doc & schemas & schema_info & schema_tables & table_info & cols
          & cons & entries & Hdoc & _ & _ & _ & _ & _ & Hname & _
          & Hcols & _ & Hentry & Hfields & _).
    exists doc, table_info, cols, entries.
    split; [exact Hdoc |].
    split; [reflexivity |].
    split; [exact Hname |].
    split; [exact Hcols |].
    split; [exact Hentry |].
    apply (Forall2_length Hfields).
Defined.

(** * Further properties *)

(** ** Sample rows: failures and the limit *)

(** X1: when the quoting of the schema name or of the table name fails,
    [get_sample_data] fails with the same error and has sent nothing but
    the quoting statements: the SELECT over the table is never sent. *)
Theorem get_sample_data_stops_on_quoting_error (conn : connection)
  (schema table : string) (limit : value) (e : exn) :
  fetchval conn "SELECT quote_ident($1)" [VStr schema] = Raise e
  \/ ((exists v, fetchval conn "SELECT quote_ident($1)" [VStr schema] = Ok v)
      /\ fetchval conn "SELECT quote_ident($1)" [VStr table] = Raise e) ->
  snd (run_conn conn (get_sample_data schema table limit)) = Raise e
  /\ Forall (fun st => fst st = "SELECT quote_ident($1)")
       (fst (run_conn conn (get_sample_data schema table limit))).
Proof.
  intros [H | [[v Hv] H]]; unfold get_sample_data; cbn [run_conn].
  - rewrite H. split; [reflexivity |]. repeat constructor.
  - rewrite Hv. cbn [run_conn]. rewrite H.
    split; [reflexivity |]. repeat constructor.
Qed.

Lemma get_sample_data_stops_on_quoting_error_witness :
  snd (run_conn failing_connection
         (get_sample_data "public" "users" (VInt 10)))
  = Raise QueryExecutionError
  /\ Forall (fun st => fst st = "SELECT quote_ident($1)")
       (fst (run_conn failing_connection
               (get_sample_data "public" "users" (VInt 10)))).
Proof.
  apply (get_sample_data_stops_on_quoting_error failing_connection
           "public" "users" (VInt 10) QueryExecutionError).
  left. reflexivity.
Defined.

(** X2: whatever the connection answers, the texts of the statements
    [get_sample_data] sends do not depend on the limit, and the limit is
    bound to no statement but the last. *)
Theorem get_sample_data_text_ignores_limit (conn : connection)
  (schema table : string) (limit limit' : value) :
  map fst (fst (run_conn conn (get_sample_data schema table limit)))
  = map fst (fst (run_conn conn (get_sample_data schema table limit')))
  /\ Forall (fun st => snd st = [VStr schema] \/ snd st = [VStr table])
       (removelast (fst (run_conn conn
                           (get_sample_data schema table limit)))).
Proof.
  unfold get_sample_data. cbn [run_conn].
  destruct (fetchval conn "SELECT quote_ident($1)" [VStr schema])
    as [schema_ident |]; cbn [run_conn].
  2: { split; [reflexivity | constructor]. }
  destruct (fetchval conn "SELECT quote_ident($1)" [VStr table])
    as [table_ident |]; cbn [run_conn].
  2: { split; [reflexivity |]. cbn.
       constructor; [left; reflexivity | constructor]. }
  destruct (fetch conn _ [limit]), (fetch conn _ [limit']); cbn.
  all: split; [reflexivity |].
  all: constructor; [left; reflexivity |].
  all: constructor; [right; reflexivity | constructor].
Qed.

(** ** When the document is returned *)

Lemma mapM_forallb {A B} (f : A -> result B) (p : A -> bool) (g : A -> B)
  (l : list A) :
  (forall x, In x l ->
     f x = if p x then Ok (g x) else Raise QueryExecutionError) ->
  mapM f l
  = if forallb p l then Ok (map g l) else Raise QueryExecutionError.
Proof.
  induction l as [| x l IH]; intros H; simpl.
  - reflexivity.
  - rewrite (H x (or_introl eq_refl)).
    destruct (p x); simpl; [| reflexivity].
    rewrite IH by (intros y Hy; apply H; right; exact Hy).
    destruct (forallb p l); reflexivity.
Qed.

Lemma mapM_forallb_some {A B} (f : A -> result B) (p : A -> bool)
  (l : list A) :
  (forall x, In x l ->
     exists y, f x = if p x then Ok y else Raise QueryExecutionError) ->
  exists ys,
    mapM f l = if forallb p l then Ok ys else Raise QueryExecutionError.
Proof.
  induction l as [| x l IH]; intros H; simpl.
  - exists []. reflexivity.
  - destruct (H x (or_introl eq_refl)) as [y ->].
    destruct (p x); simpl; [| exists []; reflexivity].
    destruct (IH (fun z Hz => H z (or_intror Hz))) as [ys Hys].
    exists (y :: ys). rewrite Hys.
    destruct (forallb p l); reflexivity.
Qed.

(** A loop of guarded appends fails with the first guard that fails. *)
Lemma for_loop_guarded_run {A G} (xs : list A)
  (body : value -> A -> result value) (guard : A -> result G) (k : string)
  (entry : A -> value) :
  (forall x d,
     In x xs ->
     body d x = match guard x with
                | Ok _ => append_item d k (entry x)
                | Raise e => Raise e
                end) ->
  forall (d : list (string * value)) (l : list value),
    dict_get d k = Some (VList l) ->
    for_loop xs body (VDict d)
    = match mapM guard xs with
      | Ok _ => Ok (VDict (dict_set d k (VList (l ++ map entry xs))))
      | Raise e => Raise e
      end.
Proof.
  induction xs as [| x xs IH]; intros Hbody d l Hget; simpl.
  - rewrite app_nil_r. f_equal. f_equal. clear - Hget.
    induction d as [| [k' v'] d IH]; simpl in *; [discriminate |].
    destruct (String.eqb k' k) eqn:E.
    + congruence.
    + f_equal. apply IH. exact Hget.
  - rewrite (Hbody x (VDict d) (or_introl eq_refl)).
    destruct (guard x) as [g |]; simpl; [| reflexivity].
    rewrite (append_item_ok _ _ _ (entry x) Hget). simpl.
    rewrite (IH (fun y d' Hy => Hbody y d' (or_intror Hy)) _
               (l ++ [entry x]) (dict_get_set _ _ _ _ Hget)).
    destruct (mapM guard xs); simpl; [| reflexivity].
    rewrite dict_set_set, <- app_assoc. reflexivity.
Qed.

Lemma tables_select_cases (db : database) (count_key : string)
  (t : tables_row) :
  tables_select db count_key t
  = if resolves db (t_table_schema t) (t_table_name t)
    then Ok (table_row db count_key t)
    else Raise QueryExecutionError.
Proof.
  unfold tables_select, table_row, regclass_oid, resolved_oid, resolves.
  destruct (regclass db (format_qualified (t_table_schema t)
                           (t_table_name t))); reflexivity.
Qed.

Lemma columns_select_cases (db : database) (c : columns_row) :
  columns_select db c
  = if resolves db (c_table_schema c) (c_table_name c)
    then Ok (column_row db c)
    else Raise QueryExecutionError.
Proof.
  unfold columns_select, column_row, column_facet_row, regclass_oid,
    resolved_oid, resolves.
  destruct (regclass db (format_qualified (c_table_schema c)
                           (c_table_name c))); reflexivity.
Qed.

Lemma schema_statements_cases (db : database)
  (r : schemata_row * pg_namespace_row) :
  exists schema_info,
    schema_statements db r
    = if forallb (fun t => resolves db (t_table_schema t) (t_table_name t))
           (tables_rows db (schema_name (fst r)))
         && forallb (fun t =>
              forallb (fun c => resolves db (c_table_schema c)
                                  (c_table_name c))
                (columns_rows db (schema_name (fst r)) (t_table_name t)))
              (tables_rows db (schema_name (fst r)))
      then Ok schema_info
      else Raise QueryExecutionError.
Proof.
  eexists. unfold schema_statements, tables_query.
  rewrite (mapM_forallb _ _ (table_row db "row_count") _
             (fun t _ => tables_select_cases db "row_count" t)).
  destruct (forallb _ (tables_rows db (schema_name (fst r))));
    cbn [bind andb]; [| reflexivity].
  rewrite for_loop_map.
  erewrite (for_loop_guarded_run _ _
              (fun t => columns_query db (schema_name (fst r))
                          (t_table_name t))
              "tables" (table_entry db (schema_name (fst r)))
              (fun t d _ => add_table_guarded db (schema_name (fst r)) d t))
    by reflexivity.
  rewrite (mapM_forallb _
             (fun t =>
                forallb (fun c => resolves db (c_table_schema c)
                                    (c_table_name c))
                  (columns_rows db (schema_name (fst r)) (t_table_name t)))
             (fun t => map (column_row db)
                         (columns_rows db (schema_name (fst r))
                            (t_table_name t)))).
  - destruct (forallb _ (tables_rows db (schema_name (fst r))));
      reflexivity.
  - intros t _. unfold columns_query.
    apply mapM_forallb. intros c _. apply columns_select_cases.
Qed.

(** [db_info] returns the document when every cast it evaluates resolves
    and raises the error of the failed statement otherwise. *)
Lemma db_info_run (db : database) :
  db_info db
  = if visited_casts_resolve db then Ok (document db)
    else Raise QueryExecutionError.
Proof.
  unfold db_info, schemas_query. cbn [bind].
  rewrite for_loop_map.
  erewrite (for_loop_guarded_run _ _ (schema_statements db) "schemas"
              (schema_entry db) (fun r d _ => add_schema_guarded db d r))
    by reflexivity.
  unfold visited_casts_resolve.
  destruct (mapM_forallb_some (schema_statements db)
              (fun r =>
                 forallb (fun t => resolves db (t_table_schema t)
                                     (t_table_name t))
                   (tables_rows db (schema_name (fst r)))
                 && forallb (fun t =>
                      forallb (fun c => resolves db (c_table_schema c)
                                          (c_table_name c))
                        (columns_rows db (schema_name (fst r))
                           (t_table_name t)))
                      (tables_rows db (schema_name (fst r))))
              (schemas_rows db)
              (fun r _ => schema_statements_cases db r))
    as [infos ->].
  destruct (forallb _ (schemas_rows db)); reflexivity.
Qed.

(** X3: [db_info] returns the document exactly when every cast it
    evaluates resolves, those of the base tables of the listed schemas and
    of their columns; otherwise it raises the error of the failed
    statement.  It never raises a [KeyError] or a [TypeError], and a
    relation outside the listed schemas cannot make it fail. *)
Theorem db_info_outcome (db : database) :
  db_info db
  = (if visited_casts_resolve db then Ok (document db)
     else Raise QueryExecutionError)
  /\ (forall doc, db_info db = Ok doc <->
                  visited_casts_resolve db = true /\ doc = document db)
  /\ (forall e, db_info db = Raise e -> e = QueryExecutionError).
Proof.
  split; [apply db_info_run |]. rewrite db_info_run.
  destruct (visited_casts_resolve db); split.
  - intros doc. split.
    + intros H. injection H as <-. auto.
    + intros [_ ->]. reflexivity.
  - discriminate.
  - intros doc. split; [discriminate | intros [H _]; discriminate].
  - intros e H. injection H as <-. reflexivity.
Qed.

(** ** Names that match nothing *)

Lemma existsb_false_filter {A} (p : A -> bool) (l : list A) :
  existsb p l = false -> filter p l = [].
Proof.
  intros H. apply filter_nil. intros x Hx.
  destruct (p x) eqn:E; [| reflexivity].
  assert (existsb p l = true); [| congruence].
  apply existsb_exists. exists x. auto.
Qed.

(** X4: for names that match nothing the listings are empty, not
    errors: a schema without base tables has no table rows, a table
    without column rows has no columns, and a table name that no relation
    bears has neither constraints nor indexes.  No cast is evaluated on
    the way. *)
Theorem listings_of_unknown_names (db : database) (schema table : string) :
  existsb (fun t => String.eqb (t_table_schema t) schema
                    && String.eqb (t_table_type t) "BASE TABLE")
    (tables db) = false ->
  existsb (fun c => String.eqb (c_table_schema c) schema
                    && String.eqb (c_table_name c) table)
    (columns db) = false ->
  existsb (fun r => String.eqb (relname r) table) (pg_class db) = false ->
  list_schema_tables db schema = Ok []
  /\ get_table_columns db schema table = Ok []
  /\ get_table_constraints db schema table = Ok []
  /\ get_table_indexes db schema table = Ok [].
Proof.
  intros Htables Hcolumns Hrel.
  assert (Hnone : forall r, In r (pg_class db) ->
                            String.eqb (relname r) table = false).
  { intros r Hr. destruct (String.eqb (relname r) table) eqn:E;
      [| reflexivity].
    assert (existsb (fun r => String.eqb (relname r) table) (pg_class db)
            = true); [| congruence].
    apply existsb_exists. exists r. auto. }
  split; [| split; [| split]].
  - unfold list_schema_tables, tables_rows.
    rewrite (existsb_false_filter _ _ Htables). reflexivity.
  - unfold get_table_columns, columns_rows.
    rewrite (existsb_false_filter _ _ Hcolumns). reflexivity.
  - unfold get_table_constraints, table_constraints_groups.
    rewrite filter_nil; [reflexivity |].
    intros r Hr. unfold table_constraints_from in Hr.
    apply in_flat_map in Hr as [c [_ Hr]].
    apply in_flat_map in Hr as [n [_ Hr]].
    apply in_flat_map in Hr as [t [Ht Hr]].
    apply in_flat_map in Hr as [ref_table [_ Hr]].
    apply in_flat_map in Hr as [u [_ Hr]].
    apply in_map_iff in Hr as [col [<- _]].
    apply filter_In in Ht as [Ht _].
    unfold on_table. cbn [j_n j_t]. rewrite (Hnone t Ht).
    apply andb_false_r.
  - unfold get_table_indexes, indexes_groups.
    rewrite filter_nil; [reflexivity |].
    intros r Hr. unfold indexes_from in Hr.
    apply in_flat_map in Hr as [ix [_ Hr]].
    apply in_flat_map in Hr as [i [_ Hr]].
    apply in_flat_map in Hr as [t [Ht Hr]].
    apply in_flat_map in Hr as [n [_ Hr]].
    apply in_flat_map in Hr as [am [_ Hr]].
    apply in_flat_map in Hr as [k [_ Hr]].
    apply in_map_iff in Hr as [a [<- _]].
    apply filter_In in Ht as [Ht _].
    unfold index_on_table. cbn [j_in j_it]. rewrite (Hnone t Ht).
    apply andb_false_r.
Qed.

Lemma listings_of_unknown_names_witness :
  list_schema_tables Sample.db "sales" = Ok []
  /\ get_table_columns Sample.db "sales" "invoices" = Ok []
  /\ get_table_constraints Sample.db "sales" "invoices" = Ok []
  /\ get_table_indexes Sample.db "sales" "invoices" = Ok [].
Proof.
  apply (listings_of_unknown_names Sample.db "sales" "invoices");
    reflexivity.
Defined.

(** ** The schemas listing *)

Lemma like_pg_pattern_iff (name : string) :
  like name "pg_%" = true <-> matches_pg_pattern name.
Proof.
  rewrite like_pg_pattern. unfold matches_pg_pattern.
  destruct name as [| a [| b [| c rest]]].
  - split; [discriminate | intros (c & rest & H); discriminate].
  - split; [discriminate | intros (c & rest & H); discriminate].
  - split; [discriminate | intros (c & rest & H); discriminate].
  - split.
    + intros H. apply andb_true_iff in H as [Ha Hb].
      apply Ascii.eqb_eq in Ha, Hb. subst. eauto.
    + intros (c' & rest' & H). injection H as <- <- _ _.
      rewrite !Ascii.eqb_refl. reflexivity.
Qed.

Lemma non_system_schema_iff (name : string) :
  non_system_schema name = true
  <-> name <> "pg_catalog" /\ name <> "information_schema"
      /\ name <> "pg_toast" /\ ~ matches_pg_pattern name.
Proof.
  unfold non_system_schema. rewrite andb_true_iff, !negb_true_iff.
  rewrite <- like_pg_pattern_iff. cbn [existsb].
  rewrite !orb_false_iff, !String.eqb_neq.
  destruct (like name "pg_%"); intuition congruence.
Qed.

Lemma list_schemas_names (db : database) :
  column_of "schema_name" (list_schemas db)
  = Ok (map VStr (listed_schema_names db)).
Proof.
  unfold column_of, list_schemas, listed_schema_names. cbn [bind].
  rewrite map_map. apply mapM_map_ok. intros r _. reflexivity.
Qed.

(** X5: the schemas listing returns a name exactly when
    [information_schema.schemata] holds it, [pg_namespace] has a row for
    it, it is none of [pg_catalog], [information_schema], [pg_toast], and
    it is not [pg] followed by one or more characters of any kind: the
    underscore of the pattern is a wildcard. *)
Theorem list_schemas_membership (db : database) (name : string) :
  column_of "schema_name" (list_schemas db)
  = Ok (map VStr (listed_schema_names db))
  /\ (In name (listed_schema_names db)
      <-> In name (map schema_name (schemata db))
          /\ In name (map nspname (pg_namespace db))
          /\ name <> "pg_catalog" /\ name <> "information_schema"
          /\ name <> "pg_toast" /\ ~ matches_pg_pattern name).
Proof.
  split; [apply list_schemas_names |].
  unfold listed_schema_names, schemas_rows, schemas_from.
  rewrite in_map_iff. split.
  - intros ([s n] & <- & Hr). cbn [fst].
    apply order_by_In, filter_In in Hr as [Hr Hsys]. cbn [fst] in Hsys.
    apply in_flat_map in Hr as (s' & Hs & Hr).
    apply in_map_iff in Hr as (n' & E & Hn). injection E as -> ->.
    apply filter_In in Hn as [Hn En]. apply String.eqb_eq in En.
    split; [apply in_map, Hs |].
    split; [rewrite <- En; apply in_map, Hn |].
    apply non_system_schema_iff, Hsys.
  - intros (Hs & Hn & Hsys).
    apply in_map_iff in Hs as (s & <- & Hs).
    apply in_map_iff in Hn as (n & En & Hn).
    exists (s, n). split; [reflexivity |].
    apply order_by_In, filter_In. split.
    + apply in_flat_map. exists s. split; [exact Hs |].
      apply in_map, filter_In. split; [exact Hn |].
      apply String.eqb_eq, En.
    + apply non_system_schema_iff. exact Hsys.
Qed.

Lemma Sorted_map {A B} (f : A -> B) (R : B -> B -> Prop) (l : list A) :
  Sorted (fun a b => R (f a) (f b)) l -> Sorted R (map f l).
Proof.
  intros H. induction H as [| a l Hs IH Hhd]; simpl; constructor.
  - exact IH.
  - destruct Hhd; simpl; constructor. assumption.
Qed.

(** A WHERE clause keeps a key of the rows a key. *)
Lemma where_keeps_key {R K} (key : R -> K) (cond : R -> bool)
  (rows : list R) :
  NoDup (map key rows) -> NoDup (map key (filter cond rows)).
Proof.
  induction rows as [| r rows IH]; simpl; intros Hkey; [constructor |].
  apply NoDup_cons_iff in Hkey as [Hr Hrows].
  destruct (cond r); simpl; [| exact (IH Hrows)].
  apply NoDup_cons; [| exact (IH Hrows)].
  intros Hin. apply Hr.
  apply in_map_iff in Hin as (r' & E & Hr').
  apply filter_In in Hr' as [Hr' _]. rewrite <- E. apply in_map, Hr'.
Qed.

(** A join that finds at most one partner per row keeps a key of the
    rows a key. *)
Lemma NoDup_map_flat_map {A B K} (f : A -> K) (h : B -> K)
  (g : A -> list B) (l : list A) :
  NoDup (map f l) ->
  (forall x, g x = [] \/ exists y, g x = [y] /\ h y = f x) ->
  NoDup (map h (flat_map g l)).
Proof.
  intros Hnd Hg.
  assert (Hin : forall l' k, In k (map h (flat_map g l')) -> In k (map f l')).
  { induction l' as [| x l' IH]; simpl; intros k Hk; [exact Hk |].
    rewrite map_app in Hk. apply in_app_or in Hk as [Hk | Hk].
    - destruct (Hg x) as [E | (y & E & Ey)]; rewrite E in Hk; simpl in Hk.
      + contradiction.
      + destruct Hk as [<- | []]. left. symmetry. exact Ey.
    - right. apply IH, Hk. }
  induction l as [| x l IH]; simpl.
  - constructor.
  - inversion Hnd as [| ? ? Hx Hl]; subst. rewrite map_app.
    destruct (Hg x) as [E | (y & E & Ey)]; rewrite E; simpl.
    + apply IH, Hl.
    + constructor; [| apply IH, Hl].
      rewrite Ey. intros H. apply Hx, Hin, H.
Qed.

(** X6: the schemas listing is in ascending byte order of the names, and
    where [information_schema.schemata] and [pg_namespace] hold a name at
    most once it returns no schema twice. *)
Theorem list_schemas_sorted_once (db : database) :
  nodupb String.eqb (map schema_name (schemata db)) = true ->
  nodupb String.eqb (map nspname (pg_namespace db)) = true ->
  column_of "schema_name" (list_schemas db)
  = Ok (map VStr (listed_schema_names db))
  /\ Sorted (fun a b => String.leb a b = true) (listed_schema_names db)
  /\ NoDup (listed_schema_names db).
Proof.
  intros Hs Hn. apply nodupb_string in Hs, Hn.
  split; [apply list_schemas_names |]. split.
  - unfold listed_schema_names, schemas_rows.
    apply Sorted_map with (R := fun a b => String.leb a b = true).
    apply order_by_sorted. intros a b. apply String.leb_total.
  - unfold listed_schema_names, schemas_rows.
    eapply Permutation_NoDup.
    + apply Permutation_map, Permutation_sym, order_by_perm.
    + apply where_keeps_key
        with (key := fun r : schemata_row * pg_namespace_row =>
                     schema_name (fst r)).
      unfold schemas_from.
      apply NoDup_map_flat_map with (f := schema_name); [exact Hs |].
      intros s.
      rewrite (filter_unique nspname _ _ Hn).
      * destruct (find _ (pg_namespace db)) as [n |]; simpl.
        -- right. exists (s, n). split; reflexivity.
        -- left. reflexivity.
      * intros x y Hx Hy. apply String.eqb_eq in Hx, Hy. congruence.
Qed.

Lemma list_schemas_sorted_once_witness :
  Sorted (fun a b => String.leb a b = true) (listed_schema_names Sample.db)
  /\ NoDup (listed_schema_names Sample.db).
Proof.
  apply (list_schemas_sorted_once Sample.db); reflexivity.
Defined.

(** ** The document against the listings *)

Lemma db_info_returns_resolved (db : database) (doc : value) :
  db_info db = Ok doc -> visited_casts_resolve db = true.
Proof.
  rewrite db_info_run.
  destruct (visited_casts_resolve db); [reflexivity | discriminate].
Qed.

(** X7: whenever [db_info] returns, the schema entries of the document
    are, in order, the rows of the schemas listing: the same names and the
    same descriptions. *)
Theorem db_info_lists_schemas (db : database) (doc : value) :
  db_info db = Ok doc ->
  exists entries,
    getitem doc "schemas" = Ok (VList entries)
    /\ mapM (fun e => getitem e "name") entries
       = column_of "schema_name" (list_schemas db)
    /\ mapM (fun e => getitem e "description") entries
       = column_of "description" (list_schemas db).
Proof.
  intros Hdoc. apply db_info_returns_document in Hdoc. subst doc.
  exists (map (schema_entry db) (schemas_rows db)).
  split; [reflexivity |].
  unfold column_of, list_schemas. cbn [bind].
  split.
  - rewrite (mapM_map_ok _ (schema_entry db)
               (fun r => VStr (schema_name (fst r))))
      by (intros r _; reflexivity).
    rewrite (mapM_map_ok _ (schemas_select db)
               (fun r => VStr (schema_name (fst r))))
      by (intros r _; reflexivity).
    reflexivity.
  - rewrite (mapM_map_ok _ (schema_entry db)
               (fun r => opt_str (obj_description db (nsp_oid (snd r)))))
      by (intros r _; reflexivity).
    rewrite (mapM_map_ok _ (schemas_select db)
               (fun r => opt_str (obj_description db (nsp_oid (snd r)))))
      by (intros r _; reflexivity).
    reflexivity.
Qed.

Lemma db_info_lists_schemas_witness :
  exists entries,
    getitem (document Sample.db) "schemas" = Ok (VList entries)
    /\ mapM (fun e => getitem e "name") entries
       = column_of "schema_name" (list_schemas Sample.db)
    /\ mapM (fun e => getitem e "description") entries
       = column_of "description" (list_schemas Sample.db).
Proof.
  apply (db_info_lists_schemas Sample.db (document Sample.db)).
  vm_compute. reflexivity.
Defined.

(** X8: whenever [db_info] returns, every schema entry of the document
    holds, in order, the tables that the tables listing returns for that
    schema, with the same descriptions, and its [row_count] is the
    listing's [total_rows]. *)
Theorem db_info_lists_tables (db : database) (doc : value) :
  db_info db = Ok doc ->
  exists entries,
    getitem doc "schemas" = Ok (VList entries)
    /\ Forall (fun schema_info =>
         exists (name : string) (schema_tables : list value),
           getitem schema_info "name" = Ok (VStr name)
           /\ getitem schema_info "tables" = Ok (VList schema_tables)
           /\ mapM (fun t => getitem t "name") schema_tables
              = column_of "table_name" (list_schema_tables db name)
           /\ mapM (fun t => getitem t "description") schema_tables
              = column_of "description" (list_schema_tables db name)
           /\ mapM (fun t => getitem t "row_count") schema_tables
              = column_of "total_rows" (list_schema_tables db name))
         entries.
Proof.
  intros Hdoc. pose proof (db_info_returns_resolved db doc Hdoc) as Hres.
  apply db_info_returns_document in Hdoc. subst doc.
  exists (map (schema_entry db) (schemas_rows db)).
  split; [reflexivity |].
  apply Forall_forall. intros e He.
  apply in_map_iff in He as (r & <- & Hr).
  exists (schema_name (fst r)),
    (map (table_entry db (schema_name (fst r)))
       (tables_rows db (schema_name (fst r)))).
  split; [reflexivity |]. split; [reflexivity |].
  unfold visited_casts_resolve in Hres. rewrite forallb_forall in Hres.
  specialize (Hres r Hr). apply andb_true_iff in Hres as [Hres _].
  assert (Hlist : list_schema_tables db (schema_name (fst r))
                  = Ok (map (table_row db "total_rows")
                          (tables_rows db (schema_name (fst r))))).
  { unfold list_schema_tables.
    rewrite (mapM_forallb _ _ (table_row db "total_rows") _
               (fun t _ => tables_select_cases db "total_rows" t)).
    rewrite Hres. reflexivity. }
  rewrite Hlist. unfold column_of. cbn [bind].
  repeat split.
  - rewrite (mapM_map_ok _ (table_entry db (schema_name (fst r)))
               (fun t => VStr (t_table_name t)))
      by (intros t _; reflexivity).
    rewrite (mapM_map_ok _ (table_row db "total_rows")
               (fun t => VStr (t_table_name t)))
      by (intros t _; reflexivity).
    reflexivity.
  - rewrite (mapM_map_ok _ (table_entry db (schema_name (fst r)))
               (fun t => opt_str
                           (obj_description db
                              (resolved_oid db
                                 (format_qualified (t_table_schema t)
                                    (t_table_name t))))))
      by (intros t _; reflexivity).
    rewrite (mapM_map_ok _ (table_row db "total_rows")
               (fun t => opt_str
                           (obj_description db
                              (resolved_oid db
                                 (format_qualified (t_table_schema t)
                                    (t_table_name t))))))
      by (intros t _; reflexivity).
    reflexivity.
  - rewrite (mapM_map_ok _ (table_entry db (schema_name (fst r)))
               (fun t => VInt
                           (pg_stat_get_tuples_inserted db
                              (resolved_oid db
                                 (format_qualified (t_table_schema t)
                                    (t_table_name t))))))
      by (intros t _; reflexivity).
    rewrite (mapM_map_ok _ (table_row db "total_rows")
               (fun t => VInt
                           (pg_stat_get_tuples_inserted db
                              (resolved_oid db
                                 (format_qualified (t_table_schema t)
                                    (t_table_name t))))))
      by (intros t _; reflexivity).
    reflexivity.
Qed.

Lemma db_info_lists_tables_witness :
  exists entries,
    getitem (document Sample.db) "schemas" = Ok (VList entries)
    /\ Forall (fun schema_info =>
         exists (name : string) (schema_tables : list value),
           getitem schema_info "name" = Ok (VStr name)
           /\ getitem schema_info "tables" = Ok (VList schema_tables)
           /\ mapM (fun t => getitem t "name") schema_tables
              = column_of "table_name" (list_schema_tables Sample.db name)
           /\ mapM (fun t => getitem t "description") schema_tables
              = column_of "description" (list_schema_tables Sample.db name)
           /\ mapM (fun t => getitem t "row_count") schema_tables
              = column_of "total_rows" (list_schema_tables Sample.db name))
         entries.
Proof.
  apply (db_info_lists_tables Sample.db (document Sample.db)).
  vm_compute. reflexivity.
Defined.

(** ** The tables listing and the columns facet: outcomes *)

(** X9: the tables listing returns one row per base table of the schema
    (views and other relation kinds are left out), in ascending byte
    order of the names, if the qualified name of each of them resolves;
    if one does not, the listing raises the error of the failed
    statement. *)
Theorem list_schema_tables_outcome (db : database) (schema : string) :
  list_schema_tables db schema
  = (if forallb (fun t => resolves db (t_table_schema t) (t_table_name t))
          (tables_rows db schema)
     then Ok (map (table_row db "total_rows") (tables_rows db schema))
     else Raise QueryExecutionError)
  /\ Permutation (tables_rows db schema) (base_tables db schema)
  /\ Sorted (fun a b => String.leb (t_table_name a) (t_table_name b) = true)
       (tables_rows db schema).
Proof.
  split; [| split].
  - unfold list_schema_tables. apply mapM_forallb.
    intros t _. apply tables_select_cases.
  - apply order_by_perm.
  - apply order_by_sorted. intros a b. apply String.leb_total.
Qed.

Lemma order_by_match {A B} (leb : A -> A -> bool) (l : list A) (a b : B) :
  match order_by leb l with [] => a | _ :: _ => b end
  = match l with [] => a | _ :: _ => b end.
Proof.
  destruct l as [| x l]; simpl; [reflexivity |].
  destruct (order_by leb l) as [| y l']; simpl; [reflexivity |].
  destruct (leb x y); reflexivity.
Qed.

Lemma columns_rows_resolve (db : database) (schema table : string) :
  forallb (fun c => resolves db (c_table_schema c) (c_table_name c))
    (columns_rows db schema table)
  = match declared_columns db schema table with
    | [] => true
    | _ :: _ => resolves db schema table
    end.
Proof.
  assert (H : forall l,
             (forall c, In c l ->
                        c_table_schema c = schema /\ c_table_name c = table) ->
             forallb (fun c => resolves db (c_table_schema c)
                                 (c_table_name c)) l
             = match l with [] => true | _ :: _ => resolves db schema table
               end).
  { induction l as [| c l IH]; intros Hl; simpl; [reflexivity |].
    destruct (Hl c (or_introl eq_refl)) as [-> ->].
    rewrite IH by (intros c' Hc'; apply Hl; right; exact Hc').
    destruct l; [apply andb_true_r | apply andb_diag]. }
  rewrite H by apply columns_rows_declared.
  apply order_by_match.
Qed.

(** X10: the columns facet fails exactly when the table has column rows
    and its qualified name does not resolve; a table without column rows
    gives the empty list whether or not the name resolves, and a table
    whose name resolves gives one row per column row. *)
Theorem get_table_columns_outcome (db : database) (schema table : string) :
  get_table_columns db schema table
  = match declared_columns db schema table with
    | [] => Ok []
    | _ :: _ =>
        if resolves db schema table
        then Ok (map (column_row db) (columns_rows db schema table))
        else Raise QueryExecutionError
    end.
Proof.
  unfold get_table_columns.
  rewrite (mapM_forallb _ _ (column_row db) _
             (fun c _ => columns_select_cases db c)).
  rewrite columns_rows_resolve.
  destruct (declared_columns db schema table) eqn:E; [| reflexivity].
  unfold columns_rows. unfold declared_columns in E. rewrite E.
  reflexivity.
Qed.

(** ** Order of the constraint and index rows *)

Lemma contype_conname_leb_total (a b : ascii * string) :
  contype_conname_leb a b = true \/ contype_conname_leb b a = true.
Proof.
  unfold contype_conname_leb, Ascii.ltb.
  destruct (Ascii.compare (fst a) (fst b)) eqn:E.
  - apply Ascii.compare_eq_iff in E. rewrite <- E, Ascii.eqb_refl.
    destruct (String.leb_total (snd a) (snd b)) as [H | H]; rewrite H;
      [left | right]; apply orb_true_r.
  - left. reflexivity.
  - right. rewrite Ascii.compare_antisym, E. reflexivity.
Qed.

(** X11: in a catalog with unique keys the constraints facet returns
    exactly one row for each constraint of the table, ordered by the type
    code and, within one type, by the constraint name. *)
Theorem get_table_constraints_ordered (db : database)
  (schema table : string) :
  catalog_keys_unique db = true ->
  get_table_constraints db schema table
  = Ok (map (table_constraint_row db)
          (constraints_of_table db schema table))
  /\ Permutation (constraints_of_table db schema table)
       (filter (constraint_on db schema table) (pg_constraint db))
  /\ Sorted (fun a b =>
               Ascii.ltb (contype a) (contype b)
               || (Ascii.eqb (contype a) (contype b)
                   && String.leb (conname a) (conname b)) = true)
       (constraints_of_table db schema table).
Proof.
  intros Hkeys. split; [apply get_table_constraints_rows, Hkeys |].
  split; [apply order_by_perm |].
  apply (order_by_sorted _ constraint_leb).
  intros a b. apply contype_conname_leb_total.
Qed.

Lemma get_table_constraints_ordered_witness :
  column_of "constraint_name"
    (get_table_constraints Sample.db "public" "users")
  = Ok [VStr "users_sane"; VStr "users_pkey"; VStr "users_email_key"].
Proof.
  destruct (get_table_constraints_ordered Sample.db "public" "users"
              eq_refl) as [-> _].
  reflexivity.
Defined.

Lemma key_column_name_missing (db : database) (relid num : Z) :
  (forall a, In a (pg_attribute db) -> attrelid a = relid -> attnum a <> num)
  -> key_column_name db relid num = VNone.
Proof.
  intros H. unfold key_column_name, attribute_of.
  destruct (find _ (pg_attribute db)) as [a |] eqn:E; [| reflexivity].
  apply find_some in E as [Hin E]. unfold attribute_matches in E.
  apply andb_true_iff in E as [E1 E2]. apply Z.eqb_eq in E1, E2.
  exfalso. apply (H a Hin E1 E2).
Qed.

(** X12: in a catalog with unique keys the indexes facet returns exactly
    one row for each index of the table, in ascending byte order of the
    index names.  For an index whose key array has entries, [column_names]
    has one element per entry, in the order of the array: the name of the
    table's attribute with that number, or NULL where the table has none
    (the entry 0 of an expression column). *)
Theorem get_table_indexes_follow_key (db : database) (schema table : string)
  (ix : pg_index_row) (k : Z) (ks : list Z) :
  catalog_keys_unique db = true ->
  In ix (pg_index db) ->
  index_on db schema table ix = true ->
  indkey ix = Some (k :: ks) ->
  get_table_indexes db schema table
  = Ok (map (index_facet_row db) (indexes_of_table db schema table))
  /\ Permutation (indexes_of_table db schema table)
       (filter (index_on db schema table) (pg_index db))
  /\ Sorted (fun a b => String.leb (index_name db a) (index_name db b) = true)
       (indexes_of_table db schema table)
  /\ getitem (index_facet_row db ix) "column_names"
     = Ok (VList (map (key_column_name db (indrelid ix)) (k :: ks)))
  /\ (forall num,
        (forall a, In a (pg_attribute db) ->
                   attrelid a = indrelid ix -> attnum a <> num) ->
        key_column_name db (indrelid ix) num = VNone).
Proof.
  intros Hkeys Hin Hon Hkey.
  split; [apply get_table_indexes_rows, Hkeys |].
  split; [apply order_by_perm |].
  split.
  - apply (order_by_sorted _
             (fun a b => String.leb (index_name db a) (index_name db b))).
    intros a b. apply String.leb_total.
  - split.
    + unfold index_facet_row, index_key_column_names. rewrite Hkey.
      reflexivity.
    + intros num. apply key_column_name_missing.
Qed.

Lemma get_table_indexes_follow_key_witness :
  column_of "column_names" (get_table_indexes Sample.db "public" "order_items")
  = Ok [VList [VStr "order_no"; VStr "line"]].
Proof.
  destruct (get_table_indexes_follow_key Sample.db "public" "order_items"
              (Sample.idx 16405 16400 [1; 2] true true) 1 [2]
              eq_refl (or_intror (or_intror (or_introl eq_refl)))
              eq_refl eq_refl) as [-> _].
  reflexivity.
Defined.

(** ** The detail of an index *)

(** The statement of the index detail is rejected on every call: its
    call of [pg_get_indexdef] hands the ordinality column, a [bigint], to
    a parameter declared [integer]. *)
Lemma get_index_details_rejected (db : database)
  (schema table index : string) :
  get_index_details db schema table index = Raise QueryExecutionError.
Proof. reflexivity. Qed.

(** X13: in a catalog with unique keys, the indexes facet returns a row
    for every index of the table, under the index's name; the detail
    request for that very name raises the error of a rejected statement
    instead of returning the index. *)
Theorem get_index_details_of_listed_index (db : database)
  (schema table : string) (ix : pg_index_row) :
  catalog_keys_unique db = true ->
  In ix (pg_index db) ->
  index_on db schema table ix = true ->
  exists rows,
    get_table_indexes db schema table = Ok rows
    /\ In (index_facet_row db ix) rows
    /\ getitem (index_facet_row db ix) "index_name"
       = Ok (VStr (index_name db ix))
    /\ get_index_details db schema table (index_name db ix)
       = Raise QueryExecutionError.
Proof.
  intros Hkeys Hin Hon.
  exists (map (index_facet_row db) (indexes_of_table db schema table)).
  split; [apply get_table_indexes_rows, Hkeys |].
  split.
  - apply in_map. unfold indexes_of_table.
    apply order_by_In, filter_In. split; assumption.
  - split; [reflexivity | apply get_index_details_rejected].
Qed.

Lemma get_index_details_of_listed_index_witness :
  column_of "index_name" (get_table_indexes Sample.db "public" "order_items")
  = Ok [VStr "order_items_pkey"]
  /\ get_index_details Sample.db "public" "order_items" "order_items_pkey"
     = Raise QueryExecutionError.
Proof.
  destruct (get_index_details_of_listed_index Sample.db "public"
              "order_items" (Sample.idx 16405 16400 [1; 2] true true)
              eq_refl (or_intror (or_intror (or_introl eq_refl))) eq_refl)
    as (rows & Hrows & _ & _ & Hraise).
  split; [reflexivity | exact Hraise].
Defined.

(** ** The detail of a constraint *)

(** Among rows with distinct names, selecting by the name of one of them
    selects that row alone. *)
Lemma filter_by_unique_name {A} (f : A -> string) (q : A -> bool)
  (l : list A) (x : A) :
  NoDup (map f (filter q l)) -> In x l -> q x = true ->
  filter (fun y => q y && String.eqb (f y) (f x)) l = [x].
Proof.
  induction l as [| y l IH]; simpl; intros Hnd Hin Hq; [contradiction |].
  destruct (q y) eqn:Ey; simpl in *.
  - inversion Hnd as [| ? ? Hy Hl]; subst.
    destruct Hin as [-> | Hin].
    + rewrite String.eqb_refl. f_equal. apply filter_nil. intros z Hz.
      destruct (q z) eqn:Ez; [| reflexivity]. simpl.
      apply String.eqb_neq. intros E. apply Hy. rewrite <- E.
      apply in_map, filter_In. auto.
    + destruct (String.eqb (f y) (f x)) eqn:E.
      * apply String.eqb_eq in E. exfalso. apply Hy. rewrite E.
        apply in_map, filter_In. auto.
      * apply IH; assumption.
  - destruct Hin as [-> | Hin]; [congruence |]. apply IH; assumption.
Qed.

Lemma with_ordinality_length (l : list Z) (i : Z) :
  List.length (with_ordinality i l) = List.length l.
Proof.
  revert i. induction l as [| x l IH]; intros i; simpl; [reflexivity |].
  rewrite IH. reflexivity.
Qed.

Lemma flat_map_single {A B} (f : A -> B) (l : list A) :
  flat_map (fun x => [f x]) l = map f l.
Proof.
  induction l as [| x l IH]; simpl; [reflexivity |].
  rewrite IH. reflexivity.
Qed.

(** Two unnests, each followed by its lookup, give every entry of the one
    array with every entry of the other. *)
Lemma product_join {R} (attrs : list pg_attribute_row)
  (p1 p2 : option (Z * Z) -> pg_attribute_row -> bool)
  (mk : option (Z * Z) -> option pg_attribute_row ->
        option (Z * Z) -> option pg_attribute_row -> R)
  (us us2 : list (option (Z * Z))) :
  (forall u, filter (p1 u) attrs = option_list (find (p1 u) attrs)) ->
  (forall u, filter (p2 u) attrs = option_list (find (p2 u) attrs)) ->
  flat_map (fun u =>
    flat_map (fun col =>
      flat_map (fun u2 =>
        map (fun ref_col => mk u col u2 ref_col)
          (left_join (filter (p2 u2) attrs)))
        us2)
      (left_join (filter (p1 u) attrs)))
    us
  = flat_map (fun u =>
      map (fun u2 => mk u (find (p1 u) attrs) u2 (find (p2 u2) attrs)) us2)
      us.
Proof.
  intros H1 H2. induction us as [| u us IH]; simpl; [reflexivity |].
  rewrite H1, left_join_option_list. simpl. rewrite app_nil_r, IH.
  f_equal. clear IH.
  induction us2 as [| u2 us2 IH2]; simpl; [reflexivity |].
  rewrite H2, left_join_option_list, IH2. reflexivity.
Qed.

Lemma find_none {A} (l : list A) : find (fun _ => false) l = None.
Proof. induction l as [| x l IH]; simpl; [reflexivity | exact IH]. Qed.

Section ConstraintDetails.
Variable db : database.
Hypothesis keys_unique : catalog_keys_unique db = true.

Lemma referenced_attribute_lookup (c : pg_constraint_row)
  (u2 : option (Z * Z)) :
  filter (fun a => is_foreign_key c && attribute_matches (confrelid c) u2 a)
    (pg_attribute db)
  = option_list (referenced_attribute_of db c u2).
Proof.
  apply (filter_unique attribute_key);
    [apply (attributes_unique db keys_unique) |].
  intros x y Hx Hy.
  apply andb_true_iff in Hx as [_ Hx], Hy as [_ Hy].
  unfold attribute_matches in *.
  destruct u2 as [[num pos] |]; [| discriminate].
  apply andb_true_iff in Hx as [Hx1 Hx2], Hy as [Hy1 Hy2].
  apply Z.eqb_eq in Hx1, Hx2, Hy1, Hy2.
  unfold attribute_key. congruence.
Qed.

Lemma constraint_details_from_unique :
  constraint_details_from db
  = flat_map (constraint_details_join db) (pg_constraint db).
Proof.
  unfold constraint_details_from. apply flat_map_ext. intros c.
  unfold constraint_details_join.
  rewrite (namespace_lookup db keys_unique).
  destruct (namespace_of db (connamespace c)) as [n |]; simpl;
    [| reflexivity].
  rewrite app_nil_r, (class_lookup db keys_unique (conrelid c)).
  destruct (class_of db (conrelid c)) as [t |]; simpl; [| reflexivity].
  rewrite app_nil_r, (class_lookup db keys_unique (confrelid c)),
    left_join_option_list.
  simpl. rewrite app_nil_r.
  apply (product_join (pg_attribute db)
           (attribute_matches (rel_oid t))
           (fun u2 a => is_foreign_key c
                        && attribute_matches (confrelid c) u2 a)
           (fun u col u2 ref_col =>
              {| j_c := c; j_n := n; j_t := t;
                 j_ref_table := class_of db (confrelid c); j_nr := None;
                 j_u := u; j_col := col; j_u2 := u2;
                 j_ref_col := ref_col |})).
  - intros u. apply (attribute_lookup db keys_unique).
  - intros u. apply referenced_attribute_lookup.
Qed.

Lemma referenced_key_positions_not_nil (c : pg_constraint_row) :
  referenced_key_positions c <> [].
Proof. apply left_join_not_nil. Qed.

Lemma constraint_details_join_rows (schema table : string)
  (c : pg_constraint_row) :
  constraint_on db schema table c = true ->
  constraint_details_join db c <> []
  /\ Forall (fun r => table_constraints_key r = table_constraint_key db c
                      /\ on_table schema table r = true
                      /\ j_c r = c)
       (constraint_details_join db c).
Proof.
  unfold constraint_on, constraint_details_join. intros Hon.
  destruct (namespace_of db (connamespace c)) as [n |]; [| discriminate].
  destruct (class_of db (conrelid c)) as [t |]; [| discriminate].
  split.
  - pose proof (left_join_not_nil (unnest_with_ordinality (conkey c))) as Hu.
    pose proof (referenced_key_positions_not_nil c) as Hu2.
    destruct (left_join (unnest_with_ordinality (conkey c))) as [| u us];
      [congruence |].
    destruct (referenced_key_positions c) as [| u2 us2]; [congruence |].
    discriminate.
  - apply Forall_forall. intros r Hr.
    apply in_flat_map in Hr as (u & _ & Hr).
    apply in_map_iff in Hr as (u2 & <- & _).
    repeat split. exact Hon.
Qed.

Lemma constraint_details_where (schema table name : string) :
  filter (fun r => on_table schema table r
                   && String.eqb (conname (j_c r)) name)
    (constraint_details_from db)
  = flat_map (constraint_details_join db)
      (filter (constraint_named db schema table name) (pg_constraint db)).
Proof.
  rewrite constraint_details_from_unique, filter_flat_map.
  apply flat_map_filter_parent. intros c _.
  unfold constraint_named.
  destruct (constraint_on db schema table c) eqn:Hon.
  - destruct (constraint_details_join_rows schema table c Hon) as [_ Hrows].
    apply filter_const. intros r Hr.
    rewrite Forall_forall in Hrows.
    destruct (Hrows r Hr) as (_ & -> & ->). reflexivity.
  - simpl. apply filter_nil. intros r Hr.
    unfold constraint_on in Hon. unfold constraint_details_join in Hr.
    destruct (namespace_of db (connamespace c)) as [n |]; [| contradiction].
    destruct (class_of db (conrelid c)) as [t |]; [| contradiction].
    apply in_flat_map in Hr as (u & _ & Hr).
    apply in_map_iff in Hr as (u2 & <- & _).
    unfold on_table. cbn [j_n j_t]. rewrite Hon. reflexivity.
Qed.

Lemma constraint_details_grouped (schema table name : string) :
  group_by con_key_eqb table_constraints_key
    (filter (fun r => on_table schema table r
                      && String.eqb (conname (j_c r)) name)
       (constraint_details_from db))
  = map (fun c => (table_constraint_key db c, constraint_details_join db c))
      (filter (constraint_named db schema table name) (pg_constraint db)).
Proof.
  rewrite constraint_details_where.
  apply group_by_parents.
  - apply con_key_eqb_refl.
  - intros c Hc. apply filter_In in Hc as [_ Hc].
    unfold constraint_named in Hc. apply andb_true_iff in Hc as [Hon _].
    destruct (constraint_details_join_rows schema table c Hon)
      as [Hne Hrows].
    split; [exact Hne |].
    eapply Forall_impl; [| exact Hrows]. intros r (H & _). exact H.
  - apply (ForallOrdPairs_impl
             (fun a b => Z.eqb (con_oid a) (con_oid b) = false)).
    + intros a b H. unfold con_key_eqb. simpl. rewrite H.
      rewrite andb_false_r. reflexivity.
    + apply distinct_keys_filter, (constraints_unique db keys_unique).
Qed.

(** The constraint detail returns one row per constraint of the table
    that bears the name. *)
Lemma get_constraint_details_rows (schema table name : string) :
  get_constraint_details db schema table name
  = Ok (map (constraint_details_row db)
          (filter (constraint_named db schema table name)
             (pg_constraint db))).
Proof.
  unfold get_constraint_details. rewrite constraint_details_grouped.
  apply mapM_map_ok. intros c _.
  unfold constraint_details_select.
  rewrite (referenced_table_expr_ok db keys_unique). reflexivity.
Qed.
End ConstraintDetails.

Lemma constraint_details_join_plain (db : database) (c : pg_constraint_row) :
  is_foreign_key c = false ->
  constraint_details_join db c = table_constraint_join db c.
Proof.
  intros Hfk.
  unfold constraint_details_join, table_constraint_join,
    table_constraint_rows, referenced_key_positions,
    referenced_attribute_of.
  rewrite Hfk.
  destruct (namespace_of db (connamespace c)) as [n |]; [| reflexivity].
  destruct (class_of db (conrelid c)) as [t |]; [| reflexivity].
  rewrite (filter_nil (fun _ => false)) by reflexivity.
  cbn [left_join map andb].
  rewrite find_none. apply flat_map_single.
Qed.

Lemma constraint_named_alone (db : database) (schema table : string)
  (c : pg_constraint_row) :
  constraint_names_unique db schema table = true ->
  In c (pg_constraint db) ->
  constraint_on db schema table c = true ->
  filter (constraint_named db schema table (conname c)) (pg_constraint db)
  = [c].
Proof.
  intros Hnames Hin Hon. unfold constraint_named.
  apply (filter_by_unique_name conname (constraint_on db schema table)
           (pg_constraint db) c (nodupb_string _ Hnames) Hin Hon).
Qed.

(** X14: in a catalog with unique keys where the constraint names of the
    table are unique, the detail request for a constraint of the table
    that is not a foreign key returns exactly one row: the fields of the
    constraint's row in the constraints facet, in the same order, followed
    by [referenced_columns] with the value NULL. *)
Theorem get_constraint_details_plain (db : database) (schema table : string)
  (c : pg_constraint_row) :
  catalog_keys_unique db = true ->
  constraint_names_unique db schema table = true ->
  In c (pg_constraint db) ->
  constraint_on db schema table c = true ->
  is_foreign_key c = false ->
  exists rows,
    get_table_constraints db schema table = Ok rows
    /\ In (table_constraint_row db c) rows
    /\ get_constraint_details db schema table (conname c)
       = Ok [VDict (items (table_constraint_row db c)
                    ++ [("referenced_columns", VNone)])].
Proof.
  intros Hkeys Hnames Hin Hon Hfk.
  exists (map (table_constraint_row db)
            (constraints_of_table db schema table)).
  split; [apply get_table_constraints_rows, Hkeys |].
  split; [apply in_map, constraint_of_table_listed; assumption |].
  rewrite (get_constraint_details_rows db Hkeys).
  rewrite (constraint_named_alone db schema table c Hnames Hin Hon).
  cbn [map]. do 2 f_equal.
  unfold constraint_details_row, table_constraint_row. cbn [items app].
  rewrite (constraint_details_join_plain db c Hfk).
  rewrite (column_names_of_join db schema table c Hon).
  unfold is_foreign_key in Hfk. rewrite Hfk. reflexivity.
Qed.

Lemma get_constraint_details_plain_witness :
  get_constraint_details Sample.db "public" "users" "users_email_key"
  = Ok [VDict [("constraint_name", VStr "users_email_key");
               ("constraint_type", VStr "u");
               ("constraint_type_desc", VStr "UNIQUE");
               ("description", VNone);
               ("definition", VNone);
               ("referenced_table", VNone);
               ("column_names", VList [VStr "email"]);
               ("referenced_columns", VNone)]].
Proof.
  destruct (get_constraint_details_plain Sample.db "public" "users"
              (Sample.con 16393 "users_email_key" "u" 16385 0 (Some [2])
                 None)
              eq_refl eq_refl (or_intror (or_introl eq_refl)) eq_refl
              eq_refl) as (rows & _ & _ & Hdetail).
  exact Hdetail.
Defined.

Lemma filter_true {A} (l : list A) : filter (fun _ => true) l = l.
Proof.
  induction l as [| x l IH]; simpl; [reflexivity |].
  rewrite IH. reflexivity.
Qed.

Lemma product_length {A B C} (g : A -> B -> C) (l1 : list A) (l2 : list B) :
  List.length (flat_map (fun a => map (g a) l2) l1)
  = (List.length l1 * List.length l2)%nat.
Proof.
  induction l1 as [| a l1 IH]; simpl; [reflexivity |].
  rewrite length_app, length_map, IH. reflexivity.
Qed.

Lemma array_agg_length {R} (pos : R -> option Z) (e : R -> value)
  (rows : list R) :
  exists l, array_agg pos e rows = VList l
            /\ List.length l = List.length rows.
Proof.
  unfold array_agg. eexists. split; [reflexivity |].
  rewrite length_map. apply order_by_length.
Qed.

(** X15: in a catalog with unique keys where the constraint names of the
    table are unique, the detail request for a foreign key of the table
    returns exactly one row.  Its [column_names] and its
    [referenced_columns] each have as many elements as the product of the
    numbers of entries of the two key arrays; for a foreign key over one
    column they are that column and the column it references. *)
Theorem get_constraint_details_foreign_key (db : database)
  (schema table : string) (c : pg_constraint_row) (k f : Z)
  (ks fs : list Z) :
  catalog_keys_unique db = true ->
  constraint_names_unique db schema table = true ->
  In c (pg_constraint db) ->
  constraint_on db schema table c = true ->
  is_foreign_key c = true ->
  conkey c = Some (k :: ks) ->
  confkey c = Some (f :: fs) ->
  exists row names refs,
    get_constraint_details db schema table (conname c) = Ok [row]
    /\ getitem row "column_names" = Ok (VList names)
    /\ getitem row "referenced_columns" = Ok (VList refs)
    /\ List.length names
       = (List.length (k :: ks) * List.length (f :: fs))%nat
    /\ List.length refs
       = (List.length (k :: ks) * List.length (f :: fs))%nat
    /\ (ks = [] -> fs = [] ->
        names = [key_column_name db (conrelid c) k]
        /\ refs = [key_column_name db (confrelid c) f]).
Proof.
  intros Hkeys Hnames Hin Hon Hfk Hkey Hfkey.
  assert (Hjoin :
            exists n t,
              rel_oid t = conrelid c
              /\ constraint_details_join db c
                 = flat_map (fun u =>
                     map (fun u2 =>
                            {| j_c := c; j_n := n; j_t := t;
                               j_ref_table := class_of db (confrelid c);
                               j_nr := None; j_u := u;
                               j_col := attribute_of db (rel_oid t) u;
                               j_u2 := u2;
                               j_ref_col :=
                                 referenced_attribute_of db c u2 |})
                       (map Some (with_ordinality 1 (f :: fs))))
                     (map Some (with_ordinality 1 (k :: ks)))).
  { unfold constraint_on in Hon.
    unfold constraint_details_join, referenced_key_positions.
    rewrite Hkey, Hfkey, Hfk.
    destruct (namespace_of db (connamespace c)) as [n |]; [| discriminate].
    destruct (class_of db (conrelid c)) as [t |] eqn:Et; [| discriminate].
    apply class_of_oid in Et as [Et _]. exists n, t.
    split; [exact Et |].
    rewrite (filter_true (unnest_with_ordinality (Some (f :: fs)))).
    reflexivity. }
  destruct Hjoin as (n & t & Et & Hjoin).
  destruct (array_agg_length (fun r => attposition (j_u r))
              (fun r => attname_value (j_col r))
              (constraint_details_join db c)) as (names & Hn & Hnl).
  destruct (array_agg_length (fun r => attposition (j_u2 r))
              (fun r => attname_value (j_ref_col r))
              (constraint_details_join db c)) as (refs & Hr & Hrl).
  exists (constraint_details_row db c), names, refs.
  split.
  { rewrite (get_constraint_details_rows db Hkeys).
    rewrite (constraint_named_alone db schema table c Hnames Hin Hon).
    reflexivity. }
  unfold constraint_details_row.
  cbn [getitem dict_get String.eqb Ascii.eqb Bool.eqb].
  unfold is_foreign_key in Hfk. rewrite Hfk.
  unfold column_names_agg, referenced_columns_agg. rewrite Hn, Hr.
  split; [reflexivity |]. split; [reflexivity |].
  assert (Hlen : List.length (constraint_details_join db c)
                 = (List.length (k :: ks) * List.length (f :: fs))%nat).
  { rewrite Hjoin, product_length, !length_map, !with_ordinality_length.
    reflexivity. }
  split; [congruence |]. split; [congruence |].
  intros -> ->. rewrite Hjoin in Hn, Hr.
  cbn in Hn, Hr. injection Hn as <-. injection Hr as <-.
  unfold key_column_name. rewrite Et. split; [reflexivity |].
  unfold referenced_attribute_of, attribute_of.
  fold (is_foreign_key c). 
  replace (is_foreign_key c) with true
    by (symmetry; unfold is_foreign_key; exact Hfk).
  reflexivity.
Qed.

Lemma get_constraint_details_foreign_key_witness :
  exists row names refs,
    get_constraint_details Sample.db "public" "shipments"
      "shipments_item_fkey" = Ok [row]
    /\ getitem row "column_names" = Ok (VList names)
    /\ getitem row "referenced_columns" = Ok (VList refs)
    /\ List.length names = 4%nat
    /\ List.length refs = 4%nat.
Proof.
  destruct (get_constraint_details_foreign_key Sample.db "public"
              "shipments"
              (Sample.con 16415 "shipments_item_fkey" "f" 16410 16400
                 (Some [2; 3]) (Some [1; 2]))
              2 1 [3] [2] eq_refl eq_refl
              (or_intror (or_intror (or_intror (or_intror
                 (or_introl eq_refl)))))
              eq_refl eq_refl eq_refl eq_refl)
    as (row & names & refs & H1 & H2 & H3 & H4 & H5 & _).
  exists row, names, refs. repeat split; assumption.
Defined.

(** ** The foreign keys of a table *)

Lemma foreign_keys_key_eqb_refl (k : string * option string * option string) :
  foreign_keys_key_eqb k k = true.
Proof.
  destruct k as [[n s] t]. unfold foreign_keys_key_eqb.
  rewrite String.eqb_refl.
  rewrite !(opt_eqb_refl String.eqb _ String.eqb_refl). reflexivity.
Qed.

Lemma filter_filter_imp {A} (p q : A -> bool) (l : list A) :
  (forall x, q x = true -> p x = true) ->
  filter q l = filter q (filter p l).
Proof.
  intros H. induction l as [| x l IH]; simpl; [reflexivity |].
  destruct (q x) eqn:Eq.
  - rewrite (H x Eq). simpl. rewrite Eq, IH. reflexivity.
  - destruct (p x); simpl; [rewrite Eq |]; exact IH.
Qed.

Lemma foreign_key_listed_on (db : database) (schema table : string)
  (c : pg_constraint_row) :
  foreign_key_listed db schema table c = true ->
  constraint_on db schema table c = true.
Proof.
  unfold foreign_key_listed, foreign_key_parents, constraint_on.
  destruct (namespace_of db (connamespace c)) as [n |]; [| discriminate].
  destruct (class_of db (conrelid c)) as [t |]; [| discriminate].
  destruct (class_of db (confrelid c)) as [ref |]; [| discriminate].
  destruct (namespace_of db (relnamespace ref)); [| discriminate].
  intros H. apply andb_true_iff in H as [H _]. exact H.
Qed.

Section ForeignKeys.
Variable db : database.
Hypothesis keys_unique : catalog_keys_unique db = true.

Lemma foreign_keys_from_unique :
  foreign_keys_from db = flat_map (foreign_keys_join db) (pg_constraint db).
Proof.
  unfold foreign_keys_from. apply flat_map_ext. intros c.
  unfold foreign_keys_join, foreign_key_parents.
  rewrite (namespace_lookup db keys_unique (connamespace c)).
  destruct (namespace_of db (connamespace c)) as [n |]; simpl;
    [| reflexivity].
  rewrite app_nil_r, (class_lookup db keys_unique (conrelid c)).
  destruct (class_of db (conrelid c)) as [t |]; simpl; [| reflexivity].
  rewrite app_nil_r, (class_lookup db keys_unique (confrelid c)).
  destruct (class_of db (confrelid c)) as [ref |]; simpl; [| reflexivity].
  rewrite app_nil_r, (namespace_lookup db keys_unique (relnamespace ref)).
  destruct (namespace_of db (relnamespace ref)) as [nr |]; simpl;
    [| reflexivity].
  rewrite app_nil_r.
  apply (product_join (pg_attribute db)
           (attribute_matches (rel_oid t))
           (attribute_matches (confrelid c))
           (fun u col u2 ref_col =>
              {| j_c := c; j_n := n; j_t := t; j_ref_table := Some ref;
                 j_nr := Some nr; j_u := u; j_col := col; j_u2 := u2;
                 j_ref_col := ref_col |})).
  - intros u. apply (attribute_lookup db keys_unique).
  - intros u. apply (attribute_lookup db keys_unique).
Qed.

Lemma foreign_keys_join_rows (c : pg_constraint_row)
  (n : pg_namespace_row) (t ref : pg_class_row) (nr : pg_namespace_row) :
  foreign_key_parents db c = Some (n, t, ref, nr) ->
  foreign_keys_join db c <> []
  /\ Forall (fun r => foreign_keys_key r = foreign_key_parent_key db c
                      /\ j_n r = n /\ j_t r = t /\ j_c r = c)
       (foreign_keys_join db c).
Proof.
  intros Ep. unfold foreign_keys_join, foreign_key_parent_key.
  rewrite Ep. split.
  - pose proof (left_join_not_nil (unnest_with_ordinality (conkey c))) as Hu.
    pose proof (left_join_not_nil (unnest_with_ordinality (confkey c)))
      as Hu2.
    destruct (left_join (unnest_with_ordinality (conkey c))) as [| u us];
      [congruence |].
    destruct (left_join (unnest_with_ordinality (confkey c)))
      as [| u2 us2]; [congruence |].
    discriminate.
  - apply Forall_forall. intros r Hr.
    apply in_flat_map in Hr as (u & _ & Hr).
    apply in_map_iff in Hr as (u2 & <- & _).
    repeat split.
Qed.

Lemma foreign_keys_where (schema table : string) :
  filter (fun r => on_table schema table r
                   && Ascii.eqb (contype (j_c r)) "f")
    (foreign_keys_from db)
  = flat_map (foreign_keys_join db)
      (filter (foreign_key_listed db schema table) (pg_constraint db)).
Proof.
  rewrite foreign_keys_from_unique, filter_flat_map.
  apply flat_map_filter_parent. intros c _.
  unfold foreign_key_listed.
  destruct (foreign_key_parents db c) as [[[[n t] ref] nr] |] eqn:Ep.
  - destruct (foreign_keys_join_rows c n t ref nr Ep) as [_ Hrows].
    apply filter_const. intros r Hr. rewrite Forall_forall in Hrows.
    destruct (Hrows r Hr) as (_ & Hn & Ht & Hc).
    unfold on_table, is_foreign_key. rewrite Hn, Ht, Hc. reflexivity.
  - unfold foreign_keys_join. rewrite Ep. reflexivity.
Qed.

Lemma foreign_keys_grouped (schema table : string) :
  constraint_names_unique db schema table = true ->
  group_by foreign_keys_key_eqb foreign_keys_key
    (filter (fun r => on_table schema table r
                      && Ascii.eqb (contype (j_c r)) "f")
       (foreign_keys_from db))
  = map (fun c => (foreign_key_parent_key db c, foreign_keys_join db c))
      (filter (foreign_key_listed db schema table) (pg_constraint db)).
Proof.
  intros Hnames. rewrite foreign_keys_where.
  apply group_by_parents.
  - apply foreign_keys_key_eqb_refl.
  - intros c Hc. apply filter_In in Hc as [_ Hc].
    unfold foreign_key_listed in Hc.
    destruct (foreign_key_parents db c) as [[[[n t] ref] nr] |] eqn:Ep;
      [| discriminate].
    destruct (foreign_keys_join_rows c n t ref nr Ep) as [Hne Hrows].
    split; [exact Hne |].
    eapply Forall_impl; [| exact Hrows]. intros r (H & _). exact H.
  - apply (ForallOrdPairs_impl (fun a b => conname a <> conname b)).
    + intros a b H. unfold foreign_keys_key_eqb, foreign_key_parent_key.
      apply String.eqb_neq in H. rewrite H. reflexivity.
    + apply distinct_keys.
      rewrite (filter_filter_imp (constraint_on db schema table))
        by apply foreign_key_listed_on.
      apply where_keeps_key, nodupb_string, Hnames.
Qed.

(** The foreign-key query returns one row per foreign key of the table. *)
Lemma foreign_keys_query_rows (schema table : string) :
  constraint_names_unique db schema table = true ->
  foreign_keys_query db schema table
  = Ok (map (foreign_key_row db) (foreign_keys_of_table db schema table))
  /\ foreign_keys_groups db schema table
     = map (fun c => (foreign_key_parent_key db c, foreign_keys_join db c))
         (foreign_keys_of_table db schema table).
Proof.
  intros Hnames.
  assert (H : foreign_keys_groups db schema table
              = map (fun c => (foreign_key_parent_key db c,
                               foreign_keys_join db c))
                  (foreign_keys_of_table db schema table)).
  { unfold foreign_keys_groups.
    rewrite (foreign_keys_grouped schema table Hnames), order_by_map.
    reflexivity. }
  split; [| exact H].
  unfold foreign_keys_query. rewrite H, map_map. reflexivity.
Qed.
End ForeignKeys.

(** X16: in a catalog with unique keys where the constraint names of the
    table are unique, the foreign-key query of the document returns one
    row per constraint of the table that is a foreign key and whose
    referenced relation and its schema are in the catalog, and no row for
    any other constraint.  The row names the referenced schema and
    relation; its [column_names] and [referenced_columns] each have as
    many elements as the product of the numbers of entries of the two key
    arrays, and for a foreign key over one column they are that column
    and the column it references. *)
Theorem foreign_keys_query_foreign_key (db : database)
  (schema table : string) (c : pg_constraint_row) (k f : Z)
  (ks fs : list Z) :
  catalog_keys_unique db = true ->
  constraint_names_unique db schema table = true ->
  In c (pg_constraint db) ->
  foreign_key_listed db schema table c = true ->
  conkey c = Some (k :: ks) ->
  confkey c = Some (f :: fs) ->
  exists n t ref nr names refs,
    foreign_key_parents db c = Some (n, t, ref, nr)
    /\ foreign_keys_query db schema table
       = Ok (map (foreign_key_row db) (foreign_keys_of_table db schema table))
    /\ Forall (fun c' => is_foreign_key c' = true)
         (foreign_keys_of_table db schema table)
    /\ In c (foreign_keys_of_table db schema table)
    /\ getitem (foreign_key_row db c) "constraint_name"
       = Ok (VStr (conname c))
    /\ getitem (foreign_key_row db c) "referenced_schema"
       = Ok (VStr (nspname nr))
    /\ getitem (foreign_key_row db c) "referenced_table"
       = Ok (VStr (relname ref))
    /\ getitem (foreign_key_row db c) "column_names" = Ok (VList names)
    /\ getitem (foreign_key_row db c) "referenced_columns" = Ok (VList refs)
    /\ List.length names
       = (List.length (k :: ks) * List.length (f :: fs))%nat
    /\ List.length refs
       = (List.length (k :: ks) * List.length (f :: fs))%nat
    /\ (ks = [] -> fs = [] ->
        names = [key_column_name db (conrelid c) k]
        /\ refs = [key_column_name db (confrelid c) f]).
Proof.
  intros Hkeys Hnames Hin Hlisted Hkey Hfkey.
  pose proof Hlisted as Hl. unfold foreign_key_listed in Hl.
  destruct (foreign_key_parents db c) as [[[[n t] ref] nr] |] eqn:Ep;
    [| discriminate].
  assert (Et : rel_oid t = conrelid c).
  { unfold foreign_key_parents in Ep.
    destruct (namespace_of db (connamespace c)); [| discriminate].
    destruct (class_of db (conrelid c)) as [t' |] eqn:E; [| discriminate].
    destruct (class_of db (confrelid c)) as [ref' |]; [| discriminate].
    destruct (namespace_of db (relnamespace ref')); [| discriminate].
    injection Ep as _ <- _ _. apply class_of_oid in E as [E _]. exact E. }
  assert (Hjoin :
            foreign_keys_join db c
            = flat_map (fun u =>
                map (fun u2 =>
                       {| j_c := c; j_n := n; j_t := t;
                          j_ref_table := Some ref; j_nr := Some nr;
                          j_u := u; j_col := attribute_of db (rel_oid t) u;
                          j_u2 := u2;
                          j_ref_col := attribute_of db (confrelid c) u2 |})
                  (map Some (with_ordinality 1 (f :: fs))))
                (map Some (with_ordinality 1 (k :: ks)))).
  { unfold foreign_keys_join. rewrite Ep, Hkey, Hfkey. reflexivity. }
  destruct (array_agg_length (fun r => attposition (j_u r))
              (fun r => attname_value (j_col r))
              (foreign_keys_join db c)) as (names & Hn & Hnl).
  destruct (array_agg_length (fun r => attposition (j_u2 r))
              (fun r => attname_value (j_ref_col r))
              (foreign_keys_join db c)) as (refs & Hr & Hrl).
  exists n, t, ref, nr, names, refs.
  split; [reflexivity |].
  split; [apply (foreign_keys_query_rows db Hkeys schema table Hnames) |].
  split.
  { apply Forall_forall. intros c' Hc'.
    apply order_by_In, filter_In in Hc' as [_ Hc'].
    unfold foreign_key_listed in Hc'.
    destruct (foreign_key_parents db c') as [[[[? ?] ?] ?] |];
      [| discriminate].
    apply andb_true_iff in Hc' as [_ Hc']. exact Hc'. }
  split; [apply order_by_In, filter_In; auto |].
  unfold foreign_key_row, foreign_key_parent_key, foreign_keys_select.
  rewrite Ep.
  cbn [getitem dict_get String.eqb Ascii.eqb Bool.eqb option_map opt_str
         fst snd].
  unfold column_names_agg, referenced_columns_agg. rewrite Hn, Hr.
  repeat (split; [reflexivity |]).
  assert (Hlen : List.length (foreign_keys_join db c)
                 = (List.length (k :: ks) * List.length (f :: fs))%nat).
  { rewrite Hjoin, product_length, !length_map, !with_ordinality_length.
    reflexivity. }
  split; [congruence |]. split; [congruence |].
  intros -> ->. rewrite Hjoin in Hn, Hr.
  cbn in Hn, Hr. injection Hn as <-. injection Hr as <-.
  unfold key_column_name. rewrite Et. split; reflexivity.
Qed.

Lemma foreign_keys_query_foreign_key_witness :
  column_of "constraint_name"
    (foreign_keys_query Sample.db "public" "shipments")
  = Ok [VStr "shipments_item_fkey"]
  /\ column_of "referenced_table"
       (foreign_keys_query Sample.db "public" "shipments")
     = Ok [VStr "order_items"].
Proof.
  destruct (foreign_keys_query_foreign_key Sample.db "public" "shipments"
              (Sample.con 16415 "shipments_item_fkey" "f" 16410 16400
                 (Some [2; 3]) (Some [1; 2]))
              2 1 [3] [2] eq_refl eq_refl
              (or_intror (or_intror (or_intror (or_intror
                 (or_introl eq_refl)))))
              eq_refl eq_refl eq_refl)
    as (n & t & ref & nr & names & refs & _ & -> & _).
  split; reflexivity.
Defined.

(** X17: whenever [db_info] returns, the [foreign_keys] list of a table
    entry holds, in order, the rows of the foreign-key query for that
    table under the document's names: [name] for the constraint name,
    [columns] for the local names, and the referenced schema, table and
    columns unchanged. *)
Theorem db_info_foreign_keys (db : database) (doc : value)
  (r : schemata_row * pg_namespace_row) (t : tables_row) :
  db_info db = Ok doc ->
  In r (schemas_rows db) ->
  In t (tables_rows db (schema_name (fst r))) ->
  exists schemas schema_info schema_tables table_info fks,
    getitem doc "schemas" = Ok (VList schemas)
    /\ In schema_info schemas
    /\ getitem schema_info "name" = Ok (VStr (schema_name (fst r)))
    /\ getitem schema_info "tables" = Ok (VList schema_tables)
    /\ In table_info schema_tables
    /\ getitem table_info "name" = Ok (VStr (t_table_name t))
    /\ getitem table_info "foreign_keys" = Ok (VList fks)
    /\ Forall (fun names =>
         mapM (fun fk => getitem fk (fst names)) fks
         = column_of (snd names)
             (foreign_keys_query db (schema_name (fst r)) (t_table_name t)))
         [("name", "constraint_name"); ("columns", "column_names");
          ("referenced_schema", "referenced_schema");
          ("referenced_table", "referenced_table");
          ("referenced_columns", "referenced_columns")].
Proof.
  intros Hdoc Hr Ht. apply db_info_returns_document in Hdoc. subst doc.
  exists (map (schema_entry db) (schemas_rows db)), (schema_entry db r),
    (map (table_entry db (schema_name (fst r)))
       (tables_rows db (schema_name (fst r)))),
    (table_entry db (schema_name (fst r)) t),
    (map foreign_key_entry
       (foreign_keys_groups db (schema_name (fst r)) (t_table_name t))).
  split; [reflexivity |].
  split; [apply in_map, Hr |].
  split; [reflexivity |]. split; [reflexivity |].
  split; [apply in_map, Ht |].
  split; [reflexivity |]. split; [reflexivity |].
  unfold foreign_keys_query, column_of. cbn [bind].
  repeat constructor; cbn [fst snd].
  - rewrite (mapM_map_ok _ foreign_key_entry
               (fun g => VStr (fst (fst (fst g)))))
      by (intros g _; reflexivity).
    rewrite (mapM_map_ok _ foreign_keys_select
               (fun g => VStr (fst (fst (fst g)))))
      by (intros [[[? ?] ?] ?] _; reflexivity).
    reflexivity.
  - rewrite (mapM_map_ok _ foreign_key_entry
               (fun g => column_names_agg (snd g)))
      by (intros g _; reflexivity).
    rewrite (mapM_map_ok _ foreign_keys_select
               (fun g => column_names_agg (snd g)))
      by (intros [[[? ?] ?] ?] _; reflexivity).
    reflexivity.
  - rewrite (mapM_map_ok _ foreign_key_entry
               (fun g => opt_str (snd (fst (fst g)))))
      by (intros g _; reflexivity).
    rewrite (mapM_map_ok _ foreign_keys_select
               (fun g => opt_str (snd (fst (fst g)))))
      by (intros [[[? ?] ?] ?] _; reflexivity).
    reflexivity.
  - rewrite (mapM_map_ok _ foreign_key_entry
               (fun g => opt_str (snd (fst g))))
      by (intros g _; reflexivity).
    rewrite (mapM_map_ok _ foreign_keys_select
               (fun g => opt_str (snd (fst g))))
      by (intros [[[? ?] ?] ?] _; reflexivity).
    reflexivity.
  - rewrite (mapM_map_ok _ foreign_key_entry
               (fun g => referenced_columns_agg (snd g)))
      by (intros g _; reflexivity).
    rewrite (mapM_map_ok _ foreign_keys_select
               (fun g => referenced_columns_agg (snd g)))
      by (intros [[[? ?] ?] ?] _; reflexivity).
    reflexivity.
Qed.

Lemma db_info_foreign_keys_witness :
  exists table_info fks,
    getitem table_info "name" = Ok (VStr "shipments")
    /\ getitem table_info "foreign_keys" = Ok (VList fks)
    /\ mapM (fun fk => getitem fk "name") fks
       = column_of "constraint_name"
           (foreign_keys_query Sample.db "public" "shipments").
Proof.
  destruct (db_info_foreign_keys Sample.db (document Sample.db)
              ({| schema_name := "public" |},
               {| nsp_oid := 2200; nspname := "public" |})
              (Sample.base_table "public" "shipments"))
    as (schemas & schema_info & schema_tables & table_info & fks & _ & _
        & _ & _ & _ & Hname & Hfks & Hall).
  - vm_compute. reflexivity.
  - left. reflexivity.
  - right. left. reflexivity.
  - exists table_info, fks. split; [exact Hname |]. split; [exact Hfks |].
    inversion Hall as [| ? ? H _]. exact H.
Defined.

(** ** The referenced table of a constraint *)

(** X18: in a catalog with unique keys, the row of the constraints facet
    for a foreign key whose referenced relation and its schema are in the
    catalog has as [referenced_table] the schema name, a dot and the
    relation name, spliced without quoting; for a constraint that is not
    a foreign key [referenced_table] is NULL. *)
Theorem get_table_constraints_referenced_table (db : database)
  (schema table : string) (c : pg_constraint_row) :
  catalog_keys_unique db = true ->
  In c (pg_constraint db) ->
  constraint_on db schema table c = true ->
  exists rows,
    get_table_constraints db schema table = Ok rows
    /\ In (table_constraint_row db c) rows
    /\ (is_foreign_key c = false ->
        getitem (table_constraint_row db c) "referenced_table" = Ok VNone)
    /\ (forall ref nr,
          is_foreign_key c = true ->
          class_of db (confrelid c) = Some ref ->
          namespace_of db (relnamespace ref) = Some nr ->
          getitem (table_constraint_row db c) "referenced_table"
          = Ok (VStr (nspname nr ++ "." ++ relname ref)%string)).
Proof.
  intros Hkeys Hin Hon.
  exists (map (table_constraint_row db)
            (constraints_of_table db schema table)).
  split; [apply get_table_constraints_rows, Hkeys |].
  split; [apply in_map, constraint_of_table_listed; assumption |].
  unfold table_constraint_row, referenced_table_value, table_constraint_key,
    is_foreign_key.
  cbn [getitem dict_get String.eqb Ascii.eqb Bool.eqb k_contype
         k_ref_relname k_ref_relnamespace].
  split.
  - intros ->. reflexivity.
  - intros ref nr -> Eref Enr. rewrite Eref. cbn [option_map opt_eqb].
    unfold namespace_of in Enr. rewrite Enr. reflexivity.
Qed.

Lemma get_table_constraints_referenced_table_witness :
  exists rows row,
    get_table_constraints Sample.db "public" "shipments" = Ok rows
    /\ In row rows
    /\ getitem row "referenced_table" = Ok (VStr "public.order_items").
Proof.
  destruct (get_table_constraints_referenced_table Sample.db "public"
              "shipments"
              (Sample.con 16415 "shipments_item_fkey" "f" 16410 16400
                 (Some [2; 3]) (Some [1; 2]))
              eq_refl
              (or_intror (or_intror (or_intror (or_intror
                 (or_introl eq_refl)))))
              eq_refl) as (rows & Hrows & Hin & _ & Hfk).
  exists rows. eexists. split; [exact Hrows |]. split; [exact Hin |].
  apply (Hfk (Sample.rel 16400 "order_items" 2200 2)
           {| nsp_oid := 2200; nspname := "public" |});
    reflexivity.
Defined.
